(** * Eval-detector: the IoU matrix, the greedy matcher and the metrics of [main.py]

    A shallow embedding of [src/main.py].  NumPy arrays are lists (a matrix
    is a list of rows), [int64] values are integers with the wrap-around
    written out, [float64] and [float32] values are IEEE 754 binary
    floating-point numbers in the representation of the Standard Library
    ([spec_float], rounding to nearest, ties to even), Python sets are
    [gset]s and the nested [defaultdict] is an association list from labels
    to a record of five counters.  A cell of the columns [image_name] and
    [label] of a data frame is an integer, a text or missing, as
    [read_csv] types it, and the threshold of the command line is a number
    or, when the option [-t] is left out, [None]. *)

From Stdlib Require Import ZArith List Bool Lia String.
From Stdlib Require Import Floats.SpecFloat.
From stdpp Require Import gmap strings list.

Set Warnings "-clear-no-such-hyp".

Local Open Scope Z_scope.

(** ** Outcomes of Python code: a value, an exception, or a loop that has
    not finished within the allowed number of passes. *)

Inductive exn := ValueError | IndexError | ZeroDivisionError | TypeError.

Inductive outcome (A : Type) :=
| Done (a : A)
| Raise (e : exn)
| Timeout.
Arguments Done {A} a.
Arguments Raise {A} e.
Arguments Timeout {A}.

#[global] Instance outcome_ret : MRet outcome := fun _ a => Done a.
#[global] Instance outcome_bind : MBind outcome := fun _ _ f x =>
  match x with
  | Done a => f a
  | Raise e => Raise e
  | Timeout => Timeout
  end.

(** ** Machine numbers *)

Module I64.
(** NumPy's [int64]: array arithmetic wraps around silently. *)
Definition wrap (z : Z) : Z := (z + 2 ^ 63) mod 2 ^ 64 - 2 ^ 63.
Definition add (a b : Z) : Z := wrap (a + b).
Definition sub (a b : Z) : Z := wrap (a - b).
Definition mul (a b : Z) : Z := wrap (a * b).
Definition in_range (z : Z) : Prop := - 2 ^ 63 <= z < 2 ^ 63.
End I64.

Module F.
(** [float64] is binary64 ([prec = 53], [emax = 1024]); [float32] is
    binary32 ([prec = 24], [emax = 128]). *)
Definition float := spec_float.

Definition zero : float := S754_zero false.
Definition one : float := S754_finite false 4503599627370496 (-52).
Definition neg_inf : float := S754_infinity true.
Definition nan : float := S754_nan.
(** The literal [1e-32]: the binary64 number nearest to 10^-32. *)
Definition eps : float := S754_finite false 7307508186654515 (-159).

(** The binary32 numbers 1.0 and 0.5, and the binary64 number 0.5. *)
Definition one32 : float := S754_finite false 8388608 (-23).
Definition half32 : float := S754_finite false 8388608 (-24).
Definition half : float := S754_finite false 4503599627370496 (-53).

Definition is_nan (x : float) : bool :=
  match x with S754_nan => true | _ => false end.

(** C conversion of an integer to [double]. *)
Definition of_int (z : Z) : float := binary_normalize 53 1024 z 0 false.

Definition add64 : float -> float -> float := SFadd 53 1024.
Definition sub64 : float -> float -> float := SFsub 53 1024.
Definition mul64 : float -> float -> float := SFmul 53 1024.
Definition div64 : float -> float -> float := SFdiv 53 1024.

Definition ltb : float -> float -> bool := SFltb.
Definition leb : float -> float -> bool := SFleb.

(** [np.maximum] and [np.minimum]: a NaN operand is returned. *)
Definition maximum (x y : float) : float :=
  if is_nan x then x else if is_nan y then y
  else if ltb y x then x else y.
Definition minimum (x y : float) : float :=
  if is_nan x then x else if is_nan y then y
  else if ltb x y then x else y.
(** [np.clip(x, lo, hi)] is [minimum(maximum(x, lo), hi)]. *)
Definition clip (x lo hi : float) : float := minimum (maximum x lo) hi.

(** [.astype(np.float32)]: rounding of a [double] to the nearest
    [float]; values too large become infinite. *)
Definition to_f32 (x : float) : float :=
  match x with
  | S754_finite s m e => binary_round 24 128 s m e
  | _ => x
  end.

(** A [float32] read as a [float64] (exact). *)
Definition widen (x : float) : float :=
  match x with
  | S754_finite s m e => binary_round 53 1024 s m e
  | _ => x
  end.
End F.

(** ** Boxes and the pairwise IoU matrix ([compute_iou]) *)

Record Box := { left : Z; top : Z; right : Z; bottom : Z }.

(** Broadcasting a column against a row, and element-wise operations on
    two matrices of the same shape. *)
Definition outer {A B C} (f : A -> B -> C) (xs : list A) (ys : list B)
  : list (list C) :=
  map (fun x => map (f x) ys) xs.

Definition zip2 {A B C} (f : A -> B -> C) (X : list (list A))
  (Y : list (list B)) : list (list C) :=
  zip_with (zip_with f) X Y.

Definition map2d {A B} (f : A -> B) (X : list (list A)) : list (list B) :=
  map (map f) X.

Definition pair_max (p q : Z * Z) : Z * Z := (Z.max p.1 q.1, Z.max p.2 q.2).
Definition pair_min (p q : Z * Z) : Z * Z := (Z.min p.1 q.1, Z.min p.2 q.2).
Definition pair_sub (p q : Z * Z) : Z * Z := (I64.sub p.1 q.1, I64.sub p.2 q.2).

(** [boxes[:, :2]] and [boxes[:, 2:]] *)
Definition left_top (b : Box) : Z * Z := (left b, top b).
Definition right_bottom (b : Box) : Z * Z := (right b, bottom b).

(** [(boxes[:, 2] - boxes[:, 0]) * (boxes[:, 3] - boxes[:, 1])] *)
Definition box_area (b : Box) : Z :=
  I64.mul (I64.sub (right b) (left b)) (I64.sub (bottom b) (top b)).

Definition compute_iou (boxes1 boxes2 : list Box) : list (list F.float) :=
  let lu := outer pair_max (map left_top boxes1) (map left_top boxes2) in
  let rd := outer pair_min (map right_bottom boxes1) (map right_bottom boxes2) in
  let intersection :=
    map2d (fun d => (F.maximum F.zero (F.of_int d.1),
                     F.maximum F.zero (F.of_int d.2)))
          (zip2 pair_sub rd lu) in
  let intersection_area := map2d (fun wh => F.mul64 wh.1 wh.2) intersection in
  let boxes1_area := map box_area boxes1 in
  let boxes2_area := map box_area boxes2 in
  let union_area :=
    map2d (fun u => F.maximum u F.eps)
          (zip2 (fun s i => F.sub64 (F.of_int s) i)
                (outer I64.add boxes1_area boxes2_area) intersection_area) in
  map2d F.to_f32
        (map2d (fun q => F.clip q F.zero F.one)
               (zip2 F.div64 intersection_area union_area)).

Definition mkbox (l t r b : Z) : Box :=
  {| left := l; top := t; right := r; bottom := b |}.

(** ** The rows of the two data frames *)

(** A cell of the [image_name] or of the [label] column.  [read_csv]
    (line 36) types each column by its content: a column of integer
    literals is an [int64] column, whose cells are [Int]; a column with a
    field that is no number is an [object] column, whose cells are the
    texts as written, [Text]; a field that is absent is a NaN, [Missing]
    (the integers of a column with a missing field are read as [float64]
    numbers, of the same value as long as they are below [2^53] in
    absolute value).  Columns of fractional numbers and of booleans, and
    integers beyond the [int64] range, are not modelled. *)
Inductive cell :=
| Int (z : Z)
| Text (s : string)
| Missing.

#[global] Instance cell_eq_dec : EqDecision cell.
Proof. solve_decision. Defined.

Record Detection := {
  image_name : cell;
  box : Box;
  label : cell;
  score : F.float
}.

Definition key : Type := cell * cell.
Definition key_of (d : Detection) : key := (image_name d, label d).

(** Both cells of the key are there: [groupby] leaves out the rows with a
    missing key ([dropna=True]), and [==] is false of a NaN. *)
Definition present (k : key) : Prop := k.1 <> Missing /\ k.2 <> Missing.

#[global] Instance present_dec (k : key) : Decision (present k) :=
  and_dec (not_dec (cell_eq_dec k.1 Missing)) (not_dec (cell_eq_dec k.2 Missing)).

(** The order of a column: integers by value, texts by code point (which
    is the order of their UTF-8 bytes); in a column of mixed content the
    integers come first. *)
Definition cell_compare (a b : cell) : comparison :=
  match a, b with
  | Int x, Int y => (x ?= y)%Z
  | Text s, Text s' => String.compare s s'
  | Int _, Text _ => Lt
  | Text _, Int _ => Gt
  | Missing, Missing => Eq
  | Missing, _ => Gt
  | _, Missing => Lt
  end.

(** The order in which [groupby] yields its groups: keys sorted by image
    name, then by label, each key once. *)
Definition key_ltb (k1 k2 : key) : bool :=
  match cell_compare k1.1 k2.1 with
  | Lt => true
  | Gt => false
  | Eq => match cell_compare k1.2 k2.2 with Lt => true | _ => false end
  end.

Fixpoint insert_key (k : key) (ks : list key) : list key :=
  match ks with
  | [] => [k]
  | k' :: ks' =>
      if decide (k = k') then ks
      else if key_ltb k k' then k :: ks
      else k' :: insert_key k ks'
  end.

(** [ground_truth.groupby(['image_name', 'label'])]: the keys of the rows
    whose key is present, sorted. *)
Definition groupby_keys (df : list Detection) : list key :=
  foldr insert_key [] (filter present (map key_of df)).

(** [df.query('image_name == @image_name and label == @label')], also the
    rows of one group of [groupby]: the rows whose two cells are equal to
    those of the key, type and value (an integer and a text are never
    equal, a missing cell is equal to nothing). *)
Definition rows_of (k : key) (df : list Detection) : list Detection :=
  filter (fun d => key_of d = k /\ present k) df.

(** ** Per-label counters: [acc_metrics[label]] *)

Record Metrics := {
  total_true : Z;
  total_pred : Z;
  true_positive : Z;
  false_negative : Z;
  false_positive : Z
}.

Definition no_metrics : Metrics :=
  {| total_true := 0; total_pred := 0; true_positive := 0;
     false_negative := 0; false_positive := 0 |}.

Definition add_totals (nt np : Z) (m : Metrics) : Metrics :=
  {| total_true := total_true m + nt; total_pred := total_pred m + np;
     true_positive := true_positive m; false_negative := false_negative m;
     false_positive := false_positive m |}.

Definition add_true_positive (n : Z) (m : Metrics) : Metrics :=
  {| total_true := total_true m; total_pred := total_pred m;
     true_positive := true_positive m + n; false_negative := false_negative m;
     false_positive := false_positive m |}.

Definition add_false_negative (n : Z) (m : Metrics) : Metrics :=
  {| total_true := total_true m; total_pred := total_pred m;
     true_positive := true_positive m; false_negative := false_negative m + n;
     false_positive := false_positive m |}.

Definition add_false_positive (n : Z) (m : Metrics) : Metrics :=
  {| total_true := total_true m; total_pred := total_pred m;
     true_positive := true_positive m; false_negative := false_negative m;
     false_positive := false_positive m + n |}.

(** The outer [defaultdict], in insertion order. *)
Definition AccMetrics : Type := list (cell * Metrics).

Fixpoint acc_get (l : cell) (acc : AccMetrics) : Metrics :=
  match acc with
  | [] => no_metrics
  | (l', m) :: acc' => if decide (l = l') then m else acc_get l acc'
  end.

Fixpoint acc_set (l : cell) (m : Metrics) (acc : AccMetrics) : AccMetrics :=
  match acc with
  | [] => [(l, m)]
  | (l', m') :: acc' =>
      if decide (l = l') then (l, m) :: acc' else (l', m') :: acc_set l m acc'
  end.

(** ** The greedy matching loop *)

Record MatchState := {
  pairwise_iou : list (list F.float);
  used_rows : gset nat;
  used_cols : gset nat;
  metrics : Metrics
}.

(** [np.argmax] of the flattened array: the first NaN if there is one,
    else the first occurrence of the largest value. *)
Fixpoint argmax_from (mp : F.float) (mi i : nat) (l : list F.float) : nat :=
  match l with
  | [] => mi
  | x :: l' =>
      if F.is_nan mp then mi
      else if F.leb x mp then argmax_from mp mi (S i) l'
      else argmax_from x i (S i) l'
  end.

Definition np_argmax (l : list F.float) : outcome nat :=
  match l with
  | [] => Raise ValueError
  | x :: l' => Done (argmax_from x 0 1 l')
  end.

Definition shape {A} (X : list (list A)) : nat * nat :=
  (length X, match X with [] => 0%nat | row :: _ => length row end).

(** [np.unravel_index] for a two-dimensional shape (row-major order). *)
Definition unravel_index (k : nat) (sh : nat * nat) : nat * nat :=
  ((k / sh.2)%nat, (k mod sh.2)%nat).

Definition entry (X : list (list F.float)) (r c : nat) : outcome F.float :=
  match X !! r with
  | Some row => match row !! c with
                | Some x => Done x
                | None => Raise IndexError
                end
  | None => Raise IndexError
  end.

(** [X[r, :] = v] and [X[:, c] = v] *)
Definition set_row {A} (r : nat) (v : A) (X : list (list A)) : list (list A) :=
  alter (map (fun _ => v)) r X.
Definition set_col {A} (c : nat) (v : A) (X : list (list A)) : list (list A) :=
  map (fun row => <[c := v]> row) X.

Inductive pass_result :=
| Break
| Matched (r c : nat) (st : MatchState).

(** Lines 88-94: the matched row and column are masked and recorded. *)
Definition mark (r c : nat) (st : MatchState) : MatchState :=
  {| pairwise_iou := set_col c F.neg_inf (set_row r F.neg_inf (pairwise_iou st));
     used_rows := {[ r ]} ∪ used_rows st;
     used_cols := {[ c ]} ∪ used_cols st;
     metrics := add_true_positive 1 (metrics st) |}.

(** One pass through the body of [while True] (lines 82-94). *)
Definition loop_pass (t : F.float) (st : MatchState) : outcome pass_result :=
  k ← np_argmax (mjoin (pairwise_iou st));
  let rc := unravel_index k (shape (pairwise_iou st)) in
  max_iou ← entry (pairwise_iou st) rc.1 rc.2;
  if F.ltb (F.widen max_iou) t then Done Break
  else Done (Matched rc.1 rc.2 (mark rc.1 rc.2 st)).

(** The loop, run for at most [fuel] passes. *)
Fixpoint match_loop (fuel : nat) (t : F.float) (st : MatchState)
  : outcome MatchState :=
  match fuel with
  | O => Timeout
  | S fuel' =>
      r ← loop_pass t st;
      match r with
      | Break => Done st
      | Matched _ _ st' => match_loop fuel' t st'
      end
  end.

(** The state in which the loop is entered (line 79). *)
Definition start (X : list (list F.float)) (m : Metrics) : MatchState :=
  {| pairwise_iou := X; used_rows := ∅; used_cols := ∅; metrics := m |}.

(** ** One (image, label) group: the body of the [for] loop (lines 62-97) *)

Record GroupResult := {
  matched_rows : gset nat;
  matched_cols : gset nat;
  group_metrics : Metrics
}.

Definition len {A} (l : list A) : Z := Z.of_nat (length l).

(** [len(set(range(n)) - used)] *)
Definition unmatched (n : nat) (used : gset nat) : Z :=
  Z.of_nat (size (set_seq 0 n ∖ used : gset nat)).

Definition process_group (fuel : nat) (t : F.float)
  (true_df pred_df : list Detection) (m : Metrics) : outcome GroupResult :=
  let m1 := add_totals (len true_df) (len pred_df) m in
  if bool_decide (0 < len true_df) && bool_decide (len pred_df = 0) then
    Done {| matched_rows := ∅; matched_cols := ∅;
            group_metrics := add_false_negative (len true_df) m1 |}
  else
    let true_boxes := map box true_df in
    let pred_boxes := map box pred_df in
    st ← match_loop fuel t (start (compute_iou true_boxes pred_boxes) m1);
    Done {| matched_rows := used_rows st; matched_cols := used_cols st;
            group_metrics :=
              add_false_positive (unmatched (length pred_df) (used_cols st))
                (add_false_negative (unmatched (length true_df) (used_rows st))
                   (metrics st)) |}.

(** ** The accumulation over all groups (lines 59-97) *)

Definition accumulate_group (fuel : nat) (t : F.float)
  (ground_truth detection_results : list Detection)
  (acc : outcome AccMetrics) (k : key) : outcome AccMetrics :=
  a ← acc;
  g ← process_group fuel t (rows_of k ground_truth)
        (rows_of k detection_results) (acc_get k.2 a);
  Done (acc_set k.2 (group_metrics g) a).

Definition accumulate (fuel : nat) (t : F.float)
  (ground_truth detection_results : list Detection) : outcome AccMetrics :=
  fold_left (accumulate_group fuel t ground_truth detection_results)
    (groupby_keys ground_truth) (Done []).

(** ** The final ratios (lines 99-102) *)

Record Scores := { precision : F.float; recall : F.float; f1_score : F.float }.

Definition exact_int (z : Z) : F.float :=
  match z with
  | Z0 => S754_zero false
  | Zpos p => S754_finite false p 0
  | Zneg p => S754_finite true p 0
  end.

(** [a / b] on Python integers: the correctly rounded quotient. *)
Definition int_truediv (a b : Z) : outcome F.float :=
  if decide (b = 0) then Raise ZeroDivisionError
  else Done (F.div64 (exact_int a) (exact_int b)).

(** [x / y] on Python floats. *)
Definition float_truediv (x y : F.float) : outcome F.float :=
  match y with
  | S754_zero _ => Raise ZeroDivisionError
  | _ => Done (F.div64 x y)
  end.

Definition label_scores (m : Metrics) : outcome Scores :=
  p ← int_truediv (true_positive m) (true_positive m + false_positive m);
  r ← int_truediv (true_positive m) (true_positive m + false_negative m);
  f ← float_truediv (F.mul64 (F.of_int 2) (F.mul64 p r)) (F.add64 p r);
  Done {| precision := p; recall := r; f1_score := f |}.

Fixpoint report (acc : AccMetrics) : outcome (list (cell * Scores)) :=
  match acc with
  | [] => Done []
  | (l, m) :: acc' =>
      s ← label_scores m;
      rest ← report acc';
      Done ((l, s) :: rest)
  end.

Definition main (fuel : nat) (t : F.float)
  (ground_truth detection_results : list Detection)
  : outcome (list (cell * Scores)) :=
  acc ← accumulate fuel t ground_truth detection_results;
  report acc.

(** ** The threshold of the command line

    The option [-t] (line 54) is not required: when it is left out, [t] is
    [None], and the comparison [max_iou < t] of line 85 raises
    [TypeError].  The functions below are the ones above with the
    threshold as [main] receives it. *)

Definition loop_pass_cli (t : option F.float) (st : MatchState)
  : outcome pass_result :=
  k ← np_argmax (mjoin (pairwise_iou st));
  let rc := unravel_index k (shape (pairwise_iou st)) in
  max_iou ← entry (pairwise_iou st) rc.1 rc.2;
  match t with
  | None => Raise TypeError
  | Some t =>
      if F.ltb (F.widen max_iou) t then Done Break
      else Done (Matched rc.1 rc.2 (mark rc.1 rc.2 st))
  end.

Fixpoint match_loop_cli (fuel : nat) (t : option F.float) (st : MatchState)
  : outcome MatchState :=
  match fuel with
  | O => Timeout
  | S fuel' =>
      r ← loop_pass_cli t st;
      match r with
      | Break => Done st
      | Matched _ _ st' => match_loop_cli fuel' t st'
      end
  end.

Definition process_group_cli (fuel : nat) (t : option F.float)
  (true_df pred_df : list Detection) (m : Metrics) : outcome GroupResult :=
  let m1 := add_totals (len true_df) (len pred_df) m in
  if bool_decide (0 < len true_df) && bool_decide (len pred_df = 0) then
    Done {| matched_rows := ∅; matched_cols := ∅;
            group_metrics := add_false_negative (len true_df) m1 |}
  else
    let true_boxes := map box true_df in
    let pred_boxes := map box pred_df in
    st ← match_loop_cli fuel t (start (compute_iou true_boxes pred_boxes) m1);
    Done {| matched_rows := used_rows st; matched_cols := used_cols st;
            group_metrics :=
              add_false_positive (unmatched (length pred_df) (used_cols st))
                (add_false_negative (unmatched (length true_df) (used_rows st))
                   (metrics st)) |}.

Definition accumulate_group_cli (fuel : nat) (t : option F.float)
  (ground_truth detection_results : list Detection)
  (acc : outcome AccMetrics) (k : key) : outcome AccMetrics :=
  a ← acc;
  g ← process_group_cli fuel t (rows_of k ground_truth)
        (rows_of k detection_results) (acc_get k.2 a);
  Done (acc_set k.2 (group_metrics g) a).

Definition accumulate_cli (fuel : nat) (t : option F.float)
  (ground_truth detection_results : list Detection) : outcome AccMetrics :=
  fold_left (accumulate_group_cli fuel t ground_truth detection_results)
    (groupby_keys ground_truth) (Done []).

Definition main_cli (fuel : nat) (t : option F.float)
  (ground_truth detection_results : list Detection)
  : outcome (list (cell * Scores)) :=
  acc ← accumulate_cli fuel t ground_truth detection_results;
  report acc.

(** * Specification vocabulary *)

(** The IoU of one pair of boxes, as the specification words it:
    intersection rectangle, sides clamped at 0, union floored at [1e-32],
    ratio clipped to [0, 1], 32-bit result. *)
Definition intersection_width (a b : Box) : F.float :=
  F.maximum F.zero
    (F.of_int (I64.sub (Z.min (right a) (right b)) (Z.max (left a) (left b)))).

Definition intersection_height (a b : Box) : F.float :=
  F.maximum F.zero
    (F.of_int (I64.sub (Z.min (bottom a) (bottom b)) (Z.max (top a) (top b)))).

Definition intersection_area_pair (a b : Box) : F.float :=
  F.mul64 (intersection_width a b) (intersection_height a b).

Definition union_area_pair (a b : Box) : F.float :=
  F.maximum
    (F.sub64 (F.of_int (I64.add (box_area a) (box_area b)))
             (intersection_area_pair a b))
    F.eps.

Definition iou_pair (a b : Box) : F.float :=
  F.to_f32
    (F.clip (F.div64 (intersection_area_pair a b) (union_area_pair a b))
            F.zero F.one).

(** Boxes as the data model wants them, boxes of zero area, and boxes
    far from the ends of the [int64] range. *)
Definition well_formed (b : Box) : Prop := left b <= right b /\ top b <= bottom b.

Definition degenerate (b : Box) : Prop := right b = left b \/ bottom b = top b.

Definition coordinate_ok (z : Z) : Prop := - 2 ^ 62 <= z < 2 ^ 62.

Definition in_range (b : Box) : Prop :=
  coordinate_ok (left b) /\ coordinate_ok (top b)
  /\ coordinate_ok (right b) /\ coordinate_ok (bottom b).

(** What [np.argmax] returns on the list [l]: [v = l[k]] is the largest
    value of [l] and everything before [k] is strictly smaller (unless [v]
    is a NaN, the first one). *)
Definition is_argmax (l : list F.float) (k : nat) (v : F.float) : Prop :=
  l !! k = Some v
  /\ (F.is_nan v = false -> forall j x, l !! j = Some x -> F.leb x v = true)
  /\ (forall j x, (j < k)%nat -> l !! j = Some x ->
        F.is_nan x = false /\ (F.is_nan v = false -> F.ltb x v = true)).

(** A list of rows is an array of shape [(M, N)]. *)
Definition rect {A} (M N : nat) (X : list (list A)) : Prop :=
  length X = M /\ Forall (fun row => length row = N) X.

Definition at2 {A} (X : list (list A)) (i j : nat) : option A :=
  X !! i ≫= (.!! j).

(** The passes of the loop that went through to a match, with the
    (row, column) pairs they matched, in order. *)
Inductive run (t : F.float) : MatchState -> list (nat * nat) -> MatchState -> Prop :=
| run_nil st : run t st [] st
| run_cons st r c st' tr st'' :
    loop_pass t st = Done (Matched r c st') ->
    run t st' tr st'' ->
    run t st ((r, c) :: tr) st''.

(** A threshold that is a number above minus infinity: the masked entries
    are below it. *)
Definition ordinary (t : F.float) : Prop := F.ltb F.neg_inf t = true.

(** What every pass of the loop keeps true of an [(M, N)] group. *)
Definition shape_inv (M N : nat) (st : MatchState) : Prop :=
  rect M N (pairwise_iou st)
  /\ used_rows st ⊆ set_seq 0 M
  /\ used_cols st ⊆ set_seq 0 N.

(** After [k] matches: [k] distinct rows and [k] distinct columns are
    used, and their entries are masked. *)
Definition match_inv (M N : nat) (st : MatchState) (k : nat) : Prop :=
  shape_inv M N st
  /\ size (used_rows st) = k
  /\ size (used_cols st) = k
  /\ (forall i j x, at2 (pairwise_iou st) i j = Some x ->
        i ∈ used_rows st \/ j ∈ used_cols st -> x = F.neg_inf).

(** Not below zero: a zero, a positive number, or a NaN. *)
Definition not_negative (x : F.float) : bool :=
  match x with
  | S754_zero _ | S754_nan => true
  | S754_infinity s | S754_finite s _ _ => negb s
  end.

(** A number of sign [s], or a NaN. *)
Definition has_sign (s : bool) (x : F.float) : Prop :=
  match x with
  | S754_zero s' | S754_infinity s' | S754_finite s' _ _ => s' = s
  | S754_nan => True
  end.

(** After matches without a NaN or minus-infinity threshold in the way:
    what is not yet masked is not below zero. *)
Definition zero_inv (M N : nat) (st : MatchState) (k : nat) : Prop :=
  match_inv M N st k
  /\ (forall i j x, at2 (pairwise_iou st) i j = Some x ->
        i ∉ used_rows st -> j ∉ used_cols st -> not_negative x = true).

(** The shape of a number rounded to the format [(prec, emax)] from a
    number of sign [s] whose exponent, once its mantissa is cut to [prec]
    digits, is [E]. *)
Definition rounded (prec emax : Z) (s : bool) (E : Z) (x : spec_float) : Prop :=
  match x with
  | S754_zero s' => s' = s
  | S754_infinity s' => s' = s /\ emax - prec <= E
  | S754_nan => False
  | S754_finite s' m' e' =>
      s' = s /\ Z.pos m' < 2 ^ prec /\ E <= e' <= E + 1
      /\ (e' = E + 1 -> Z.pos m' = 2 ^ (prec - 1))
      /\ e' <= emax - prec
  end.

(** A binary64 number that is zero or positive and finite; the same, or
    plus infinity. *)
Definition pos_or_zero (x : F.float) : Prop :=
  match x with
  | S754_zero _ => True
  | S754_finite false m _ => Z.pos m < 2 ^ 53
  | _ => False
  end.

Definition pos_zero_inf (x : F.float) : Prop :=
  pos_or_zero x \/ x = S754_infinity false.

(** A binary64 number that is zero or finite, of any sign. *)
Definition finite64 (x : F.float) : Prop :=
  match x with
  | S754_zero _ => True
  | S754_finite _ m _ => Z.pos m < 2 ^ 53
  | _ => False
  end.

(** A binary32 number between 0 and 1. *)
Definition in_unit32 (x : F.float) : Prop :=
  match x with
  | S754_zero false => True
  | S754_finite false m e =>
      Z.pos m < 2 ^ 24 /\ (e < -23 \/ (e = -23 /\ Z.pos m = 2 ^ 23))
  | _ => False
  end.

(** The rows of the scenarios of the specification. *)
Definition row (img : string) (l t r b : Z) (lab : string) (s : F.float)
  : Detection :=
  {| image_name := Text img; box := mkbox l t r b; label := Text lab;
     score := s |}.

(** A row of image 1 whose label is a number. *)
Definition numbered (lab l t r b : Z) (s : F.float) : Detection :=
  {| image_name := Int 1; box := mkbox l t r b; label := Int lab; score := s |}.

(** A row of image 1 whose label is a text, and one whose label is
    missing. *)
Definition texted (lab : string) (l t r b : Z) (s : F.float) : Detection :=
  {| image_name := Int 1; box := mkbox l t r b; label := Text lab; score := s |}.

Definition unlabelled (l t r b : Z) (s : F.float) : Detection :=
  {| image_name := Int 1; box := mkbox l t r b; label := Missing; score := s |}.

Definition score_09 : F.float := S754_finite false 8106479329266893 (-53).
Definition score_08 : F.float := S754_finite false 7205759403792794 (-53).

Definition cat_truth : Detection := row "a" 10 10 50 50 "cat" F.one.
Definition cat_pred : Detection := row "a" 12 12 48 48 "cat" score_09.
Definition dog_truth : Detection := row "a" 0 0 10 10 "dog" F.one.
Definition dog_pred : Detection := row "a" 50 50 60 60 "dog" score_08.
Definition dog_pred_elsewhere : Detection := row "b" 50 50 60 60 "dog" score_08.

(** The intersection rectangle of two boxes has no interior: the boxes
    are apart, or touch, or one of them has no area. *)
Definition no_overlap (a b : Box) : Prop :=
  Z.min (right a) (right b) <= Z.max (left a) (left b)
  \/ Z.min (bottom a) (bottom b) <= Z.max (top a) (top b).

(** A box whose sides are positive and short enough for its area, and
    twice its area, to be binary64 numbers. *)
Definition small_box (b : Box) : Prop :=
  in_range b
  /\ 0 < right b - left b < 2 ^ 26
  /\ 0 < bottom b - top b < 2 ^ 26.

(** Strictly before, in the order of [groupby]; and a list of keys that
    is strictly increasing. *)
Definition key_lt (k1 k2 : key) : Prop := key_ltb k1 k2 = true.

Fixpoint increasing (ks : list key) : Prop :=
  match ks with
  | [] => True
  | k :: ks' => Forall (key_lt k) ks' /\ increasing ks'
  end.

(** The rows of a data frame with the label [l] whose (image, label) key
    is among [ks]. *)
Definition rows_in (l : cell) (ks : list key) (df : list Detection)
  : list Detection :=
  filter (fun d => label d = l /\ key_of d ∈ ks) df.

(** Counters that add up. *)
Definition balanced (m : Metrics) : Prop :=
  true_positive m + false_negative m = total_true m
  /\ true_positive m + false_positive m = total_pred m
  /\ 0 <= true_positive m /\ 0 <= false_negative m /\ 0 <= false_positive m.

(** The labels in the order in which they get their entry in
    [acc_metrics]: the first appearance among the groups. *)
Definition add_label (ls : list cell) (k : key) : list cell :=
  if decide (k.2 ∈ ls) then ls else ls ++ [k.2].

Definition labels_in_order (ks : list key) : list cell :=
  fold_left add_label ks [].

(** What holds of [acc_metrics] when the groups [ks] have been gone
    through. *)
Definition acc_inv (ground_truth detection_results : list Detection)
  (ks : list key) (acc : AccMetrics) : Prop :=
  acc.*1 = labels_in_order ks
  /\ forall l,
       total_true (acc_get l acc) = len (rows_in l ks ground_truth)
       /\ total_pred (acc_get l acc) = len (rows_in l ks detection_results)
       /\ balanced (acc_get l acc).

(** The sides of the intersection rectangle, as integers, are not below
    [-2^63]: the subtraction [rd - lu] does not wrap around. *)
Definition no_wrap (a b : Box) : Prop :=
  - 2 ^ 63 <= Z.min (right a) (right b) - Z.max (left a) (left b)
  /\ - 2 ^ 63 <= Z.min (bottom a) (bottom b) - Z.max (top a) (top b).


(** The areas as integers, without rounding and without wrap-around. *)
Definition exact_area (b : Box) : Z := (right b - left b) * (bottom b - top b).

Definition exact_intersection (a b : Box) : Z :=
  Z.max 0 (Z.min (right a) (right b) - Z.max (left a) (left b))
  * Z.max 0 (Z.min (bottom a) (bottom b) - Z.max (top a) (top b)).

Definition exact_union (a b : Box) : Z :=
  exact_area a + exact_area b - exact_intersection a b.

(** A prediction row with the image name and the label of a ground-truth
    row, neither missing: the group of that row has predictions. *)
Definition group_with_predictions (ground_truth detection_results : list Detection)
  : Prop :=
  exists d p, d ∈ ground_truth /\ p ∈ detection_results
              /\ key_of p = key_of d /\ present (key_of d).

(** Two states of the matching loop that differ in the counters only. *)
Definition same_arrays (st st' : MatchState) : Prop :=
  pairwise_iou st = pairwise_iou st'
  /\ used_rows st = used_rows st'
  /\ used_cols st = used_cols st'.

(** A row without its confidence score. *)
Definition drop_score (d : Detection) : Detection :=
  {| image_name := image_name d; box := box d; label := label d;
     score := F.zero |}.

(** The pairs [tr], matched in this order after the rows [R] and the
    columns [C], were each a pair of largest IoU among the pairs whose row
    and column were still free. *)
Fixpoint greedy_from (X : list (list F.float)) (R C : gset nat)
  (tr : list (nat * nat)) : Prop :=
  match tr with
  | [] => True
  | rc :: tr' =>
      (exists v, at2 X rc.1 rc.2 = Some v
         /\ forall i j x, i ∉ R -> j ∉ C -> at2 X i j = Some x ->
              F.leb x v = true)
      /\ greedy_from X ({[ rc.1 ]} ∪ R) ({[ rc.2 ]} ∪ C) tr'
  end.

(** * Properties *)

(** ** The order of floating-point numbers *)

Section FloatOrder.
Implicit Types x y z : F.float.

Lemma compare_cont_Eq (p q : positive) :
  Pos.compare_cont Eq p q = (p ?= q)%positive.
Proof. reflexivity. Qed.

Ltac order_cases :=
  intros;
  repeat (rewrite ?compare_cont_Eq in *;
    match goal with
    | |- context [(?a ?= ?b)%Z] => destruct (Z.compare_spec a b)
    | |- context [(?a ?= ?b)%positive] => destruct (Pos.compare_spec a b)
    | H : context [(?a ?= ?b)%Z] |- _ => destruct (Z.compare_spec a b)
    | H : context [(?a ?= ?b)%positive] |- _ => destruct (Pos.compare_spec a b)
    end; simpl in *);
  simpl in *; try congruence; try lia.

Lemma leb_nan_l x y : F.leb x y = true -> F.is_nan x = false.
Proof. by destruct x, y. Qed.

Lemma leb_nan_r x y : F.leb x y = true -> F.is_nan y = false.
Proof. by destruct x as [[]|[]| |[]], y. Qed.

Lemma leb_refl x : F.is_nan x = false -> F.leb x x = true.
Proof.
  destruct x as [s|[]| |[] m e]; unfold F.leb, SFleb; simpl; try done;
    rewrite ?compare_cont_Eq, Z.compare_refl, Pos.compare_refl; done.
Qed.

Lemma leb_trans x y z :
  F.leb x y = true -> F.leb y z = true -> F.leb x z = true.
Proof.
  unfold F.leb, SFleb.
  destruct x as [?|[]| |[] ? ?], y as [?|[]| |[] ? ?], z as [?|[]| |[] ? ?];
    simpl; try done; rewrite ?compare_cont_Eq; order_cases.
Qed.

Lemma not_leb_ltb x y :
  F.is_nan x = false -> F.is_nan y = false ->
  F.leb x y = false -> F.ltb y x = true.
Proof.
  unfold F.leb, F.ltb, SFleb, SFltb.
  destruct x as [?|[]| |[] ? ?], y as [?|[]| |[] ? ?];
    simpl; try done; rewrite ?compare_cont_Eq; order_cases.
Qed.

Lemma ltb_leb x y : F.ltb x y = true -> F.leb x y = true.
Proof.
  unfold F.leb, F.ltb, SFleb, SFltb. by destruct (SFcompare x y) as [[]|].
Qed.

Lemma ltb_leb_trans x y z :
  F.ltb x y = true -> F.leb y z = true -> F.ltb x z = true.
Proof.
  unfold F.leb, F.ltb, SFleb, SFltb.
  destruct x as [?|[]| |[] ? ?], y as [?|[]| |[] ? ?], z as [?|[]| |[] ? ?];
    simpl; try done; rewrite ?compare_cont_Eq; order_cases.
Qed.

Lemma ltb_not_leb x y : F.ltb x y = true -> F.leb y x = false.
Proof.
  unfold F.leb, F.ltb, SFleb, SFltb.
  destruct x as [?|[]| |[] ? ?], y as [?|[]| |[] ? ?];
    simpl; try done; rewrite ?compare_cont_Eq; order_cases.
Qed.
End FloatOrder.

(** ** [np.argmax]: the first occurrence of the largest value *)

Section Argmax.
Local Open Scope nat_scope.
Implicit Types l pre : list F.float.

Lemma leb_ltb_trans x y z :
  F.leb x y = true -> F.ltb y z = true -> F.ltb x z = true.
Proof.
  intros Hxy Hyz.
  assert (F.is_nan x = false) by eauto using leb_nan_l.
  assert (F.is_nan z = false) by eauto using leb_nan_r, ltb_leb.
  apply not_leb_ltb; [done..|].
  destruct (F.leb z x) eqn:Hzx; [|done].
  apply ltb_not_leb in Hyz. rewrite (leb_trans _ _ _ Hzx Hxy) in Hyz. done.
Qed.

Lemma argmax_from_spec l : forall pre mp mi,
  is_argmax pre mi mp ->
  is_argmax (pre ++ l) (argmax_from mp mi (length pre) l) mp
  \/ exists v, is_argmax (pre ++ l) (argmax_from mp mi (length pre) l) v.
Proof.
  induction l as [|x l IH]; intros pre mp mi Hpre.
  - left. by rewrite app_nil_r.
  - simpl. destruct Hpre as (Hmi & Hmax & Hlt).
    destruct (F.is_nan mp) eqn:Hnan.
    + left. split; [|split].
      * by apply lookup_app_l_Some.
      * congruence.
      * intros j y Hj Hy. split; [|congruence].
        apply lookup_lt_Some in Hmi.
        rewrite lookup_app_l in Hy by lia. by eapply Hlt.
    + specialize (Hmax eq_refl).
      replace (pre ++ x :: l) with ((pre ++ [x]) ++ l)
        by (by rewrite <- app_assoc).
      replace (S (length pre)) with (length (pre ++ [x]))
        by (rewrite length_app; simpl; lia).
      destruct (F.leb x mp) eqn:Hle.
      * right. destruct (IH (pre ++ [x]) mp mi) as [H|H]; [|eauto|done].
        split; [|split].
        -- by apply lookup_app_l_Some.
        -- intros _ j y Hy. apply lookup_app_Some in Hy as [Hy|[_ Hy]].
           ++ eauto.
           ++ apply list_lookup_singleton_Some in Hy as [_ <-]. done.
        -- intros j y Hj Hy. apply lookup_lt_Some in Hmi.
           rewrite lookup_app_l in Hy by lia. rewrite Hnan. eauto.
      * right. destruct (IH (pre ++ [x]) x (length pre)) as [H|H]; [|eauto|done].
        split; [|split].
        -- rewrite lookup_app_r by lia. by rewrite Nat.sub_diag.
        -- intros Hx j y Hy. apply lookup_app_Some in Hy as [Hy|[_ Hy]].
           ++ eapply leb_trans; [by eapply Hmax|].
              apply ltb_leb, not_leb_ltb; done.
           ++ apply list_lookup_singleton_Some in Hy as [_ <-].
              by apply leb_refl.
        -- intros j y Hj Hy. rewrite lookup_app_l in Hy by lia.
           split; [by eapply leb_nan_l, Hmax|].
           intros Hx. eapply leb_ltb_trans; [by eapply Hmax|].
           by apply not_leb_ltb.
Qed.

Lemma np_argmax_spec l :
  l <> [] -> exists k v, np_argmax l = Done k /\ is_argmax l k v.
Proof.
  destruct l as [|x l]; [done|]. intros _. simpl.
  destruct (argmax_from_spec l [x] x 0) as [H|[v H]]; [|eauto..].
  split; [done|split].
  - intros Hx [|j] y Hy; simpl in Hy; [|by rewrite lookup_nil in Hy].
    injection Hy as <-. by apply leb_refl.
  - intros j y Hj. lia.
Qed.
End Argmax.

(** ** Arrays of shape [(M, N)] *)

Lemma map_fmap {A B} (f : A -> B) (l : list A) : map f l = f <$> l.
Proof. reflexivity. Qed.

Section Matrix.
Local Open Scope nat_scope.
Context {A : Type}.
Implicit Types X : list (list A).

Lemma rect_row M N X i row : rect M N X -> X !! i = Some row -> length row = N.
Proof. intros [_ HX] Hi. by eapply (Forall_lookup_1 _ _ _ _ HX). Qed.

Lemma rect_shape M N X : rect M N X -> 0 < M -> shape X = (M, N).
Proof.
  intros [HM HX] HM0. unfold shape. destruct X as [|row X]; simpl in *; [lia|].
  f_equal; [done|]. by inversion HX.
Qed.

Lemma rect_length_join M N X : rect M N X -> length (mjoin X) = M * N.
Proof.
  intros [<- HX]. rewrite length_join. by apply sum_list_fmap_same.
Qed.

Lemma at2_Some X i j x :
  at2 X i j = Some x <-> exists row, X !! i = Some row /\ row !! j = Some x.
Proof.
  unfold at2. destruct (X !! i) as [row|]; simpl.
  - split; [eauto|]. by intros (? & [= <-] & ?).
  - split; [done|]. by intros (? & ? & ?).
Qed.

Lemma at2_join M N X i j :
  rect M N X -> j < N -> mjoin X !! (i * N + j) = at2 X i j.
Proof.
  intros [_ HX] Hj. apply option_eq. intros x.
  by rewrite join_lookup_Some_same_length', at2_Some.
Qed.

Lemma at2_lt M N X i j x : rect M N X -> at2 X i j = Some x -> i < M /\ j < N.
Proof.
  intros HX (row & Hi & Hj)%at2_Some. split.
  - destruct HX as [<- _]. by eapply lookup_lt_Some.
  - rewrite <- (rect_row _ _ _ _ _ HX Hi). by eapply lookup_lt_Some.
Qed.

Lemma at2_is_Some M N X i j : rect M N X -> i < M -> j < N -> is_Some (at2 X i j).
Proof.
  intros HX Hi Hj. destruct (lookup_lt_is_Some_2 X i) as [row Hrow].
  { by destruct HX as [-> _]. }
  destruct (lookup_lt_is_Some_2 row j) as [x Hx].
  { by rewrite (rect_row _ _ _ _ _ HX Hrow). }
  exists x. apply at2_Some. eauto.
Qed.

Lemma rect_set_row M N X r v : rect M N X -> rect M N (set_row r v X).
Proof.
  intros [HM HX]. split; unfold set_row.
  - by rewrite length_alter.
  - apply Forall_alter; [done|]. intros row _ Hrow. by rewrite length_map.
Qed.

Lemma rect_set_col M N X c v : rect M N X -> rect M N (set_col c v X).
Proof.
  intros [HM HX]. split; unfold set_col.
  - by rewrite length_map.
  - rewrite map_fmap. apply Forall_fmap. eapply Forall_impl; [done|].
    intros row Hrow. simpl. by rewrite length_insert.
Qed.

Lemma at2_set_row X r v i j x :
  at2 (set_row r v X) i j = Some x ->
  (i = r /\ x = v) \/ (i <> r /\ at2 X i j = Some x).
Proof.
  intros (row & Hi & Hj)%at2_Some. unfold set_row in Hi.
  destruct (decide (i = r)) as [->|Hne].
  - left. split; [done|].
    rewrite list_lookup_alter_eq in Hi.
    destruct (X !! r) as [row'|]; simplify_eq/=.
    rewrite map_fmap in Hj.
    apply list_lookup_fmap_Some in Hj as (? & ? & ?). done.
  - right. split; [done|]. rewrite list_lookup_alter_ne in Hi by done.
    apply at2_Some. eauto.
Qed.

Lemma at2_set_col X c v i j x :
  at2 (set_col c v X) i j = Some x ->
  (j = c /\ x = v) \/ (j <> c /\ at2 X i j = Some x).
Proof.
  intros (row & Hi & Hj)%at2_Some. unfold set_col in Hi.
  rewrite map_fmap in Hi.
  apply list_lookup_fmap_Some in Hi as (row' & -> & Hrow').
  destruct (decide (j = c)) as [->|Hne].
  - left. split; [done|].
    apply list_lookup_insert_Some in Hj as [(_ & -> & _)|(? & _)]; done.
  - right. split; [done|]. rewrite list_lookup_insert_ne in Hj by done.
    apply at2_Some. eauto.
Qed.
End Matrix.

(** ** Broadcasting and element-wise operations, entry by entry *)

Section Entrywise.
Local Open Scope nat_scope.
Context {A B C : Type}.

Lemma rect_outer (f : A -> B -> C) xs ys :
  rect (length xs) (length ys) (outer f xs ys).
Proof.
  split; unfold outer.
  - by rewrite length_map.
  - rewrite map_fmap. apply Forall_fmap, Forall_true. intros x. simpl.
    by rewrite length_map.
Qed.

Lemma at2_outer (f : A -> B -> C) xs ys i j x y :
  xs !! i = Some x -> ys !! j = Some y ->
  at2 (outer f xs ys) i j = Some (f x y).
Proof.
  intros Hx Hy. apply at2_Some. exists (map (f x) ys). split.
  - unfold outer. rewrite map_fmap, list_lookup_fmap, Hx. done.
  - rewrite map_fmap, list_lookup_fmap, Hy. done.
Qed.

Lemma rect_zip2 (f : A -> B -> C) M N X Y :
  rect M N X -> rect M N Y -> rect M N (zip2 f X Y).
Proof.
  intros [HXl HX] [HYl HY]. split; unfold zip2.
  - rewrite length_zip_with. lia.
  - apply Forall_lookup_2. intros i row Hrow.
    apply lookup_zip_with_Some in Hrow as (rx & ry & -> & Hrx & Hry).
    rewrite length_zip_with.
    rewrite (Forall_lookup_1 _ _ _ _ HX Hrx), (Forall_lookup_1 _ _ _ _ HY Hry).
    lia.
Qed.

Lemma at2_zip2 (f : A -> B -> C) X Y i j x y :
  at2 X i j = Some x -> at2 Y i j = Some y ->
  at2 (zip2 f X Y) i j = Some (f x y).
Proof.
  intros (rx & Hrx & Hx)%at2_Some (ry & Hry & Hy)%at2_Some.
  apply at2_Some. exists (zip_with f rx ry). split.
  - unfold zip2. rewrite lookup_zip_with, Hrx. simpl. by rewrite Hry.
  - rewrite lookup_zip_with, Hx. simpl. by rewrite Hy.
Qed.

Lemma rect_map2d (f : A -> B) M N X : rect M N X -> rect M N (map2d f X).
Proof.
  intros [HXl HX]. split; unfold map2d.
  - by rewrite length_map.
  - rewrite map_fmap. apply Forall_fmap. eapply Forall_impl; [done|].
    intros row Hrow. simpl. by rewrite length_map.
Qed.

Lemma at2_map2d (f : A -> B) X i j x :
  at2 X i j = Some x -> at2 (map2d f X) i j = Some (f x).
Proof.
  intros (rx & Hrx & Hx)%at2_Some. apply at2_Some. exists (map f rx). split.
  - unfold map2d. rewrite map_fmap, list_lookup_fmap, Hrx. done.
  - rewrite map_fmap, list_lookup_fmap, Hx. done.
Qed.
End Entrywise.

(** ** [compute_iou], entry by entry *)

Lemma compute_iou_rect (boxes1 boxes2 : list Box) :
  rect (length boxes1) (length boxes2) (compute_iou boxes1 boxes2).
Proof.
  unfold compute_iou.
  pose proof (rect_outer pair_max (map left_top boxes1) (map left_top boxes2)) as Hlu.
  pose proof (rect_outer pair_min (map right_bottom boxes1)
                (map right_bottom boxes2)) as Hrd.
  pose proof (rect_outer I64.add (map box_area boxes1) (map box_area boxes2)) as Har.
  rewrite !length_map in Hlu, Hrd, Har.
  repeat first [apply rect_map2d | apply rect_zip2 | done].
Qed.

Lemma compute_iou_entry (boxes1 boxes2 : list Box) (i j : nat) (a b : Box) :
  boxes1 !! i = Some a -> boxes2 !! j = Some b ->
  at2 (compute_iou boxes1 boxes2) i j = Some (iou_pair a b).
Proof.
  intros Ha Hb. unfold compute_iou, iou_pair, union_area_pair,
    intersection_area_pair, intersection_width, intersection_height.
  assert (forall (f : Box -> Z * Z) (g : Z * Z -> Z * Z -> Z * Z),
    at2 (outer g (map f boxes1) (map f boxes2)) i j = Some (g (f a) (f b))) as Hout.
  { intros f g. apply at2_outer; by rewrite map_fmap, list_lookup_fmap, ?Ha, ?Hb. }
  assert (at2 (outer I64.add (map box_area boxes1) (map box_area boxes2)) i j
          = Some (I64.add (box_area a) (box_area b))) as Har.
  { apply at2_outer; by rewrite map_fmap, list_lookup_fmap, ?Ha, ?Hb. }
  pose proof (Hout left_top pair_max) as Hlu.
  pose proof (Hout right_bottom pair_min) as Hrd.
  pose proof (at2_zip2 pair_sub _ _ _ _ _ _ Hrd Hlu) as Hsub.
  pose proof (at2_map2d (fun d => (F.maximum F.zero (F.of_int d.1),
                                   F.maximum F.zero (F.of_int d.2)))
                _ _ _ _ Hsub) as Hint.
  pose proof (at2_map2d (fun wh => F.mul64 wh.1 wh.2) _ _ _ _ Hint) as Hia.
  pose proof (at2_zip2 (fun s i => F.sub64 (F.of_int s) i) _ _ _ _ _ _ Har Hia)
    as Hsum.
  pose proof (at2_map2d (fun u => F.maximum u F.eps) _ _ _ _ Hsum) as Hun.
  pose proof (at2_zip2 F.div64 _ _ _ _ _ _ Hia Hun) as Hdiv.
  pose proof (at2_map2d (fun q => F.clip q F.zero F.one) _ _ _ _ Hdiv) as Hclip.
  exact (at2_map2d F.to_f32 _ _ _ _ Hclip).
Qed.

(** ** One pass of the matching loop *)

Section Pass.
Local Open Scope nat_scope.
Variables M N : nat.
Hypothesis HM : 0 < M.
Hypothesis HN : 0 < N.

Lemma loop_pass_spec t st :
  rect M N (pairwise_iou st) ->
  exists r c v,
    r < M /\ c < N /\ at2 (pairwise_iou st) r c = Some v
    /\ is_argmax (mjoin (pairwise_iou st)) (r * N + c) v
    /\ loop_pass t st =
         Done (if F.ltb (F.widen v) t then Break else Matched r c (mark r c st)).
Proof.
  intros HX. unfold loop_pass.
  destruct (np_argmax_spec (mjoin (pairwise_iou st))) as (k & v & -> & Hk).
  { intros Hnil%(f_equal length). rewrite (rect_length_join M N) in Hnil by done.
    simpl in Hnil. nia. }
  assert (k < M * N) as Hlt.
  { rewrite <- (rect_length_join M N (pairwise_iou st)) by done.
    destruct Hk as [Hk _]. by eapply lookup_lt_Some. }
  rewrite (rect_shape M N) by done. unfold unravel_index; simpl.
  assert (k = k / N * N + k mod N) as Hdm.
  { rewrite Nat.mul_comm. apply Nat.div_mod_eq. }
  assert (k mod N < N) by (apply Nat.mod_upper_bound; lia).
  assert (k / N < M) by (apply Nat.Div0.div_lt_upper_bound; lia).
  exists (k / N), (k mod N), v.
  assert (at2 (pairwise_iou st) (k / N) (k mod N) = Some v) as Hat.
  { rewrite <- (at2_join M N) by done. rewrite <- Hdm. by destruct Hk. }
  split_and!; [done..| by rewrite <- Hdm |].
  unfold entry. apply at2_Some in Hat as (row & -> & ->). simpl.
  by destruct (F.ltb _ _).
Qed.

Lemma pass_outcome t st :
  rect M N (pairwise_iou st) ->
  loop_pass t st = Done Break
  \/ exists r c, loop_pass t st = Done (Matched r c (mark r c st)).
Proof.
  intros (r & c & v & _ & _ & _ & _ & ->)%(loop_pass_spec t).
  destruct (F.ltb _ _); eauto.
Qed.

Lemma rect_mark r c st :
  rect M N (pairwise_iou st) -> rect M N (pairwise_iou (mark r c st)).
Proof. intros. by apply rect_set_col, rect_set_row. Qed.

(** Whatever the threshold, a match stays inside the array. *)
Lemma pass_shape_inv t st r c st' :
  shape_inv M N st ->
  loop_pass t st = Done (Matched r c st') ->
  st' = mark r c st /\ r < M /\ c < N /\ shape_inv M N st'.
Proof.
  intros (HX & Hr & Hc) Hpass.
  destruct (loop_pass_spec t st HX) as (r' & c' & v & ? & ? & _ & _ & Heq).
  rewrite Hpass in Heq. destruct (F.ltb _ _); [done|].
  assert (r' = r /\ c' = c /\ st' = mark r c st) as (-> & -> & ->).
  { injection Heq as -> -> ->. done. }
  split_and!; [done..|]. split_and!; simpl.
  - by apply rect_mark.
  - apply union_subseteq. split; [|done].
    apply singleton_subseteq_l, elem_of_set_seq. lia.
  - apply union_subseteq. split; [|done].
    apply singleton_subseteq_l, elem_of_set_seq. lia.
Qed.

(** Below an ordinary threshold lie the masked entries, so a match uses a
    fresh row and a fresh column. *)
Lemma pass_match_inv t st r c st' k :
  ordinary t ->
  match_inv M N st k ->
  loop_pass t st = Done (Matched r c st') ->
  st' = mark r c st /\ (r ∉ used_rows st) /\ (c ∉ used_cols st)
  /\ match_inv M N st' (S k).
Proof.
  intros Ht (Hsh & Hsr & Hsc & Hmask) Hpass.
  destruct (pass_shape_inv t st r c st' Hsh Hpass) as (-> & Hr & Hc & Hsh').
  destruct Hsh as (HX & _).
  destruct (loop_pass_spec t st HX) as (r' & c' & v & _ & _ & Hv & _ & Heq).
  rewrite Hpass in Heq. destruct (F.ltb (F.widen v) t) eqn:Hlt; [done|].
  assert (r' = r /\ c' = c) as [-> ->] by (by injection Heq). clear Heq.
  assert ((r ∉ used_rows st) /\ (c ∉ used_cols st)) as [Hnr Hnc].
  { split; intros Hin; rewrite (Hmask r c v) in Hlt by auto;
      simpl in Hlt; unfold ordinary in Ht; congruence. }
  split_and!; [done..|]. split_and!; simpl; [done|..].
  - rewrite size_union, size_singleton by set_solver. lia.
  - rewrite size_union, size_singleton by set_solver. lia.
  - intros i j x Hx Hij.
    apply at2_set_col in Hx as [[_ ->]|[Hj Hx]]; [done|].
    apply at2_set_row in Hx as [[_ ->]|[Hi Hx]]; [done|].
    apply (Hmask i j x Hx). set_solver.
Qed.

Lemma match_inv_bound st k : match_inv M N st k -> k <= M /\ k <= N.
Proof.
  intros ((_ & Hr & Hc) & <- & Hk & _). split.
  - apply subseteq_size in Hr. by rewrite size_set_seq in Hr.
  - rewrite <- Hk. apply subseteq_size in Hc. by rewrite size_set_seq in Hc.
Qed.
End Pass.

(** ** The loop as a whole *)

Lemma add_true_positive_add (a b : Z) (m : Metrics) :
  add_true_positive a (add_true_positive b m) = add_true_positive (b + a) m.
Proof. unfold add_true_positive; simpl. f_equal. lia. Qed.

Lemma add_true_positive_0 (m : Metrics) : add_true_positive 0 m = m.
Proof. destruct m; unfold add_true_positive; simpl. f_equal. lia. Qed.

Lemma run_match_loop t st tr st' :
  run t st tr st' ->
  loop_pass t st' = Done Break ->
  match_loop (S (length tr)) t st = Done st'.
Proof.
  induction 1 as [st|st r c st1 tr st2 Hpass _ IH]; intros Hbreak.
  - simpl. by rewrite Hbreak.
  - specialize (IH Hbreak). simpl in *. by rewrite Hpass.
Qed.

Lemma match_loop_run t fuel : forall st st',
  match_loop fuel t st = Done st' ->
  exists tr, run t st tr st' /\ loop_pass t st' = Done Break
             /\ (length tr < fuel)%nat.
Proof.
  induction fuel as [|fuel IH]; intros st st' Hloop; [done|].
  simpl in Hloop. destruct (loop_pass t st) as [[|r c st1]| |] eqn:Hpass;
    simpl in Hloop; try done.
  - injection Hloop as <-. exists []. split_and!; [constructor|done|simpl; lia].
  - destruct (IH _ _ Hloop) as (tr & Hrun & Hbreak & Hlen).
    exists ((r, c) :: tr). split_and!; [by econstructor|done|simpl; lia].
Qed.

Lemma match_loop_mono t fuel fuel' st st' :
  match_loop fuel t st = Done st' -> (fuel <= fuel')%nat ->
  match_loop fuel' t st = Done st'.
Proof.
  revert fuel' st. induction fuel as [|fuel IH]; intros fuel' st Hloop Hle; [done|].
  destruct fuel' as [|fuel']; [lia|]. simpl in *.
  destruct (loop_pass t st) as [[|r c st1]| |]; simpl in *; try done.
  apply IH; [done|lia].
Qed.

(** With no entry at all, [np.argmax] raises at the first pass. *)
Lemma match_loop_empty t fuel st :
  mjoin (pairwise_iou st) = [] ->
  match_loop (S fuel) t st = Raise ValueError.
Proof. intros Hnil. simpl. unfold loop_pass. by rewrite Hnil. Qed.

Section Loop.
Local Open Scope nat_scope.
Variables M N : nat.
Hypothesis HM : 0 < M.
Hypothesis HN : 0 < N.

Lemma run_shape_inv t st tr st' :
  shape_inv M N st -> run t st tr st' ->
  shape_inv M N st'
  /\ metrics st' = add_true_positive (Z.of_nat (length tr)) (metrics st).
Proof.
  intros Hinv Hrun. revert Hinv.
  induction Hrun as [st|st r c st1 tr st2 Hpass _ IH]; intros Hinv.
  - split; [done|]. by rewrite add_true_positive_0.
  - destruct (pass_shape_inv M N HM HN t st r c st1 Hinv Hpass)
      as (-> & _ & _ & Hinv1).
    destruct (IH Hinv1) as [? ->]. split; [done|]. simpl.
    rewrite add_true_positive_add. f_equal. lia.
Qed.

Lemma run_match_inv t st tr st' k :
  ordinary t -> match_inv M N st k -> run t st tr st' ->
  match_inv M N st' (k + length tr)
  /\ NoDup tr.*1 /\ NoDup tr.*2
  /\ used_rows st' = list_to_set tr.*1 ∪ used_rows st
  /\ used_cols st' = list_to_set tr.*2 ∪ used_cols st
  /\ (forall r, r ∈ tr.*1 -> r ∉ used_rows st)
  /\ (forall c, c ∈ tr.*2 -> c ∉ used_cols st).
Proof.
  intros Ht Hinv Hrun. revert k Hinv.
  induction Hrun as [st|st r c st1 tr st2 Hpass _ IH]; intros k Hinv.
  - simpl. rewrite Nat.add_0_r. split_and!; try done.
    + constructor.
    + constructor.
    + set_solver.
    + set_solver.
    + intros r Hr. by apply elem_of_nil in Hr.
    + intros r Hr. by apply elem_of_nil in Hr.
  - destruct (pass_match_inv M N HM HN t st r c st1 k Ht Hinv Hpass)
      as (-> & Hr & Hc & Hinv1).
    destruct (IH _ Hinv1) as (Hinv2 & Hnr & Hnc & Hur & Huc & Hfr & Hfc).
    simpl in *. split_and!.
    + by replace (k + S (length tr)) with (S k + length tr) by lia.
    + constructor; [|done]. intros Hin%Hfr. set_solver.
    + constructor; [|done]. intros Hin%Hfc. set_solver.
    + rewrite Hur. set_solver.
    + rewrite Huc. set_solver.
    + intros r' [->|Hin%Hfr]%elem_of_cons; [done|set_solver].
    + intros c' [->|Hin%Hfc]%elem_of_cons; [done|set_solver].
Qed.

Lemma match_inv_start X m : rect M N X -> match_inv M N (start X m) 0.
Proof.
  clear HM HN. intros HX. split; [split; [done|split; set_solver]|].
  split; [apply size_empty|]. split; [apply size_empty|].
  intros i j x _ [Hin|Hin]; set_solver.
Qed.

Lemma loop_terminates t n : ordinary t -> forall st k,
  match_inv M N st k -> min M N - k <= n ->
  exists tr st', run t st tr st' /\ loop_pass t st' = Done Break.
Proof.
  intros Ht. induction n as [|n IH]; intros st k Hinv Hn;
    (destruct (pass_outcome M N HM HN t st) as [Hb|(r & c & Hm)];
     [apply Hinv | by exists [], st; split; [constructor|] |]);
    destruct (pass_match_inv M N HM HN t st r c _ k Ht Hinv Hm)
      as (_ & _ & _ & Hinv1);
    pose proof (match_inv_bound M N _ _ Hinv1) as [? ?].
  - lia.
  - destruct (IH _ (S k) Hinv1) as (tr & st' & Hrun & Hb); [lia|].
    exists ((r, c) :: tr), st'. split; [by econstructor|done].
Qed.

(** The loop ends after at most [min M N] matches. *)
Lemma match_loop_ordinary t X m :
  ordinary t -> rect M N X ->
  exists tr st',
    length tr <= min M N
    /\ run t (start X m) tr st'
    /\ match_loop (S (length tr)) t (start X m) = Done st'
    /\ match_inv M N st' (length tr).
Proof.
  intros Ht HX.
  destruct (loop_terminates t (min M N) Ht (start X m) 0)
    as (tr & st' & Hrun & Hb); [by apply match_inv_start|lia|].
  destruct (run_match_inv t _ _ _ 0 Ht (match_inv_start X m HX) Hrun)
    as (Hinv & _).
  pose proof (match_inv_bound M N _ _ Hinv) as [? ?].
  exists tr, st'. split_and!; [lia|done|by apply run_match_loop|done].
Qed.

(** A threshold below which nothing lies (a NaN, or minus infinity)
    never stops the loop. *)
Lemma match_loop_forever t fuel : (forall x, F.ltb x t = false) ->
  forall st, rect M N (pairwise_iou st) -> match_loop fuel t st = Timeout.
Proof.
  intros Ht. induction fuel as [|fuel IH]; intros st HX; [done|].
  simpl. destruct (loop_pass_spec M N HM HN t st HX)
    as (r & c & v & _ & _ & _ & _ & ->).
  rewrite Ht. simpl. apply IH. by apply rect_mark.
Qed.
End Loop.

(** * The claims about the greedy matcher *)

(** C3, as amended.  For every array of shape [(M, N)] and every threshold
    that is neither a NaN nor minus infinity, the loop ends after at most
    [min M N] matching passes: with [k <= min M N] matches followed by the
    pass that breaks, it returns, and it has counted [k] true positives.
    (With [M = 0] or [N = 0] the first pass raises [ValueError].) *)
Theorem match_loop_terminates (M N : nat) (X : list (list F.float))
  (t : F.float) (m : Metrics) :
  rect M N X -> ordinary t ->
  exists k : nat, (k <= min M N)%nat /\
    (((0 < M)%nat /\ (0 < N)%nat /\
       (exists st', match_loop (S k) t (start X m) = Done st'
                    /\ true_positive (metrics st') = true_positive m + Z.of_nat k))
     \/ ((M = 0 \/ N = 0)%nat
         /\ match_loop (S k) t (start X m) = Raise ValueError)).
Proof.
  intros HX Ht.
  destruct (decide (0 < M)%nat) as [HM|HM], (decide (0 < N)%nat) as [HN|HN].
  - destruct (match_loop_ordinary M N HM HN t X m Ht HX)
      as (tr & st' & Hlen & Hrun & Hloop & Hinv).
    exists (length tr). split; [done|]. left. split_and!; [done..|].
    exists st'. split; [done|].
    destruct (run_shape_inv M N HM HN t _ _ _ (proj1 (match_inv_start M N X m HX)) Hrun)
      as [_ ->].
    simpl. done.
  - exists 0%nat. split; [lia|]. right. split; [lia|].
    apply match_loop_empty. simpl. apply nil_length_inv.
    rewrite (rect_length_join M N) by done. nia.
  - exists 0%nat. split; [lia|]. right. split; [lia|].
    apply match_loop_empty. simpl. apply nil_length_inv.
    rewrite (rect_length_join M N) by done. nia.
  - exists 0%nat. split; [lia|]. right. split; [lia|].
    apply match_loop_empty. simpl. apply nil_length_inv.
    rewrite (rect_length_join M N) by done. nia.
Qed.

Lemma rect_1_1 {A} (x : A) : rect 1 1 [[x]].
Proof. split; [done|]. by repeat constructor. Qed.


Lemma match_loop_terminates_witness :
  exists k : nat, (k <= min 1 1)%nat /\
    (((0 < 1)%nat /\ (0 < 1)%nat /\
       (exists st', match_loop (S k) F.half (start [[F.one32]] no_metrics) = Done st'
                    /\ true_positive (metrics st') = true_positive no_metrics + Z.of_nat k))
     \/ ((1 = 0 \/ 1 = 0)%nat
         /\ match_loop (S k) F.half (start [[F.one32]] no_metrics) = Raise ValueError)).
Proof.
  apply (match_loop_terminates 1 1 [[F.one32]] F.half no_metrics).
  - apply rect_1_1.
  - reflexivity.
Defined.

(** C3 as stated fails: with the threshold NaN (as with minus infinity) the
    comparison [max_iou < t] is never true, and the loop on a 1 x 1 array
    never returns. *)
Lemma match_loop_nan_threshold_diverges :
  ~ exists fuel st',
      match_loop fuel F.nan (start [[F.one32]] no_metrics) = Done st'.
Proof.
  intros (fuel & st' & Hloop).
  rewrite (match_loop_forever 1 1) in Hloop; [done|lia|lia| |apply rect_1_1].
  intros x. unfold F.ltb, SFltb. by destruct x as [|[]| |].
Qed.

(** C4, as amended.  For a group with [M > 0] ground-truth boxes and
    [N > 0] predictions and a threshold that is neither a NaN nor minus
    infinity: however far the loop has run, the rows it matched are
    pairwise distinct and so are the columns, and they are the members of
    [used_rows] and [used_cols]; the loop ends, and then [used_rows] and
    [used_cols] have the same size, the number of true positives added. *)
Theorem matches_distinct (M N : nat) (X : list (list F.float))
  (t : F.float) (m : Metrics) :
  (0 < M)%nat -> (0 < N)%nat -> rect M N X -> ordinary t ->
  (forall tr st', run t (start X m) tr st' ->
     NoDup tr.*1 /\ NoDup tr.*2
     /\ used_rows st' = list_to_set tr.*1
     /\ used_cols st' = list_to_set tr.*2)
  /\ exists st', match_loop (S (min M N)) t (start X m) = Done st'
       /\ size (used_rows st') = size (used_cols st')
       /\ true_positive (metrics st')
          = true_positive m + Z.of_nat (size (used_rows st')).
Proof.
  intros HM HN HX Ht. split.
  - intros tr st' Hrun.
    destruct (run_match_inv M N HM HN t _ _ _ 0%nat Ht (match_inv_start M N X m HX) Hrun)
      as (_ & Hr & Hc & Hur & Huc & _).
    simpl in Hur, Huc. split_and!; [done..| |].
    + rewrite Hur. set_solver.
    + rewrite Huc. set_solver.
  - destruct (match_loop_ordinary M N HM HN t X m Ht HX)
      as (tr & st' & Hlen & Hrun & Hloop & (_ & Hsr & Hsc & _)).
    exists st'. split_and!.
    + eapply match_loop_mono; [done|lia].
    + congruence.
    + destruct (run_shape_inv M N HM HN t _ _ _
                  (proj1 (match_inv_start M N X m HX)) Hrun) as [_ ->].
      simpl. by rewrite Hsr.
Qed.

Lemma matches_distinct_witness :
  (forall tr st', run F.half (start [[F.one32]] no_metrics) tr st' ->
     NoDup tr.*1 /\ NoDup tr.*2
     /\ used_rows st' = list_to_set tr.*1
     /\ used_cols st' = list_to_set tr.*2)
  /\ exists st', match_loop (S (min 1 1)) F.half (start [[F.one32]] no_metrics) = Done st'
       /\ size (used_rows st') = size (used_cols st')
       /\ true_positive (metrics st')
          = true_positive no_metrics + Z.of_nat (size (used_rows st')).
Proof.
  apply (matches_distinct 1 1 [[F.one32]] F.half no_metrics).
  - lia.
  - lia.
  - apply rect_1_1.
  - reflexivity.
Defined.

(** C4 as stated fails for the threshold NaN: on a 1 x 1 array the loop
    matches row 0 and column 0 a second time, after which [used_rows] has
    one member and two true positives are counted. *)
Lemma nan_threshold_matches_twice :
  exists st', run F.nan (start [[F.one32]] no_metrics) [(0, 0); (0, 0)]%nat st'
    /\ size (used_rows st') = 1%nat
    /\ true_positive (metrics st') = 2.
Proof.
  eexists. split; [|split].
  - eapply run_cons; [reflexivity|].
    eapply run_cons; [reflexivity|]. apply run_nil.
  - vm_compute. reflexivity.
  - reflexivity.
Qed.

(** C8.  On an array of shape [(M, N)] without NaN, the pass of the loop
    looks at an entry [(r, c)] that is a largest entry of the array, and
    every entry before it in row-major order (an earlier row, or the same
    row and an earlier column) is strictly smaller: among equal maxima the
    first in scan order is selected.  The pass breaks or matches exactly
    this pair, so the sequence of matches is a function of the array and
    the threshold. *)
Theorem argmax_first_in_row_major (M N : nat) (t : F.float) (st : MatchState) :
  (0 < M)%nat -> (0 < N)%nat -> rect M N (pairwise_iou st) ->
  (forall i j x, at2 (pairwise_iou st) i j = Some x -> F.is_nan x = false) ->
  exists r c v,
    at2 (pairwise_iou st) r c = Some v
    /\ (forall i j x, at2 (pairwise_iou st) i j = Some x -> F.leb x v = true)
    /\ (forall i j x, at2 (pairwise_iou st) i j = Some x ->
          (i < r \/ (i = r /\ j < c))%nat -> F.ltb x v = true)
    /\ loop_pass t st =
         Done (if F.ltb (F.widen v) t then Break else Matched r c (mark r c st)).
Proof.
  intros HM HN HX Hnan.
  destruct (loop_pass_spec M N HM HN t st HX)
    as (r & c & v & Hr & Hc & Hv & (_ & Hmax & Hfirst) & Hpass).
  exists r, c, v. split_and!; [done| | |done].
  - intros i j x Hx. destruct (at2_lt M N _ _ _ _ HX Hx) as [Hi Hj].
    apply (Hmax (Hnan _ _ _ Hv) (i * N + j)%nat). by rewrite (at2_join M N).
  - intros i j x Hx Hlt. destruct (at2_lt M N _ _ _ _ HX Hx) as [Hi Hj].
    apply (Hfirst (i * N + j)%nat); [nia| |by eapply Hnan].
    by rewrite (at2_join M N).
Qed.

Lemma rect_2_2 {A} (a b c d : A) : rect 2 2 [[a; b]; [c; d]].
Proof. split; [done|]. by repeat constructor. Qed.

Lemma argmax_first_in_row_major_witness :
  let st := start [[F.half32; F.one32]; [F.one32; F.one32]] no_metrics in
  exists r c v,
    at2 (pairwise_iou st) r c = Some v
    /\ (forall i j x, at2 (pairwise_iou st) i j = Some x -> F.leb x v = true)
    /\ (forall i j x, at2 (pairwise_iou st) i j = Some x ->
          (i < r \/ (i = r /\ j < c))%nat -> F.ltb x v = true)
    /\ loop_pass F.half st =
         Done (if F.ltb (F.widen v) F.half then Break else Matched r c (mark r c st)).
Proof.
  intros st.
  apply (argmax_first_in_row_major 2 2 F.half st).
  - lia.
  - lia.
  - apply rect_2_2.
  - intros [|[|i]] [|[|j]] x Hx; vm_compute in Hx; try discriminate;
      injection Hx as <-; reflexivity.
Defined.

(** The tie of the three entries equal to 1.0 goes to row 0, column 1. *)
Example tie_break_example :
  loop_pass F.half (start [[F.half32; F.one32]; [F.one32; F.one32]] no_metrics)
  = Done (Matched 0 1
      (mark 0 1 (start [[F.half32; F.one32]; [F.one32; F.one32]] no_metrics))).
Proof. reflexivity. Qed.

(** * The claims about the accounting of one group *)

Lemma unmatched_size (n : nat) (used : gset nat) :
  used ⊆ set_seq 0 n ->
  unmatched n used = Z.of_nat n - Z.of_nat (size used).
Proof.
  intros Hsub. unfold unmatched. rewrite size_difference by done.
  rewrite size_set_seq. apply subseteq_size in Hsub.
  rewrite size_set_seq in Hsub. lia.
Qed.




(** ** Groups that lack predictions, and groups that lack ground truth *)

Lemma elem_of_insert_key (k k' : key) (ks : list key) :
  k' ∈ insert_key k ks -> k' = k \/ k' ∈ ks.
Proof.
  induction ks as [|k0 ks IH]; simpl.
  - intros ->%list_elem_of_singleton. by left.
  - destruct (decide (k = k0)) as [->|Hne]; [by right|].
    destruct (key_ltb k k0).
    + intros [->|Hin]%elem_of_cons; [by left|by right].
    + intros [->|Hin]%elem_of_cons; [right; left|].
      destruct (IH Hin) as [->|?]; [by left|right; by right].
Qed.

Lemma elem_of_sorted_keys (k : key) (ks : list key) :
  k ∈ foldr insert_key [] ks -> k ∈ ks.
Proof.
  induction ks as [|k0 ks IH]; simpl; [done|].
  intros [->|Hin]%elem_of_insert_key; [left|right; auto].
Qed.

Lemma elem_of_groupby_keys (k : key) (df : list Detection) :
  k ∈ groupby_keys df -> k ∈ map key_of df.
Proof.
  unfold groupby_keys. intros Hk%elem_of_sorted_keys.
  by apply list_elem_of_filter in Hk as [_ Hk].
Qed.

Lemma groupby_keys_present (k : key) (df : list Detection) :
  k ∈ groupby_keys df -> present k.
Proof.
  unfold groupby_keys. intros Hk%elem_of_sorted_keys.
  by apply list_elem_of_filter in Hk as [Hk _].
Qed.

Lemma rows_of_present (k : key) (df : list Detection) :
  present k -> rows_of k df = filter (fun d => key_of d = k) df.
Proof.
  intros Hk. unfold rows_of. apply list_filter_iff. intros d. tauto.
Qed.

Lemma rows_of_filter (k : key) (P : Detection -> Prop)
  `{!forall d, Decision (P d)} (df : list Detection) :
  (forall d, key_of d = k -> P d) -> rows_of k (filter P df) = rows_of k df.
Proof.
  intros HP. unfold rows_of. induction df as [|d df IH]; [done|].
  rewrite (filter_cons P d df).
  rewrite (filter_cons (fun d => key_of d = k /\ present k) d df).
  destruct (decide (P d)) as [Hd|Hd].
  - rewrite (filter_cons (fun d => key_of d = k /\ present k) d (filter P df)).
    destruct (decide (key_of d = k /\ present k)); by rewrite IH.
  - destruct (decide (key_of d = k /\ present k)) as [[Hk _]|Hk];
      [by destruct Hd; auto|done].
Qed.

Lemma fold_left_ext_in {A B} (f g : A -> B -> A) (l : list B) (a : A) :
  (forall b a', b ∈ l -> f a' b = g a' b) -> fold_left f l a = fold_left g l a.
Proof.
  revert a. induction l as [|b l IH]; intros a Hfg; [done|]. simpl.
  rewrite Hfg by left. apply IH. intros b' a' Hb'. apply Hfg. by right.
Qed.

(** The half of C1 that the code does, and why the other half fails.  A
    group with ground truth and no predictions adds the number of its
    ground-truth boxes to [total_true] and to [false_negative] and nothing
    else, and neither builds the matrix nor runs the matching loop (no
    pass is needed: any [fuel] will do).  But the groups are those of the
    ground truth alone: predictions whose (image, label) has no
    ground-truth row are never looked at, and the counters are the same
    with and without them. *)
Theorem empty_side_groups (fuel : nat) (t : F.float) :
  (forall true_df m, true_df <> [] ->
     process_group fuel t true_df [] m
     = Done {| matched_rows := ∅; matched_cols := ∅;
               group_metrics :=
                 {| total_true := total_true m + len true_df;
                    total_pred := total_pred m;
                    true_positive := true_positive m;
                    false_negative := false_negative m + len true_df;
                    false_positive := false_positive m |} |})
  /\ (forall ground_truth detection_results,
        accumulate fuel t ground_truth detection_results
        = accumulate fuel t ground_truth
            (filter (fun d => key_of d ∈ map key_of ground_truth)
                    detection_results)).
Proof.
  split.
  - intros true_df m Hne. unfold process_group.
    rewrite (bool_decide_eq_true_2 (0 < len true_df)).
    2: { destruct true_df; [done|]. unfold len. simpl. lia. }
    simpl. unfold add_false_negative, add_totals, len; simpl.
    do 3 f_equal. lia.
  - intros ground_truth detection_results. unfold accumulate.
    apply fold_left_ext_in. intros k acc Hk%elem_of_groupby_keys.
    unfold accumulate_group. rewrite rows_of_filter; [done|].
    by intros d ->.
Qed.

Lemma empty_side_groups_witness :
  process_group 0 F.half [dog_truth] [] no_metrics
  = Done {| matched_rows := ∅; matched_cols := ∅;
            group_metrics :=
              {| total_true := total_true no_metrics + len [dog_truth];
                 total_pred := total_pred no_metrics;
                 true_positive := true_positive no_metrics;
                 false_negative := false_negative no_metrics + len [dog_truth];
                 false_positive := false_positive no_metrics |} |}.
Proof.
  apply (proj1 (empty_side_groups 0 F.half) [dog_truth] no_metrics).
  discriminate.
Defined.

(** C1.  The code at the input on which it departs from the claim: a dog
    in the ground truth of image [a], a dog predicted in image [b].  The
    group (b, dog) has a prediction and no ground truth, and its
    prediction should be a false positive; the loop of line 61 goes
    through the groups of the ground truth only, so the prediction is
    counted nowhere: [total_pred] and [false_positive] of the label stay
    0.  (With a ground-truth dog in image [b] lines 65 and 97 would have
    counted it.) *)
Lemma prediction_without_truth_uncounted :
  accumulate 1 F.half [dog_truth] [dog_pred_elsewhere]
  = Done [(Text "dog",
           {| total_true := 1; total_pred := 0; true_positive := 0;
              false_negative := 1; false_positive := 0 |})].
Proof. reflexivity. Qed.

(** * The final ratios *)

Lemma int_truediv_outcome (a b : Z) :
  (b = 0 /\ int_truediv a b = Raise ZeroDivisionError)
  \/ (b <> 0 /\ int_truediv a b = Done (F.div64 (exact_int a) (exact_int b))).
Proof. unfold int_truediv. destruct (decide (b = 0)); auto. Qed.

Lemma float_truediv_outcome (x y : F.float) :
  ((exists s, y = S754_zero s) /\ float_truediv x y = Raise ZeroDivisionError)
  \/ ((forall s, y <> S754_zero s) /\ float_truediv x y = Done (F.div64 x y)).
Proof. destruct y; simpl; eauto. Qed.

Lemma label_scores_outcome (m : Metrics) :
  label_scores m = Raise ZeroDivisionError \/ exists s, label_scores m = Done s.
Proof.
  unfold label_scores.
  destruct (int_truediv_outcome (true_positive m)
              (true_positive m + false_positive m)) as [[_ ->]|[_ ->]]; [by left|].
  destruct (int_truediv_outcome (true_positive m)
              (true_positive m + false_negative m)) as [[_ ->]|[_ ->]]; [by left|].
  simpl.
  match goal with
  | |- context [float_truediv ?x ?y] =>
      destruct (float_truediv_outcome x y) as [[_ ->]|[_ ->]]
  end; simpl; eauto.
Qed.

Lemma exact_int_div_zero (b : Z) :
  b <> 0 -> exists s, F.div64 (exact_int 0) (exact_int b) = S754_zero s.
Proof. destruct b; [done|..]; simpl; eauto. Qed.

(** C2.  The three divisions are unguarded.  The ratios of a label raise
    [ZeroDivisionError] exactly when [true_positive + false_positive] is 0,
    or [true_positive + false_negative] is 0, or both quotients exist and
    [precision + recall] is zero; so they do whenever there is no true
    positive (as with 0 true positives, 1 false negative and 1 false
    positive); and one such label makes the final loop over all labels
    raise instead of returning. *)
Theorem unguarded_divisions (m : Metrics) :
  (label_scores m = Raise ZeroDivisionError <->
     true_positive m + false_positive m = 0
     \/ true_positive m + false_negative m = 0
     \/ exists p r s,
          int_truediv (true_positive m) (true_positive m + false_positive m) = Done p
          /\ int_truediv (true_positive m) (true_positive m + false_negative m) = Done r
          /\ F.add64 p r = S754_zero s)
  /\ (true_positive m = 0 -> label_scores m = Raise ZeroDivisionError)
  /\ (forall acc l, (l, m) ∈ acc ->
        label_scores m = Raise ZeroDivisionError ->
        report acc = Raise ZeroDivisionError).
Proof.
  assert (label_scores m = Raise ZeroDivisionError <->
     true_positive m + false_positive m = 0
     \/ true_positive m + false_negative m = 0
     \/ exists p r s,
          int_truediv (true_positive m) (true_positive m + false_positive m) = Done p
          /\ int_truediv (true_positive m) (true_positive m + false_negative m) = Done r
          /\ F.add64 p r = S754_zero s) as Hiff.
  { unfold label_scores.
    destruct (int_truediv_outcome (true_positive m)
                (true_positive m + false_positive m)) as [[Hp ->]|[Hp ->]].
    { split; auto. }
    destruct (int_truediv_outcome (true_positive m)
                (true_positive m + false_negative m)) as [[Hr ->]|[Hr ->]].
    { split; auto. }
    simpl.
    match goal with
    | |- context [float_truediv ?x ?y] =>
        destruct (float_truediv_outcome x y) as [[[s Hs] ->]|[Hs ->]]
    end; simpl.
    - split; [|done]. intros _. right; right.
      do 3 eexists. split; [reflexivity|]. split; [reflexivity|exact Hs].
    - split; [done|]. intros [?|[?|(p & r & s & [= <-] & [= <-] & Hz)]]; try done.
      by destruct (Hs s). }
  split; [done|]. split.
  - intros Htp. apply Hiff.
    destruct (decide (true_positive m + false_positive m = 0)) as [|Hp]; [auto|].
    destruct (decide (true_positive m + false_negative m = 0)) as [|Hr]; [auto|].
    right; right. unfold int_truediv. rewrite !decide_False by done.
    rewrite Htp in *.
    destruct (exact_int_div_zero _ Hp) as [sp ->].
    destruct (exact_int_div_zero _ Hr) as [sr ->].
    exists (S754_zero sp), (S754_zero sr). destruct sp, sr; simpl; eauto.
  - intros acc l Hin Hm. induction acc as [|[l' m'] acc IH].
    + by apply elem_of_nil in Hin.
    + simpl. apply elem_of_cons in Hin as [[= <- <-]|Hin].
      * by rewrite Hm.
      * destruct (label_scores_outcome m') as [->|[s ->]]; [done|].
        simpl. by rewrite IH.
Qed.

(** Scenario B: 0 true positives, 1 false negative, 1 false positive. *)
Lemma unguarded_divisions_witness :
  label_scores {| total_true := 1; total_pred := 1; true_positive := 0;
                  false_negative := 1; false_positive := 1 |}
  = Raise ZeroDivisionError.
Proof.
  apply (proj1 (proj2 (unguarded_divisions
    {| total_true := 1; total_pred := 1; true_positive := 0;
       false_negative := 1; false_positive := 1 |}))).
  reflexivity.
Defined.

Example scenario_B :
  main 2 F.half [dog_truth] [dog_pred] = Raise ZeroDivisionError.
Proof. reflexivity. Qed.

Example scenario_A :
  main 2 F.half [cat_truth] [cat_pred]
  = Done [(Text "cat",
           {| precision := F.one; recall := F.one; f1_score := F.one |})].
Proof. reflexivity. Qed.

(** * The sign of the entries, and the threshold 0 *)

Lemma binary_round_aux_sign prec emax s m e l :
  has_sign s (binary_round_aux prec emax s m e l).
Proof.
  unfold binary_round_aux.
  destruct (shr_fexp prec emax m e l) as [mrs' e'].
  destruct (shr_fexp prec emax _ e' loc_Exact) as [mrs'' e''].
  destruct (shr_m mrs''); simpl; [done| |done].
  destruct (e'' <=? emax - prec); done.
Qed.

Lemma binary_round_sign prec emax s m e :
  has_sign s (binary_round prec emax s m e).
Proof.
  unfold binary_round. destruct (shl_align _ _ _). apply binary_round_aux_sign.
Qed.

Lemma has_sign_not_negative x : has_sign false x -> not_negative x = true.
Proof. destruct x; simpl; by intros; subst. Qed.

Lemma not_negative_to_f32 x : not_negative x = true -> not_negative (F.to_f32 x) = true.
Proof.
  destruct x as [| | |[] m e]; simpl; try done. intros _.
  apply has_sign_not_negative, binary_round_sign.
Qed.

Lemma not_negative_widen x : not_negative x = true -> not_negative (F.widen x) = true.
Proof.
  destruct x as [| | |[] m e]; simpl; try done. intros _.
  apply has_sign_not_negative, binary_round_sign.
Qed.

Lemma not_negative_maximum_zero x : not_negative (F.maximum x F.zero) = true.
Proof. destruct x as [[]|[]| |[] m e]; reflexivity. Qed.

Lemma not_negative_minimum_one x :
  not_negative x = true -> not_negative (F.minimum x F.one) = true.
Proof.
  unfold F.minimum. destruct (F.is_nan x); [done|]. simpl.
  by destruct (F.ltb x F.one).
Qed.

Lemma not_negative_clip x : not_negative (F.clip x F.zero F.one) = true.
Proof. apply not_negative_minimum_one, not_negative_maximum_zero. Qed.

Lemma not_negative_iou_pair a b : not_negative (iou_pair a b) = true.
Proof. apply not_negative_to_f32, not_negative_clip. Qed.

Lemma not_negative_not_below_zero x s :
  not_negative x = true -> F.ltb (F.widen x) (S754_zero s) = false.
Proof.
  intros Hx%not_negative_widen.
  destruct (F.widen x) as [[]|[]| |[] m e], s; done.
Qed.

Lemma not_negative_leb x v :
  F.leb x v = true -> not_negative x = true -> not_negative v = true.
Proof. destruct x as [[]|[]| |[] ? ?], v as [[]|[]| |[] ? ?]; done. Qed.

Lemma ordinary_zero s : ordinary (S754_zero s).
Proof. reflexivity. Qed.

Section ZeroThreshold.
Local Open Scope nat_scope.
Variables M N : nat.
Hypothesis HM : 0 < M.
Hypothesis HN : 0 < N.
Variable s : bool.

Lemma unused_index (n k : nat) (used : gset nat) :
  used ⊆ set_seq 0 n -> size used = k -> k < n ->
  exists i, i < n /\ i ∉ used.
Proof.
  intros Hsub Hsize Hlt.
  destruct (size_pos_elem_of (set_seq 0 n ∖ used : gset nat)) as [i Hi].
  { rewrite size_difference, size_set_seq by done. lia. }
  exists i. apply elem_of_difference in Hi as [Hi%elem_of_set_seq ?].
  split; [lia|done].
Qed.

Lemma zero_pass_matches st k :
  zero_inv M N st k -> k < min M N ->
  exists r c, loop_pass (S754_zero s) st = Done (Matched r c (mark r c st))
              /\ zero_inv M N (mark r c st) (S k).
Proof.
  intros [Hinv Hpos] Hk.
  pose proof Hinv as ((HX & Hr & Hc) & Hsr & Hsc & _).
  destruct (unused_index M k (used_rows st)) as (i & Hi & Hni); [done|done|lia|].
  destruct (unused_index N k (used_cols st)) as (j & Hj & Hnj); [done|done|lia|].
  destruct (at2_is_Some M N _ i j HX Hi Hj) as [x Hx].
  destruct (loop_pass_spec M N HM HN (S754_zero s) st HX)
    as (r & c & v & _ & _ & Hv & (_ & Hmax & _) & Hpass).
  assert (not_negative v = true) as Hnn.
  { destruct (F.is_nan v) eqn:Hnan; [by destruct v|].
    apply (not_negative_leb x v); [|by apply (Hpos i j)].
    apply (Hmax eq_refl (i * N + j)). by rewrite (at2_join M N). }
  rewrite (not_negative_not_below_zero v s Hnn) in Hpass.
  exists r, c. split; [done|].
  destruct (pass_match_inv M N HM HN _ st r c _ k (ordinary_zero s) Hinv Hpass)
    as (_ & _ & _ & Hinv').
  split; [done|]. simpl. intros i' j' x' Hx' Hi' Hj'.
  apply at2_set_col in Hx' as [[-> _]|[_ Hx']]; [set_solver|].
  apply at2_set_row in Hx' as [[-> _]|[_ Hx']]; [set_solver|].
  apply (Hpos i' j' x' Hx'); set_solver.
Qed.

Lemma zero_threshold_run n : forall st k,
  zero_inv M N st k -> k + n = min M N ->
  exists tr st', length tr = n /\ run (S754_zero s) st tr st'
                 /\ loop_pass (S754_zero s) st' = Done Break.
Proof.
  induction n as [|n IH]; intros st k Hinv Hk.
  - exists [], st. split; [done|]. split; [constructor|].
    destruct (pass_outcome M N HM HN (S754_zero s) st) as [Hb|(r & c & Hm)];
      [apply Hinv|done|].
    destruct (pass_match_inv M N HM HN _ st r c _ k (ordinary_zero s) (proj1 Hinv) Hm)
      as (_ & _ & _ & Hinv1).
    pose proof (match_inv_bound M N _ _ Hinv1). lia.
  - destruct (zero_pass_matches st k Hinv) as (r & c & Hpass & Hinv1); [lia|].
    destruct (IH _ (S k) Hinv1) as (tr & st' & Hlen & Hrun & Hb); [lia|].
    exists ((r, c) :: tr), st'. split; [simpl; lia|]. split; [by econstructor|done].
Qed.
End ZeroThreshold.

Lemma compute_iou_not_negative (boxes1 boxes2 : list Box) (i j : nat) x :
  at2 (compute_iou boxes1 boxes2) i j = Some x -> not_negative x = true.
Proof.
  intros Hx.
  destruct (at2_lt _ _ _ _ _ _ (compute_iou_rect boxes1 boxes2) Hx) as [Hi Hj].
  destruct (lookup_lt_is_Some_2 boxes1 i Hi) as [a Ha].
  destruct (lookup_lt_is_Some_2 boxes2 j Hj) as [b Hb].
  rewrite (compute_iou_entry _ _ _ _ _ _ Ha Hb) in Hx. injection Hx as <-.
  apply not_negative_iou_pair.
Qed.

(** C7.  For a group with [M > 0] ground-truth boxes and [N > 0]
    predictions and the threshold 0 (of either sign), the loop ends after
    exactly [min M N] matches: that many true positives are added and
    that many rows and columns are used, whatever the boxes, so also
    when every IoU is 0. *)
Theorem zero_threshold_matches_all (sgn : bool)
  (true_df pred_df : list Detection) (m : Metrics) :
  true_df <> [] -> pred_df <> [] ->
  exists g,
    process_group (S (min (length true_df) (length pred_df))) (S754_zero sgn)
      true_df pred_df m = Done g
    /\ true_positive (group_metrics g)
       = true_positive m + Z.of_nat (min (length true_df) (length pred_df))
    /\ size (matched_rows g) = min (length true_df) (length pred_df)
    /\ size (matched_cols g) = min (length true_df) (length pred_df).
Proof.
  intros Ht Hp.
  assert (0 < length true_df)%nat as HM by (destruct true_df; [done|simpl; lia]).
  assert (0 < length pred_df)%nat as HN by (destruct pred_df; [done|simpl; lia]).
  unfold process_group.
  rewrite (bool_decide_eq_false_2 (len pred_df = 0)) by (unfold len; lia).
  rewrite andb_false_r.
  pose proof (compute_iou_rect (map box true_df) (map box pred_df)) as HX.
  rewrite !length_map in HX.
  set (m1 := add_totals (len true_df) (len pred_df) m).
  set (X := compute_iou (map box true_df) (map box pred_df)) in *.
  assert (zero_inv (length true_df) (length pred_df) (start X m1) 0) as Hinv.
  { split; [by apply match_inv_start|].
    intros i j x Hx _ _. exact (compute_iou_not_negative _ _ i j x Hx). }
  destruct (zero_threshold_run _ _ HM HN sgn
              (min (length true_df) (length pred_df)) _ 0%nat Hinv eq_refl)
    as (tr & st' & Hlen & Hrun & Hb).
  pose proof (run_match_loop _ _ _ _ Hrun Hb) as Hloop. rewrite Hlen in Hloop.
  rewrite Hloop. simpl.
  destruct (run_match_inv _ _ HM HN _ _ _ _ 0%nat (ordinary_zero sgn) (proj1 Hinv) Hrun)
    as ((_ & Hsr & Hsc & _) & _).
  destruct (run_shape_inv _ _ HM HN _ _ _ _ (proj1 (proj1 Hinv)) Hrun) as [_ Hm].
  eexists. split; [reflexivity|]. simpl. rewrite Hm, Hsr, Hsc, Hlen. simpl.
  split_and!; [|done..]. subst m1. simpl. done.
Qed.

(** Scenario B with the threshold 0: the two disjoint boxes (IoU 0) are
    matched. *)
Lemma zero_threshold_matches_all_witness :
  exists g,
    process_group (S (min (length [dog_truth]) (length [dog_pred]))) (S754_zero false)
      [dog_truth] [dog_pred] no_metrics = Done g
    /\ true_positive (group_metrics g)
       = true_positive no_metrics
         + Z.of_nat (min (length [dog_truth]) (length [dog_pred]))
    /\ size (matched_rows g) = min (length [dog_truth]) (length [dog_pred])
    /\ size (matched_cols g) = min (length [dog_truth]) (length [dog_pred]).
Proof.
  apply (zero_threshold_matches_all false [dog_truth] [dog_pred] no_metrics).
  - discriminate.
  - discriminate.
Defined.

Example disjoint_boxes_matched_at_zero :
  accumulate 2 F.zero [dog_truth] [dog_pred]
  = Done [(Text "dog",
           {| total_true := 1; total_pred := 1; true_positive := 1;
              false_negative := 0; false_positive := 0 |})].
Proof. reflexivity. Qed.

(** * Rounding to a binary format *)

(** ** Number of binary digits *)

Lemma digits2_pos_bounds (p : positive) :
  2 ^ (Z.pos (digits2_pos p) - 1) <= Z.pos p < 2 ^ Z.pos (digits2_pos p).
Proof.
  induction p as [p IH|p IH|]; simpl digits2_pos.
  - rewrite Pos2Z.inj_succ. replace (Z.succ (Z.pos (digits2_pos p)) - 1)
      with (Z.succ (Z.pos (digits2_pos p) - 1)) by lia.
    rewrite !Z.pow_succ_r by lia. lia.
  - rewrite Pos2Z.inj_succ. replace (Z.succ (Z.pos (digits2_pos p)) - 1)
      with (Z.succ (Z.pos (digits2_pos p) - 1)) by lia.
    rewrite !Z.pow_succ_r by lia. lia.
  - simpl. lia.
Qed.

Lemma Zdigits2_nonneg (m : Z) : 0 <= Zdigits2 m.
Proof. destruct m; simpl; lia. Qed.

Lemma Zdigits2_bounds (m : Z) :
  0 < m -> 2 ^ (Zdigits2 m - 1) <= m < 2 ^ Zdigits2 m.
Proof. destruct m; try lia. intros _. apply digits2_pos_bounds. Qed.

Lemma Zdigits2_lt (m : Z) : 0 <= m -> m < 2 ^ Zdigits2 m.
Proof.
  intros Hm. destruct (decide (m = 0)) as [->|Hne]; [done|].
  apply Zdigits2_bounds. lia.
Qed.

Lemma Zdigits2_le (m k : Z) : 0 <= k -> 0 <= m < 2 ^ k -> Zdigits2 m <= k.
Proof.
  intros Hk [Hm Hlt]. destruct (decide (m = 0)) as [->|Hne]; [done|].
  destruct (Zdigits2_bounds m) as [Hlo _]; [lia|].
  destruct (decide (Zdigits2 m <= k)) as [|Hgt]; [done|].
  assert (2 ^ k <= 2 ^ (Zdigits2 m - 1)) by (apply Z.pow_le_mono_r; lia). lia.
Qed.

Lemma Zdigits2_ge (m k : Z) : 0 <= k -> 2 ^ k <= m -> k < Zdigits2 m.
Proof.
  intros Hk Hle. assert (0 < m) by (pose proof (Z.pow_pos_nonneg 2 k); lia).
  destruct (Zdigits2_bounds m) as [_ Hhi]; [done|].
  destruct (decide (k < Zdigits2 m)) as [|Hge]; [done|].
  assert (2 ^ Zdigits2 m <= 2 ^ k) by (apply Z.pow_le_mono_r; lia). lia.
Qed.

(** ** Shifting right *)

Lemma shr_1_m (mrs : shr_record) :
  0 <= shr_m mrs -> shr_m (shr_1 mrs) = shr_m mrs / 2.
Proof.
  destruct mrs as [m r s]. simpl. intros Hm.
  destruct m as [|[p|p|]|p]; simpl; try lia.
  - reflexivity.
  - apply Z.div_unique with 1; lia.
  - apply Z.div_unique with 0; lia.
  - reflexivity.
Qed.

Lemma iter_shr_1_m (p : positive) : forall mrs,
  0 <= shr_m mrs ->
  shr_m (SpecFloat.iter_pos shr_1 p mrs) = shr_m mrs / 2 ^ Z.pos p.
Proof.
  induction p as [p IH|p IH|]; intros mrs Hm; simpl SpecFloat.iter_pos.
  - pose proof (Z.pow_pos_nonneg 2 (Z.pos p)) as Hpos.
    assert (0 <= shr_m (shr_1 mrs)) as H1.
    { rewrite shr_1_m by done. apply Z.div_pos; lia. }
    assert (0 <= shr_m (SpecFloat.iter_pos shr_1 p (shr_1 mrs))) as H2.
    { rewrite IH by done. apply Z.div_pos; lia. }
    rewrite IH, IH, shr_1_m by done.
    rewrite !Z.div_div by lia. f_equal.
    replace (Z.pos p~1) with (Z.pos p + Z.pos p + 1) by lia.
    rewrite !Z.pow_add_r by lia. change (2 ^ 1) with 2. lia.
  - pose proof (Z.pow_pos_nonneg 2 (Z.pos p)) as Hpos.
    assert (0 <= shr_m (SpecFloat.iter_pos shr_1 p mrs)) as H2.
    { rewrite IH by done. apply Z.div_pos; lia. }
    rewrite IH, IH by done.
    rewrite !Z.div_div by lia. f_equal.
    replace (Z.pos p~0) with (Z.pos p + Z.pos p) by lia.
    rewrite !Z.pow_add_r by lia. lia.
  - rewrite shr_1_m by done. done.
Qed.

Lemma shr_spec (mrs : shr_record) (e n : Z) :
  0 <= shr_m mrs ->
  (shr mrs e n).2 = e + Z.max n 0
  /\ shr_m (shr mrs e n).1 = shr_m mrs / 2 ^ Z.max n 0.
Proof.
  intros Hm. destruct n as [|p|p]; simpl.
  - split; [lia|]. by rewrite Z.div_1_r.
  - rewrite iter_shr_1_m by done. split; [lia|done].
  - split; [lia|]. by rewrite Z.div_1_r.
Qed.

Lemma shr_m_record_of_loc (m : Z) (l : location) :
  shr_m (shr_record_of_loc m l) = m.
Proof. by destruct l as [|[]]. Qed.

Lemma round_nearest_even_bounds (m : Z) (l : location) :
  m <= round_nearest_even m l <= m + 1.
Proof.
  destruct l as [|[]]; simpl; try lia. destruct (Z.even m); lia.
Qed.

Lemma Zdigits2_pow2 (k : Z) : 0 <= k -> Zdigits2 (2 ^ k) = k + 1.
Proof.
  intros Hk. pose proof (Z.pow_pos_nonneg 2 k).
  assert (Zdigits2 (2 ^ k) <= k + 1).
  { apply Zdigits2_le; [lia|]. rewrite Z.pow_add_r by lia. lia. }
  assert (k < Zdigits2 (2 ^ k)) by (apply Zdigits2_ge; lia).
  lia.
Qed.

Section Rounding.
Variables prec emax : Z.
Hypothesis Hprec : 0 < prec.

Lemma fexp_ge_emin (x : Z) : emin prec emax <= fexp prec emax x.
Proof. unfold fexp. lia. Qed.

Lemma binary_round_aux_rounded (s : bool) (m e : Z) (l : location) :
  0 <= m ->
  rounded prec emax s (Z.max e (fexp prec emax (Zdigits2 m + e)))
    (binary_round_aux prec emax s m e l).
Proof.
  intros Hm. unfold binary_round_aux, shr_fexp.
  set (n1 := fexp prec emax (Zdigits2 m + e) - e).
  pose proof (shr_spec (shr_record_of_loc m l) e n1) as [He1 Hm1].
  { by rewrite shr_m_record_of_loc. }
  rewrite shr_m_record_of_loc in Hm1.
  destruct (shr (shr_record_of_loc m l) e n1) as [mrs1 e1]. simpl in He1, Hm1.
  set (E := Z.max e (fexp prec emax (Zdigits2 m + e))).
  assert (e1 = E) as -> by (subst e1 E n1; lia).
  pose proof (Zdigits2_nonneg m) as HD.
  assert (0 <= shr_m mrs1 < 2 ^ prec) as Hb1.
  { rewrite Hm1. pose proof (Z.pow_pos_nonneg 2 (Z.max n1 0)) as Hp.
    split; [apply Z.div_pos; lia|].
    apply Z.div_lt_upper_bound; [lia|].
    rewrite <- Z.pow_add_r by lia.
    eapply Z.lt_le_trans; [by apply Zdigits2_lt|].
    apply Z.pow_le_mono_r; [lia|]. subst n1. unfold fexp. lia. }
  assert (emin prec emax <= E) as HE.
  { subst E. pose proof (fexp_ge_emin (Zdigits2 m + e)). lia. }
  set (m1 := round_nearest_even (shr_m mrs1) (loc_of_shr_record mrs1)).
  pose proof (round_nearest_even_bounds (shr_m mrs1) (loc_of_shr_record mrs1)) as Hr.
  fold m1 in Hr.
  set (n2 := fexp prec emax (Zdigits2 m1 + E) - E).
  pose proof (shr_spec (shr_record_of_loc m1 loc_Exact) E n2) as [He2 Hm2].
  { simpl. lia. }
  destruct (shr (shr_record_of_loc m1 loc_Exact) E n2) as [mrs2 e2].
  simpl in He2, Hm2.
  assert ((shr_m mrs2 = m1 /\ e2 = E /\ m1 < 2 ^ prec)
          \/ (shr_m mrs2 = 2 ^ (prec - 1) /\ e2 = E + 1)) as Hcases.
  { destruct (decide (m1 < 2 ^ prec)) as [Hlt|Hge].
    - left. assert (Zdigits2 m1 <= prec) by (apply Zdigits2_le; lia).
      assert (Z.max n2 0 = 0) as Hn2 by (subst n2; unfold fexp; lia).
      rewrite Hn2 in *. rewrite Z.div_1_r in Hm2. lia.
    - right. assert (m1 = 2 ^ prec) as Heq by lia.
      assert (Z.max n2 0 = 1) as Hn2.
      { subst n2. rewrite Heq, Zdigits2_pow2 by lia. unfold fexp. lia. }
      rewrite Hn2 in *. split; [|lia]. rewrite Hm2, Heq.
      replace prec with (Z.succ (prec - 1)) at 1 by lia.
      rewrite Z.pow_succ_r by lia. change (2 ^ 1) with 2.
      rewrite Z.mul_comm, Z.div_mul by lia. done. }
  pose proof (Z.pow_pos_nonneg 2 (prec - 1)) as Hpp.
  assert (2 ^ prec = 2 * 2 ^ (prec - 1)) as Hpow.
  { replace prec with (Z.succ (prec - 1)) at 1 by lia.
    by rewrite Z.pow_succ_r by lia. }
  destruct (shr_m mrs2) as [|m'|m'] eqn:Hm'; simpl.
  - done.
  - destruct (e2 <=? emax - prec) eqn:Hle; simpl.
    + apply Z.leb_le in Hle. split; [done|].
      destruct Hcases as [(? & ? & ?)|[? ?]]; lia.
    + apply Z.leb_gt in Hle. split; [done|].
      destruct Hcases as [(? & ? & ?)|[? ?]]; lia.
  - destruct Hcases as [(? & ? & ?)|[? ?]]; lia.
Qed.

(** Shifting left to the exponent of the format changes neither the value
    nor the position of the leading digit. *)
Lemma iter_xO (k : positive) (m : positive) :
  Z.pos (Pos.iter xO m k) = Z.pos m * 2 ^ Z.pos k.
Proof.
  revert m. induction k as [|k IH] using Pos.peano_ind; intros m.
  - change (Pos.iter xO m 1) with (m~0)%positive. change (2 ^ 1) with 2. lia.
  - rewrite Pos.iter_succ, Pos2Z.inj_xO, IH, Pos2Z.inj_succ, Z.pow_succ_r by lia.
    lia.
Qed.

Lemma Zdigits2_shift (m k : Z) :
  0 < m -> 0 <= k -> Zdigits2 (m * 2 ^ k) = Zdigits2 m + k.
Proof.
  intros Hm Hk. pose proof (Z.pow_pos_nonneg 2 k).
  destruct (Zdigits2_bounds m Hm) as [Hlo Hhi].
  pose proof (Zdigits2_nonneg m).
  assert (0 < Zdigits2 m) by (destruct m; simpl in *; lia).
  assert (Zdigits2 (m * 2 ^ k) <= Zdigits2 m + k).
  { apply Zdigits2_le; [lia|]. rewrite (Z.pow_add_r 2 (Zdigits2 m)) by lia. nia. }
  assert (Zdigits2 m + k - 1 < Zdigits2 (m * 2 ^ k)).
  { apply Zdigits2_ge; [lia|].
    replace (Zdigits2 m + k - 1) with (Zdigits2 m - 1 + k) by lia.
    rewrite Z.pow_add_r by lia. nia. }
  lia.
Qed.

Lemma shl_align_spec (m : positive) (e e' : Z) :
  let mz := (shl_align m e e').1 in
  let ez := (shl_align m e e').2 in
  ez = Z.min e e' /\ Z.pos mz = Z.pos m * 2 ^ (e - ez)
  /\ Zdigits2 (Z.pos mz) + ez = Zdigits2 (Z.pos m) + e.
Proof.
  unfold shl_align. destruct (e' - e) as [|d|d] eqn:Hd; simpl fst; simpl snd.
  - replace (Z.min e e') with e by lia. rewrite Z.sub_diag. split_and!; lia.
  - replace (Z.min e e') with e by lia. rewrite Z.sub_diag. split_and!; lia.
  - replace (Z.min e e') with e' by lia.
    assert (e - e' = Z.pos d) as -> by lia.
    split; [done|]. split; [apply iter_xO|].
    rewrite iter_xO, Zdigits2_shift by lia. lia.
Qed.

Lemma binary_round_rounded (s : bool) (m : positive) (e : Z) :
  rounded prec emax s (fexp prec emax (Zdigits2 (Z.pos m) + e))
    (binary_round prec emax s m e).
Proof.
  unfold binary_round.
  pose proof (shl_align_spec m e (fexp prec emax (Z.pos (digits2_pos m) + e)))
    as (Hez & Hmz & Hdz).
  destruct (shl_align m e _) as [mz ez]. simpl in Hez, Hmz, Hdz.
  pose proof (binary_round_aux_rounded s (Z.pos mz) ez loc_Exact) as Hr.
  simpl Zdigits2 in *. rewrite Hdz in Hr.
  replace (Z.max ez (fexp prec emax (Z.pos (digits2_pos m) + e)))
    with (fexp prec emax (Z.pos (digits2_pos m) + e)) in Hr by lia.
  apply Hr. lia.
Qed.

Lemma binary_normalize_rounded (m e : Z) (sz : bool) :
  rounded prec emax (if decide (m = 0) then sz else m <? 0)
    (fexp prec emax (Zdigits2 m + e))
    (binary_normalize prec emax m e sz).
Proof.
  destruct m as [|p|p]; simpl binary_normalize.
  - done.
  - apply binary_round_rounded.
  - apply binary_round_rounded.
Qed.
End Rounding.

(** * The numbers that [compute_iou] goes through *)

Lemma wrap_range (z : Z) : - 2 ^ 63 <= I64.wrap z < 2 ^ 63.
Proof.
  unfold I64.wrap. pose proof (Z.mod_pos_bound (z + 2 ^ 63) (2 ^ 64)). lia.
Qed.

Lemma wrap_small (z : Z) : - 2 ^ 63 <= z < 2 ^ 63 -> I64.wrap z = z.
Proof. intros Hz. unfold I64.wrap. rewrite Z.mod_small; lia. Qed.

Lemma Zdigits2_abs_le (z k : Z) :
  0 <= k -> - 2 ^ k < z < 2 ^ k -> Zdigits2 z <= k.
Proof.
  intros Hk Hz. destruct z as [|p|p]; simpl.
  - done.
  - apply (Zdigits2_le (Z.pos p)); lia.
  - apply (Zdigits2_le (Z.pos p)); lia.
Qed.

Lemma of_int_finite (z : Z) :
  - 2 ^ 63 <= z <= 2 ^ 63 ->
  match F.of_int z with
  | S754_zero _ => True
  | S754_finite s m _ => s = (z <? 0) /\ Z.pos m < 2 ^ 53
  | _ => False
  end.
Proof.
  intros Hz. unfold F.of_int.
  pose proof (binary_normalize_rounded 53 1024 eq_refl z 0 false) as Hr.
  assert (Zdigits2 z <= 64) as HD by (apply Zdigits2_abs_le; lia).
  pose proof (Zdigits2_nonneg z).
  destruct (binary_normalize 53 1024 z 0 false) as [s|s| |s m e]; simpl in Hr.
  - done.
  - destruct Hr as [_ Hr]. unfold fexp, emin in Hr. lia.
  - done.
  - destruct Hr as (-> & Hm & _). split; [|done].
    destruct (decide (z = 0)) as [->|]; done.
Qed.

Lemma of_int_finite64 (z : Z) : - 2 ^ 63 <= z <= 2 ^ 63 -> finite64 (F.of_int z).
Proof.
  intros Hz. pose proof (of_int_finite z Hz) as H.
  destruct (F.of_int z); simpl; try done. by destruct H.
Qed.

(** The sides of the intersection, clamped at 0. *)
Lemma clamp_pos_or_zero (z : Z) :
  - 2 ^ 63 <= z <= 2 ^ 63 -> pos_or_zero (F.maximum F.zero (F.of_int z)).
Proof.
  intros Hz. pose proof (of_int_finite z Hz) as H.
  destruct (F.of_int z) as [s|s| |[] m e]; simpl; try done. by destruct H.
Qed.

Lemma clamp_nonpositive (z : Z) :
  - 2 ^ 63 <= z <= 0 -> exists s, F.maximum F.zero (F.of_int z) = S754_zero s.
Proof.
  intros Hz. destruct (decide (z = 0)) as [->|Hne]; [by exists false|].
  pose proof (of_int_finite z ltac:(lia)) as H.
  destruct (F.of_int z) as [s|s| |s m e]; simpl; try done.
  - by exists s.
  - destruct H as [-> _]. rewrite (proj2 (Z.ltb_lt z 0)) by lia. by exists false.
Qed.

Lemma mul64_pos_zero_inf (x y : F.float) :
  pos_or_zero x -> pos_or_zero y -> pos_zero_inf (F.mul64 x y).
Proof.
  destruct x as [sx|sx| |[] mx ex], y as [sy|sy| |[] my ey]; simpl; try done;
    intros Hx Hy; try (by left).
  pose proof (binary_round_aux_rounded 53 1024 eq_refl false
                (Z.pos (mx * my)) (ex + ey) loc_Exact ltac:(lia)) as Hr.
  destruct (binary_round_aux 53 1024 false (Z.pos (mx * my)) (ex + ey) loc_Exact)
    as [s|s| |s m e]; simpl in Hr.
  - by left.
  - right. by destruct Hr as [-> _].
  - done.
  - left. destruct Hr as (-> & Hm & _). done.
Qed.

Lemma mul64_zero_l (s : bool) (y : F.float) :
  pos_or_zero y -> exists s', F.mul64 (S754_zero s) y = S754_zero s'.
Proof. destruct y as [sy|sy| |[] my ey]; simpl; try done; eauto. Qed.

Lemma mul64_zero_r (x : F.float) (s : bool) :
  pos_or_zero x -> exists s', F.mul64 x (S754_zero s) = S754_zero s'.
Proof. destruct x as [sx|sx| |[] mx ex]; simpl; try done; eauto. Qed.

Lemma binary_normalize_not_nan (m e : Z) (sz : bool) :
  F.is_nan (binary_normalize 53 1024 m e sz) = false.
Proof.
  pose proof (binary_normalize_rounded 53 1024 eq_refl m e sz) as Hr.
  by destruct (binary_normalize 53 1024 m e sz).
Qed.

Lemma sub64_not_nan (x y : F.float) :
  finite64 x -> pos_or_zero y -> F.is_nan (F.sub64 x y) = false.
Proof.
  destruct x as [sx|sx| |sx mx ex], y as [sy|sy| |[] my ey]; simpl; try done.
  - by destruct sx, sy.
  - intros _ _. apply binary_normalize_not_nan.
Qed.

(** The floor of the union: never zero, never a NaN. *)
Lemma floor_positive (x : F.float) :
  F.is_nan x = false ->
  match F.maximum x F.eps with
  | S754_finite false _ _ | S754_infinity false => True
  | _ => False
  end.
Proof.
  destruct x as [[]|[]| |[] m e]; simpl; try done. intros _.
  unfold F.maximum. simpl F.is_nan. cbv iota.
  by destruct (F.ltb F.eps (S754_finite false m e)).
Qed.

Lemma floor_neg_inf : F.maximum (S754_infinity true) F.eps = F.eps.
Proof. reflexivity. Qed.

Lemma div_core_nonneg (m1 m2 : positive) (e1 e2 : Z) :
  0 <= (SFdiv_core_binary 53 1024 (Z.pos m1) e1 (Z.pos m2) e2).1.1.
Proof.
  unfold SFdiv_core_binary.
  set (s := e1 - e2 - _).
  set (m' := match s with Z.pos _ => Z.shiftl (Z.pos m1) s | 0 => Z.pos m1
             | Z.neg _ => 0 end).
  assert (0 <= m') as Hm'.
  { subst m'. destruct s; try lia. apply Z.shiftl_nonneg. lia. }
  pose proof (Z_div_mod m' (Z.pos m2) ltac:(lia)) as Hdiv.
  destruct (Z.div_eucl m' (Z.pos m2)) as [q r]. simpl. nia.
Qed.

Lemma div64_pos_zero_inf (x y : F.float) :
  pos_zero_inf x ->
  match y with S754_finite false _ _ | S754_infinity false => True | _ => False end ->
  (x = S754_infinity false -> y <> S754_infinity false) ->
  pos_zero_inf (F.div64 x y).
Proof.
  intros [Hx| ->] Hy Hinf.
  - destruct x as [sx|sx| |[] mx ex], y as [sy|[]| |[] my ey]; simpl; try done;
      try (by left).
    pose proof (div_core_nonneg mx my ex ey) as Hq.
    destruct (SFdiv_core_binary 53 1024 (Z.pos mx) ex (Z.pos my) ey) as [[q e'] l].
    simpl in Hq.
    pose proof (binary_round_aux_rounded 53 1024 eq_refl false q e' l Hq) as Hr.
    destruct (binary_round_aux 53 1024 false q e' l) as [s|s| |s m e]; simpl in Hr.
    + by left.
    + right. by destruct Hr as [-> _].
    + done.
    + left. by destruct Hr as (-> & Hm & _).
  - destruct y as [sy|[]| |[] my ey]; simpl; try done.
    + by destruct Hinf.
    + by right.
Qed.

(** What [np.clip] to [0, 1] lets through. *)
Lemma clip_cases (d : F.float) :
  pos_zero_inf d ->
  F.clip d F.zero F.one = F.zero \/ F.clip d F.zero F.one = F.one
  \/ exists m e, F.clip d F.zero F.one = S754_finite false m e
       /\ Z.pos m < 2 ^ 53 /\ (e < -52 \/ (e = -52 /\ Z.pos m < 2 ^ 52)).
Proof.
  intros [Hd| ->]; [|right; by left].
  destruct d as [sd|sd| |[] m e]; simpl in Hd; try done.
  - left. by destruct sd.
  - unfold F.clip. change (F.maximum (S754_finite false m e) F.zero)
      with (S754_finite false m e).
    unfold F.minimum. simpl F.is_nan. cbv iota.
    destruct (F.ltb (S754_finite false m e) F.one) eqn:Hlt; [|right; by left].
    right; right. exists m, e. split; [done|]. split; [done|].
    unfold F.ltb, SFltb, F.one in Hlt. cbn [SFcompare] in Hlt.
    destruct (Z.compare_spec e (-52)); [|left; lia|done].
    right. split; [done|]. rewrite compare_cont_Eq in Hlt.
    destruct (Pos.compare_spec m 4503599627370496); done.
Qed.

Lemma to_f32_one : F.to_f32 F.one = F.one32.
Proof. reflexivity. Qed.

Lemma to_f32_below_one (m : positive) (e : Z) :
  Z.pos m < 2 ^ 53 -> e < -52 \/ (e = -52 /\ Z.pos m < 2 ^ 52) ->
  in_unit32 (F.to_f32 (S754_finite false m e)).
Proof.
  intros Hm He. simpl F.to_f32.
  pose proof (binary_round_rounded 24 128 eq_refl false m e) as Hr.
  assert (Zdigits2 (Z.pos m) + e <= 0) as HD.
  { destruct He as [He|[-> Hm']].
    - assert (Zdigits2 (Z.pos m) <= 53) by (apply Zdigits2_le; lia). lia.
    - assert (Zdigits2 (Z.pos m) <= 52) by (apply Zdigits2_le; lia). lia. }
  assert (fexp 24 128 (Zdigits2 (Z.pos m) + e) <= -24) as HE.
  { unfold fexp, emin. lia. }
  simpl Zdigits2 in *.
  destruct (binary_round 24 128 false m e) as [s|s| |s m' e']; simpl in Hr |- *.
  - by subst.
  - lia.
  - done.
  - destruct Hr as (-> & Hm' & He' & Hcarry & _). split; [done|].
    destruct (decide (e' < -23)) as [|Hge]; [by left|]. right.
    split; [lia|]. apply Hcarry. lia.
Qed.

Lemma compare_pos_finite (m1 m2 : positive) (e1 e2 : Z) :
  SFcompare (S754_finite false m1 e1) (S754_finite false m2 e2)
  = Some match e1 ?= e2 with
         | Lt => Lt
         | Gt => Gt
         | Eq => (m1 ?= m2)%positive
         end.
Proof. reflexivity. Qed.

Lemma in_unit32_between (x : F.float) :
  in_unit32 x -> F.leb F.zero x = true /\ F.leb x F.one32 = true.
Proof.
  destruct x as [[]|s| |[] m e]; try done.
  unfold in_unit32. intros [Hm He]. split; [done|].
  unfold F.leb, SFleb, F.one32. rewrite compare_pos_finite.
  destruct He as [He|[-> Heq]].
  - destruct (Z.compare_spec e (-23)); (done || lia).
  - rewrite Z.compare_refl.
    change (2 ^ 23) with 8388608 in Heq.
    destruct (Pos.compare_spec m 8388608); (done || lia).
Qed.

(** * The claims about [compute_iou] *)

Lemma sub_range (x y : Z) : - 2 ^ 63 <= I64.sub x y <= 2 ^ 63.
Proof. pose proof (wrap_range (x - y)). unfold I64.sub. lia. Qed.

Lemma intersection_width_pos_or_zero a b : pos_or_zero (intersection_width a b).
Proof. apply clamp_pos_or_zero, sub_range. Qed.

Lemma intersection_height_pos_or_zero a b : pos_or_zero (intersection_height a b).
Proof. apply clamp_pos_or_zero, sub_range. Qed.

Lemma area_sum_finite64 a b : finite64 (F.of_int (I64.add (box_area a) (box_area b))).
Proof.
  apply of_int_finite64. pose proof (wrap_range (box_area a + box_area b)).
  unfold I64.add. lia.
Qed.

(** The floored union is a positive number or plus infinity, and it is
    [1e-32] when the intersection is infinite. *)
Lemma union_area_positive a b :
  match union_area_pair a b with
  | S754_finite false _ _ | S754_infinity false => True
  | _ => False
  end
  /\ (intersection_area_pair a b = S754_infinity false ->
      union_area_pair a b = F.eps).
Proof.
  unfold union_area_pair.
  pose proof (area_sum_finite64 a b) as HA.
  destruct (mul64_pos_zero_inf _ _ (intersection_width_pos_or_zero a b)
              (intersection_height_pos_or_zero a b)) as [Hi|Hi];
    fold (intersection_area_pair a b) in Hi.
  - split.
    + apply floor_positive. by apply sub64_not_nan.
    + intros Heq. rewrite Heq in Hi. done.
  - rewrite Hi.
    destruct (F.of_int (I64.add (box_area a) (box_area b))) as [sA|sA| |sA mA eA];
      simpl in HA; try done; simpl; auto.
Qed.

Lemma iou_pair_in_unit a b : in_unit32 (iou_pair a b).
Proof.
  unfold iou_pair.
  destruct (union_area_positive a b) as [Hu Hinf].
  assert (pos_zero_inf (F.div64 (intersection_area_pair a b) (union_area_pair a b)))
    as Hd.
  { apply div64_pos_zero_inf.
    - apply mul64_pos_zero_inf;
        [apply intersection_width_pos_or_zero|apply intersection_height_pos_or_zero].
    - done.
    - intros Heq. by rewrite (Hinf Heq). }
  destruct (clip_cases _ Hd) as [->|[->|(m & e & -> & Hm & He)]].
  - done.
  - rewrite to_f32_one. simpl. split; [done|]. right. done.
  - by apply to_f32_below_one.
Qed.



Lemma clip_zero (s : bool) : F.clip (S754_zero s) F.zero F.one = F.zero.
Proof. by destruct s. Qed.

(** One box of zero area, away from the ends of the [int64] range, makes
    the intersection area zero and so the IoU. *)
Lemma degenerate_iou_zero (a b : Box) :
  well_formed a -> degenerate a -> in_range a -> in_range b ->
  iou_pair a b = F.zero.
Proof.
  intros [Hlr Htb] Hdeg (Hl & Ht & Hr & Hb) (Hl' & Ht' & Hr' & Hb').
  unfold coordinate_ok in *.
  assert (exists s, intersection_area_pair a b = S754_zero s) as [s Hi].
  { unfold intersection_area_pair. destruct Hdeg as [Heq|Heq].
    - destruct (clamp_nonpositive
        (I64.sub (Z.min (right a) (right b)) (Z.max (left a) (left b))))
        as [s Hs].
      { unfold I64.sub. rewrite wrap_small by lia. lia. }
      unfold intersection_width. rewrite Hs.
      apply mul64_zero_l, intersection_height_pos_or_zero.
    - destruct (clamp_nonpositive
        (I64.sub (Z.min (bottom a) (bottom b)) (Z.max (top a) (top b))))
        as [s Hs].
      { unfold I64.sub. rewrite wrap_small by lia. lia. }
      unfold intersection_height at 1. rewrite Hs.
      apply mul64_zero_r, intersection_width_pos_or_zero. }
  unfold iou_pair. destruct (union_area_positive a b) as [Hu _].
  rewrite Hi.
  destruct (union_area_pair a b) as [su|[]| |[] mu eu]; try done; simpl F.div64;
    by rewrite clip_zero.
Qed.


(** ** Exact operations *)

Lemma shr_1_double (x : Z) :
  0 <= x ->
  shr_1 {| shr_m := 2 * x; shr_r := false; shr_s := false |}
  = {| shr_m := x; shr_r := false; shr_s := false |}.
Proof. destruct x; try lia; done. Qed.

Lemma iter_shr_1_exact (p : positive) : forall m, 0 <= m ->
  SpecFloat.iter_pos shr_1 p
    {| shr_m := m * 2 ^ Z.pos p; shr_r := false; shr_s := false |}
  = {| shr_m := m; shr_r := false; shr_s := false |}.
Proof.
  induction p as [p IH|p IH|]; intros m Hm; cbn [SpecFloat.iter_pos].
  - pose proof (Z.pow_pos_nonneg 2 (Z.pos p)).
    replace (m * 2 ^ Z.pos p~1) with (2 * (m * 2 ^ Z.pos p * 2 ^ Z.pos p)).
    2: { replace (Z.pos p~1) with (Z.pos p + Z.pos p + 1) by lia.
         rewrite !Z.pow_add_r by lia. change (2 ^ 1) with 2. lia. }
    rewrite shr_1_double by nia. rewrite IH by nia. by rewrite IH.
  - pose proof (Z.pow_pos_nonneg 2 (Z.pos p)).
    replace (m * 2 ^ Z.pos p~0) with (m * 2 ^ Z.pos p * 2 ^ Z.pos p).
    2: { replace (Z.pos p~0) with (Z.pos p + Z.pos p) by lia.
         rewrite !Z.pow_add_r by lia. lia. }
    rewrite IH by nia. by rewrite IH.
  - change (2 ^ 1) with 2. rewrite Z.mul_comm. by apply shr_1_double.
Qed.

Lemma shr_exact (m e k : Z) :
  0 <= m -> 0 <= k ->
  shr (shr_record_of_loc (m * 2 ^ k) loc_Exact) e k
  = ({| shr_m := m; shr_r := false; shr_s := false |}, e + k).
Proof.
  intros Hm Hk. destruct k as [|p|p]; [| |lia].
  - simpl. by rewrite Z.mul_1_r, Z.add_0_r.
  - simpl shr_record_of_loc. unfold shr. by rewrite iter_shr_1_exact.
Qed.

Section Exact.
Variables prec emax : Z.

(** A mantissa of [prec] digits followed by [k] zero digits is rounded to
    itself. *)
Lemma binary_round_aux_exact (s : bool) (c : positive) (e k : Z) :
  0 <= k -> Zdigits2 (Z.pos c) = prec ->
  emin prec emax <= e + k -> e + k <= emax - prec ->
  binary_round_aux prec emax s (Z.pos c * 2 ^ k) e loc_Exact
  = S754_finite s c (e + k).
Proof.
  intros Hk Hc Hlo Hhi. unfold binary_round_aux, shr_fexp.
  rewrite Zdigits2_shift by lia. rewrite Hc.
  replace (fexp prec emax (prec + k + e) - e) with k by (unfold fexp; lia).
  rewrite shr_exact by lia. simpl shr_m. simpl loc_of_shr_record.
  simpl round_nearest_even. rewrite Hc.
  replace (fexp prec emax (prec + (e + k)) - (e + k)) with 0
    by (unfold fexp; lia).
  simpl. by rewrite (proj2 (Z.leb_le _ _) Hhi).
Qed.

Lemma binary_round_canonical (s : bool) (c : positive) (e : Z) :
  Zdigits2 (Z.pos c) = prec -> emin prec emax <= e <= emax - prec ->
  binary_round prec emax s c e = S754_finite s c e.
Proof.
  intros Hc He. unfold binary_round. simpl Zdigits2 in Hc. rewrite Hc.
  replace (fexp prec emax (prec + e)) with e by (unfold fexp; lia).
  unfold shl_align. rewrite Z.sub_diag.
  pose proof (binary_round_aux_exact s c e 0 ltac:(lia) Hc) as Hr.
  rewrite Z.add_0_r, Z.mul_1_r in Hr. apply Hr; lia.
Qed.
End Exact.

(** The binary64 number of a positive integer below 2^53. *)
Lemma of_int_small (n : Z) :
  0 < n < 2 ^ 53 ->
  exists c, Z.pos c = n * 2 ^ (53 - Zdigits2 n)
    /\ Zdigits2 (Z.pos c) = 53
    /\ F.of_int n = S754_finite false c (Zdigits2 n - 53).
Proof.
  intros Hn. destruct n as [|p|p]; try lia.
  unfold F.of_int, binary_normalize, binary_round.
  assert (Zdigits2 (Z.pos p) <= 53) as HD by (apply Zdigits2_le; lia).
  assert (0 < Zdigits2 (Z.pos p)) as HD0 by (simpl; lia).
  pose proof (shl_align_spec p 0 (fexp 53 1024 (Z.pos (digits2_pos p) + 0)))
    as (Hez & Hmz & Hdz).
  destruct (shl_align p 0 _) as [mz ez]. simpl fst in *. simpl snd in *.
  simpl Zdigits2 in *.
  assert (ez = Z.pos (digits2_pos p) - 53) as -> by (unfold fexp, emin in Hez; lia).
  exists mz. split; [rewrite Hmz; f_equal; f_equal; lia|].
  split; [lia|].
  pose proof (binary_round_aux_exact 53 1024 false mz
                (Z.pos (digits2_pos p) - 53) 0 ltac:(lia)) as Hr.
  rewrite Z.add_0_r, Z.mul_1_r in Hr. apply Hr; [simpl; lia|unfold emin; lia|lia].
Qed.

Lemma Zdigits2_mul_ge (a b : Z) :
  0 < a -> 0 < b -> Zdigits2 a + Zdigits2 b - 1 <= Zdigits2 (a * b).
Proof.
  intros Ha Hb.
  destruct (Zdigits2_bounds a Ha) as [Hla _].
  destruct (Zdigits2_bounds b Hb) as [Hlb _].
  assert (0 < Zdigits2 a) by (destruct a; simpl in *; lia).
  assert (0 < Zdigits2 b) by (destruct b; simpl in *; lia).
  pose proof (Z.pow_pos_nonneg 2 (Zdigits2 a - 1)).
  pose proof (Z.pow_pos_nonneg 2 (Zdigits2 b - 1)).
  assert (Zdigits2 a - 1 + (Zdigits2 b - 1) < Zdigits2 (a * b)).
  { apply Zdigits2_ge; [lia|]. rewrite Z.pow_add_r by lia. nia. }
  lia.
Qed.

Lemma mul64_exact (a b : Z) :
  0 < a -> 0 < b -> a * b < 2 ^ 53 ->
  F.mul64 (F.of_int a) (F.of_int b) = F.of_int (a * b).
Proof.
  intros Ha Hb Hab.
  assert (a < 2 ^ 53 /\ b < 2 ^ 53) as [Ha' Hb'] by nia.
  destruct (of_int_small a) as (ca & Hca & Hda & ->); [lia|].
  destruct (of_int_small b) as (cb & Hcb & Hdb & ->); [lia|].
  destruct (of_int_small (a * b)) as (c & Hc & Hd & ->); [nia|].
  pose proof (Zdigits2_mul_ge a b Ha Hb) as Hge.
  assert (Zdigits2 a <= 53) by (apply Zdigits2_le; lia).
  assert (Zdigits2 b <= 53) by (apply Zdigits2_le; lia).
  assert (Zdigits2 (a * b) <= 53) by (apply Zdigits2_le; nia).
  assert (0 < Zdigits2 a) by (destruct a; simpl in *; lia).
  assert (0 < Zdigits2 b) by (destruct b; simpl in *; lia).
  simpl F.mul64.
  set (k := 53 - Zdigits2 a - Zdigits2 b + Zdigits2 (a * b)).
  assert (Z.pos (ca * cb) = Z.pos c * 2 ^ k) as ->.
  { rewrite Pos2Z.inj_mul, Hca, Hcb, Hc.
    rewrite <- (Z.mul_assoc (a * b)), <- Z.pow_add_r by lia.
    replace (53 - Zdigits2 (a * b) + k)
      with (53 - Zdigits2 a + (53 - Zdigits2 b)) by lia.
    rewrite Z.pow_add_r by lia. ring. }
  rewrite (binary_round_aux_exact 53 1024) by (unfold emin; lia).
  f_equal. lia.
Qed.

Lemma sub64_double (n : Z) :
  0 < n < 2 ^ 52 ->
  F.sub64 (F.of_int (2 * n)) (F.of_int n) = F.of_int n.
Proof.
  intros Hn.
  destruct (of_int_small n) as (c & Hc & Hd & Hof); [lia|].
  destruct (of_int_small (2 * n)) as (c2 & Hc2 & Hd2 & Hof2); [lia|].
  assert (Zdigits2 (2 * n) = Zdigits2 n + 1) as HD2.
  { rewrite Z.mul_comm. change 2 with (2 ^ 1). apply Zdigits2_shift; lia. }
  assert (Zdigits2 n <= 52) by (apply Zdigits2_le; lia).
  assert (0 < Zdigits2 n) by (destruct n; simpl in *; lia).
  assert (c2 = c) as ->.
  { apply Pos2Z.inj. rewrite Hc, Hc2, HD2.
    replace (53 - Zdigits2 n) with (Z.succ (53 - (Zdigits2 n + 1))) by lia.
    rewrite Z.pow_succ_r by lia. lia. }
  rewrite Hof, Hof2, HD2. set (e := Zdigits2 n - 53).
  replace (Zdigits2 n + 1 - 53) with (e + 1) by (subst e; lia).
  simpl F.sub64. unfold SFsub.
  replace (Z.min (e + 1) e) with e by lia.
  unfold shl_align. rewrite Z.sub_diag.
  replace (e - (e + 1)) with (Z.neg 1) by lia. simpl fst. simpl cond_Zopp.
  replace (Z.pos c~0 - Z.pos c) with (Z.pos c) by lia.
  simpl binary_normalize.
  apply (binary_round_canonical 53 1024); [done|].
  subst e. unfold emin. lia.
Qed.

Lemma div64_self (c : positive) (e : Z) :
  F.div64 (S754_finite false c e) (S754_finite false c e) = F.one.
Proof.
  simpl F.div64. unfold SFdiv, SFdiv_core_binary.
  replace (Zdigits2 (Z.pos c) + e - (Zdigits2 (Z.pos c) + e)) with 0 by lia.
  rewrite Z.sub_diag.
  change (Z.min (fexp 53 1024 0) 0) with (-53). change (0 - -53) with 53.
  cbv iota beta.
  assert (Z.div_eucl (Z.shiftl (Z.pos c) 53) (Z.pos c) = (2 ^ 53, 0)) as ->.
  { rewrite Z.shiftl_mul_pow2 by lia.
    pose proof (Z_div_mod (Z.pos c * 2 ^ 53) (Z.pos c) ltac:(lia)) as Hdm.
    destruct (Z.div_eucl (Z.pos c * 2 ^ 53) (Z.pos c)) as [q r].
    destruct Hdm as [Heq Hr].
    assert (q = 2 ^ 53) by nia. f_equal; [done|]. nia. }
  assert (new_location (Z.pos c) 0 = loc_Exact) as ->.
  { unfold new_location. by destruct (Z.even (Z.pos c)). }
  reflexivity.
Qed.

Lemma maximum_zero_of_int (n : Z) :
  0 < n < 2 ^ 53 -> F.maximum F.zero (F.of_int n) = F.of_int n.
Proof.
  intros Hn. destruct (of_int_small n Hn) as (c & _ & _ & ->). reflexivity.
Qed.

Lemma maximum_of_int_eps (n : Z) :
  0 < n < 2 ^ 53 -> F.maximum (F.of_int n) F.eps = F.of_int n.
Proof.
  intros Hn. destruct (of_int_small n Hn) as (c & _ & _ & ->).
  assert (0 < Zdigits2 n) by (destruct n; simpl in *; lia).
  unfold F.maximum. cbn [F.is_nan F.eps]. unfold F.ltb, SFltb, F.eps.
  rewrite compare_pos_finite.
  destruct (Z.compare_spec (-159) (Zdigits2 n - 53)); (done || lia).
Qed.

(** * More about [compute_iou] *)

Lemma intersection_width_sym a b : intersection_width a b = intersection_width b a.
Proof. unfold intersection_width. by rewrite Z.min_comm, Z.max_comm. Qed.

Lemma intersection_height_sym a b : intersection_height a b = intersection_height b a.
Proof. unfold intersection_height. by rewrite Z.min_comm, Z.max_comm. Qed.

Lemma iou_pair_sym a b : iou_pair a b = iou_pair b a.
Proof.
  unfold iou_pair, union_area_pair, intersection_area_pair, I64.add.
  by rewrite intersection_width_sym, intersection_height_sym,
    (Z.add_comm (box_area a)).
Qed.

Lemma compute_iou_lookup (boxes1 boxes2 : list Box) (i j : nat) :
  at2 (compute_iou boxes1 boxes2) i j
  = a ← boxes1 !! i; b ← boxes2 !! j; Some (iou_pair a b).
Proof.
  destruct (boxes1 !! i) as [a|] eqn:Ha; simpl.
  - destruct (boxes2 !! j) as [b|] eqn:Hb; simpl.
    + by apply compute_iou_entry.
    + destruct (at2 _ i j) as [x|] eqn:Hx; [|done].
      destruct (at2_lt _ _ _ _ _ _ (compute_iou_rect boxes1 boxes2) Hx) as [_ Hj].
      apply lookup_ge_None in Hb. lia.
  - destruct (at2 _ i j) as [x|] eqn:Hx; [|done].
    destruct (at2_lt _ _ _ _ _ _ (compute_iou_rect boxes1 boxes2) Hx) as [Hi _].
    apply lookup_ge_None in Ha. lia.
Qed.

(** X1.  Whatever the boxes (their coordinates need not even be ordered),
    the array of [compute_iou] has one row per box of the first
    collection and one column per box of the second, and every entry is a
    finite binary32 number between 0 and 1: never a NaN, never infinite,
    never negative. *)
Theorem iou_matrix_in_unit_interval (boxes1 boxes2 : list Box) :
  rect (length boxes1) (length boxes2) (compute_iou boxes1 boxes2)
  /\ forall i j x, at2 (compute_iou boxes1 boxes2) i j = Some x ->
       in_unit32 x /\ F.is_nan x = false
       /\ F.leb F.zero x = true /\ F.leb x F.one32 = true.
Proof.
  split; [apply compute_iou_rect|]. intros i j x Hx.
  rewrite compute_iou_lookup in Hx.
  destruct (boxes1 !! i) as [a|]; [|done]. destruct (boxes2 !! j) as [b|]; [|done].
  injection Hx as <-. pose proof (iou_pair_in_unit a b) as Hu.
  destruct (in_unit32_between _ Hu) as [H0 H1].
  split_and!; [done| |done|done]. by destruct (iou_pair a b).
Qed.

(** X2.  [compute_iou] with its arguments exchanged returns the transposed
    array: entry [(i, j)] of the one is entry [(j, i)] of the other, bit
    for bit, for all boxes. *)
Theorem compute_iou_transpose (boxes1 boxes2 : list Box) (i j : nat) :
  at2 (compute_iou boxes1 boxes2) i j = at2 (compute_iou boxes2 boxes1) j i.
Proof.
  rewrite !compute_iou_lookup.
  destruct (boxes1 !! i) as [a|], (boxes2 !! j) as [b|]; simpl; try done.
  by rewrite iou_pair_sym.
Qed.

(** The floor of the union is at least [1e-32]. *)
Lemma floor_at_least_eps (x : F.float) :
  F.is_nan x = false -> F.leb F.eps (F.maximum x F.eps) = true.
Proof.
  intros Hx. unfold F.maximum. rewrite Hx. cbn [F.is_nan F.eps].
  destruct (F.ltb F.eps x) eqn:Hlt; [by apply ltb_leb|]. reflexivity.
Qed.

(** X3.  The divisor in [compute_iou] is never zero and never a NaN: for
    all boxes the floored union area is a positive number (or plus
    infinity) that is at least [1e-32]. *)
Theorem union_area_at_least_eps (a b : Box) :
  F.leb F.eps (union_area_pair a b) = true
  /\ F.is_nan (union_area_pair a b) = false
  /\ forall s, union_area_pair a b <> S754_zero s.
Proof.
  destruct (union_area_positive a b) as [Hu Hinf].
  assert (F.leb F.eps (union_area_pair a b) = true) as Hle.
  { destruct (mul64_pos_zero_inf _ _ (intersection_width_pos_or_zero a b)
                (intersection_height_pos_or_zero a b)) as [Hi|Hi];
      fold (intersection_area_pair a b) in Hi.
    - unfold union_area_pair. apply floor_at_least_eps, sub64_not_nan; [|done].
      apply area_sum_finite64.
    - by rewrite (Hinf Hi). }
  split; [done|]. split.
  - by destruct (union_area_pair a b).
  - intros s Heq. by rewrite Heq in Hu.
Qed.

(** An intersection without interior, computed without wrap-around, has
    area zero, and so the IoU is zero. *)
Lemma empty_intersection_zero (a b : Box) :
  - 2 ^ 63 <= Z.min (right a) (right b) - Z.max (left a) (left b) <= 0
  \/ - 2 ^ 63 <= Z.min (bottom a) (bottom b) - Z.max (top a) (top b) <= 0 ->
  iou_pair a b = F.zero.
Proof.
  intros Hempty.
  assert (exists s, intersection_area_pair a b = S754_zero s) as [s Hi].
  { unfold intersection_area_pair. destruct Hempty as [Hw|Hh].
    - destruct (clamp_nonpositive
        (I64.sub (Z.min (right a) (right b)) (Z.max (left a) (left b))))
        as [s Hs].
      { unfold I64.sub. rewrite wrap_small by lia. lia. }
      unfold intersection_width. rewrite Hs.
      apply mul64_zero_l, intersection_height_pos_or_zero.
    - destruct (clamp_nonpositive
        (I64.sub (Z.min (bottom a) (bottom b)) (Z.max (top a) (top b))))
        as [s Hs].
      { unfold I64.sub. rewrite wrap_small by lia. lia. }
      unfold intersection_height at 1. rewrite Hs.
      apply mul64_zero_r, intersection_width_pos_or_zero. }
  unfold iou_pair. destruct (union_area_positive a b) as [Hu _].
  rewrite Hi.
  destruct (union_area_pair a b) as [su|[]| |[] mu eu]; try done; simpl F.div64;
    by rewrite clip_zero.
Qed.

(** X4.  Two boxes whose coordinates lie in [-2^62, 2^62) and whose
    intersection rectangle has no interior (they are apart, or only
    touch, or one has no area) have the IoU entry 0.0 exactly. *)
Theorem no_overlap_iou_zero (boxes1 boxes2 : list Box) (i j : nat) (a b : Box) :
  boxes1 !! i = Some a -> boxes2 !! j = Some b ->
  in_range a -> in_range b -> no_overlap a b ->
  at2 (compute_iou boxes1 boxes2) i j = Some F.zero.
Proof.
  intros Ha Hb (Hl & Ht & Hr & Hbt) (Hl' & Ht' & Hr' & Hbt') Hno.
  rewrite (compute_iou_entry _ _ _ _ _ _ Ha Hb). f_equal.
  apply empty_intersection_zero. unfold coordinate_ok in *.
  destruct Hno; [left|right]; lia.
Qed.

(** The example of the specification: (0,0,10,10) and (20,20,30,30). *)
Lemma no_overlap_iou_zero_witness :
  at2 (compute_iou [mkbox 0 0 10 10] [mkbox 20 20 30 30]) 0 0 = Some F.zero.
Proof.
  apply (no_overlap_iou_zero [mkbox 0 0 10 10] [mkbox 20 20 30 30] 0 0
           (mkbox 0 0 10 10) (mkbox 20 20 30 30));
    try reflexivity;
    unfold in_range, coordinate_ok, no_overlap; simpl; lia.
Defined.

Lemma iou_self_one (a : Box) : small_box a -> iou_pair a a = F.one32.
Proof.
  intros ((Hl & Ht & Hr & Hb) & Hw & Hh). unfold coordinate_ok in *.
  set (W := right a - left a) in *. set (H := bottom a - top a) in *.
  assert (0 < W * H < 2 ^ 52) as HWH.
  { split; [nia|]. change (2 ^ 52) with (2 ^ 26 * 2 ^ 26). nia. }
  assert (intersection_width a a = F.of_int W) as Hiw.
  { unfold intersection_width, I64.sub. rewrite Z.min_id, Z.max_id.
    rewrite wrap_small by lia. apply maximum_zero_of_int. lia. }
  assert (intersection_height a a = F.of_int H) as Hih.
  { unfold intersection_height, I64.sub. rewrite Z.min_id, Z.max_id.
    rewrite wrap_small by lia. apply maximum_zero_of_int. lia. }
  assert (intersection_area_pair a a = F.of_int (W * H)) as Hia.
  { unfold intersection_area_pair. rewrite Hiw, Hih.
    apply mul64_exact; lia. }
  assert (box_area a = W * H) as Har.
  { unfold box_area, I64.mul, I64.sub.
    rewrite (wrap_small (right a - left a)), (wrap_small (bottom a - top a)) by lia.
    fold W H. apply wrap_small. lia. }
  assert (union_area_pair a a = F.of_int (W * H)) as Hun.
  { unfold union_area_pair. rewrite Hia, Har. unfold I64.add.
    rewrite wrap_small by lia.
    replace (W * H + W * H) with (2 * (W * H)) by lia.
    rewrite sub64_double by lia. apply maximum_of_int_eps. lia. }
  unfold iou_pair. rewrite Hia, Hun.
  destruct (of_int_small (W * H)) as (c & _ & _ & ->); [lia|].
  rewrite div64_self. reflexivity.
Qed.

(** X5.  A box with itself: for a box whose coordinates lie in
    [-2^62, 2^62) and whose width and height are positive and below 2^26,
    every intermediate value is exact and the IoU entry is 1.0 exactly. *)
Theorem self_iou_is_one (boxes : list Box) (i : nat) (a : Box) :
  boxes !! i = Some a -> small_box a ->
  at2 (compute_iou boxes boxes) i i = Some F.one32.
Proof.
  intros Ha Hsmall. rewrite (compute_iou_entry _ _ _ _ _ _ Ha Ha).
  f_equal. by apply iou_self_one.
Qed.

Lemma self_iou_is_one_witness :
  at2 (compute_iou [mkbox 10 10 50 50] [mkbox 10 10 50 50]) 0 0 = Some F.one32.
Proof.
  apply (self_iou_is_one [mkbox 10 10 50 50] 0 (mkbox 10 10 50 50)).
  - reflexivity.
  - unfold small_box, in_range, coordinate_ok; simpl; lia.
Defined.

(** * Boxes without area, and a box with itself *)

(** C9, as amended.  The denominator of the division is never zero: it is
    floored at [1e-32].  For two well-formed boxes of zero area the IoU
    entry is 0, provided that the subtraction [rd - lu] does not wrap
    around (as it never does for coordinates in [-2^62, 2^62)). *)
Theorem degenerate_pair_iou (boxes1 boxes2 : list Box) (i j : nat) (a b : Box) :
  boxes1 !! i = Some a -> boxes2 !! j = Some b ->
  (forall s, union_area_pair a b <> S754_zero s)
  /\ (well_formed a -> well_formed b -> degenerate a -> degenerate b ->
      no_wrap a b ->
      at2 (compute_iou boxes1 boxes2) i j = Some F.zero)
  /\ (in_range a -> in_range b -> no_wrap a b).
Proof.
  intros Ha Hb. split_and!.
  - intros s Heq. destruct (union_area_positive a b) as [Hu _].
    by rewrite Heq in Hu.
  - intros [Hlr Htb] [Hlr' Htb'] Hda _ [Hw Hh].
    rewrite (compute_iou_entry _ _ _ _ _ _ Ha Hb). f_equal.
    apply empty_intersection_zero. destruct Hda; [left|right]; lia.
  - intros (Hl & Ht & Hr & Hbt) (Hl' & Ht' & Hr' & Hbt').
    unfold no_wrap, coordinate_ok in *. lia.
Qed.

(** A point and a vertical segment. *)
Lemma degenerate_pair_iou_witness :
  (forall s, union_area_pair (mkbox 5 5 5 5) (mkbox 7 0 7 9) <> S754_zero s)
  /\ (well_formed (mkbox 5 5 5 5) -> well_formed (mkbox 7 0 7 9) ->
      degenerate (mkbox 5 5 5 5) -> degenerate (mkbox 7 0 7 9) ->
      no_wrap (mkbox 5 5 5 5) (mkbox 7 0 7 9) ->
      at2 (compute_iou [mkbox 5 5 5 5] [mkbox 7 0 7 9]) 0 0 = Some F.zero)
  /\ (in_range (mkbox 5 5 5 5) -> in_range (mkbox 7 0 7 9) ->
      no_wrap (mkbox 5 5 5 5) (mkbox 7 0 7 9)).
Proof.
  apply (degenerate_pair_iou [mkbox 5 5 5 5] [mkbox 7 0 7 9] 0 0); reflexivity.
Defined.

(** C9 as stated fails at the ends of the [int64] range: the two boxes
    below are well-formed, of zero area and far apart, the width of their
    intersection wraps around to 1, and their IoU entry is 1. *)
Lemma degenerate_pair_iou_one :
  let a := mkbox (2 ^ 63 - 1) 0 (2 ^ 63 - 1) 10 in
  let b := mkbox (- 2 ^ 63) 0 (- 2 ^ 63) 10 in
  well_formed a /\ well_formed b /\ degenerate a /\ degenerate b
  /\ at2 (compute_iou [a] [b]) 0 0 = Some F.one32
  /\ at2 (compute_iou [a] [b]) 0 0 <> Some F.zero.
Proof.
  intros a b. split_and!.
  - unfold well_formed; simpl; lia.
  - unfold well_formed; simpl; lia.
  - by left.
  - by left.
  - vm_compute. reflexivity.
  - vm_compute. discriminate.
Qed.





(** ** Rounding yields numbers of the format *)

Section Canonical.
Variables prec emax : Z.
Hypothesis Hprec : 0 < prec.

(** The rounded mantissa [r] is the mantissa cut to the exponent [E] of
    the format, or one more; a carry to [2^prec] moves the exponent up. *)
Lemma binary_round_aux_cases (s : bool) (m e : Z) (l : location) :
  0 <= m ->
  let E := Z.max e (fexp prec emax (Zdigits2 m + e)) in
  exists r : Z,
    m / 2 ^ (E - e) <= r <= m / 2 ^ (E - e) + 1 /\ r <= 2 ^ prec
    /\ binary_round_aux prec emax s m e l
       = if decide (r < 2 ^ prec) then
           match r with
           | 0 => S754_zero s
           | Z.pos p => if E <=? emax - prec then S754_finite s p E
                        else S754_infinity s
           | Z.neg _ => S754_nan
           end
         else if E + 1 <=? emax - prec
              then S754_finite s (Z.to_pos (2 ^ (prec - 1))) (E + 1)
              else S754_infinity s.
Proof.
  intros Hm E. unfold binary_round_aux, shr_fexp.
  set (n1 := fexp prec emax (Zdigits2 m + e) - e).
  pose proof (shr_spec (shr_record_of_loc m l) e n1) as [He1 Hm1].
  { by rewrite shr_m_record_of_loc. }
  rewrite shr_m_record_of_loc in Hm1.
  destruct (shr (shr_record_of_loc m l) e n1) as [mrs1 e1]. simpl in He1, Hm1.
  assert (e1 = E) as -> by (subst e1 E n1; lia).
  assert (Z.max n1 0 = E - e) as Hn1 by (subst E n1; lia).
  rewrite Hn1 in Hm1.
  pose proof (Zdigits2_nonneg m) as HD.
  assert (0 <= shr_m mrs1 < 2 ^ prec) as Hb1.
  { rewrite Hm1. pose proof (Z.pow_pos_nonneg 2 (E - e)) as Hp.
    split; [apply Z.div_pos; lia|].
    apply Z.div_lt_upper_bound; [lia|].
    rewrite <- Z.pow_add_r by lia.
    eapply Z.lt_le_trans; [by apply Zdigits2_lt|].
    apply Z.pow_le_mono_r; [lia|]. subst E. unfold fexp. lia. }
  assert (emin prec emax <= E) as HE.
  { subst E. pose proof (fexp_ge_emin prec emax (Zdigits2 m + e)). lia. }
  set (r := round_nearest_even (shr_m mrs1) (loc_of_shr_record mrs1)).
  pose proof (round_nearest_even_bounds (shr_m mrs1) (loc_of_shr_record mrs1)) as Hr.
  fold r in Hr. exists r. rewrite <- Hm1. split; [done|]. split; [lia|].
  set (n2 := fexp prec emax (Zdigits2 r + E) - E).
  pose proof (shr_spec (shr_record_of_loc r loc_Exact) E n2) as [He2 Hm2].
  { simpl. lia. }
  destruct (shr (shr_record_of_loc r loc_Exact) E n2) as [mrs2 e2].
  simpl in He2, Hm2.
  destruct (decide (r < 2 ^ prec)) as [Hlt|Hge].
  - assert (Zdigits2 r <= prec) by (apply Zdigits2_le; lia).
    assert (Z.max n2 0 = 0) as Hn2 by (subst n2; unfold fexp; lia).
    rewrite Hn2 in *. rewrite Z.div_1_r in Hm2. rewrite Hm2.
    replace e2 with E by lia. done.
  - assert (r = 2 ^ prec) as Heq by lia.
    assert (Z.max n2 0 = 1) as Hn2.
    { subst n2. rewrite Heq, Zdigits2_pow2 by lia. unfold fexp. lia. }
    rewrite Hn2 in *.
    assert (shr_m mrs2 = 2 ^ (prec - 1)) as ->.
    { rewrite Hm2, Heq. replace prec with (Z.succ (prec - 1)) at 1 by lia.
      rewrite Z.pow_succ_r by lia. change (2 ^ 1) with 2.
      rewrite Z.mul_comm, Z.div_mul by lia. done. }
    replace e2 with (E + 1) by lia.
    pose proof (Z.pow_pos_nonneg 2 (prec - 1) ltac:(lia) ltac:(lia)) as Hpos.
    destruct (2 ^ (prec - 1)) as [|p|p]; try lia. done.
Qed.

(** Rounding a mantissa that reaches down to the exponent of the format
    gives a number of the format. *)
Lemma binary_round_aux_valid (s : bool) (m e : Z) (l : location) :
  0 < m -> e <= fexp prec emax (Zdigits2 m + e) ->
  valid_binary prec emax (binary_round_aux prec emax s m e l) = true.
Proof.
  intros Hm He.
  destruct (binary_round_aux_cases s m e l ltac:(lia)) as (r & Hr & Hr' & ->).
  set (E := Z.max e (fexp prec emax (Zdigits2 m + e))) in *.
  assert (E = fexp prec emax (Zdigits2 m + e)) as HE by (subst E; lia).
  assert (emin prec emax <= E) as Hemin.
  { rewrite HE. apply fexp_ge_emin. }
  destruct (Zdigits2_bounds m Hm) as [Hlo Hhi].
  assert (0 < Zdigits2 m) as HD by (destruct m; simpl in *; lia).
  destruct (decide (r < 2 ^ prec)) as [Hlt|Hge].
  - destruct r as [|p|p]; [done| |done].
    destruct (E <=? emax - prec) eqn:Hle; [|done]. simpl.
    unfold bounded, canonical_mantissa. rewrite Hle, andb_true_r.
    apply Z.eqb_eq.
    assert (Zdigits2 (Z.pos p) <= prec) as Hdp by (apply Zdigits2_le; lia).
    simpl Zdigits2 in Hdp.
    destruct (decide (emin prec emax <= Zdigits2 m + e - prec)) as [Hn|Hs].
    + assert (E - e = Zdigits2 m - prec) as Hsh by (rewrite HE; unfold fexp; lia).
      assert (prec - 1 < Zdigits2 (Z.pos p)) as Hdp'.
      { apply Zdigits2_ge; [lia|].
        eapply Z.le_trans; [|apply Hr].
        rewrite Hsh. apply Z.div_le_lower_bound; [apply Z.pow_pos_nonneg; lia|].
        rewrite <- Z.pow_add_r by lia.
        replace (Zdigits2 m - prec + (prec - 1)) with (Zdigits2 m - 1) by lia.
        done. }
      simpl Zdigits2 in Hdp'. unfold fexp. lia.
    + assert (E = emin prec emax) as -> by (rewrite HE; unfold fexp; lia).
      unfold fexp. lia.
  - destruct (E + 1 <=? emax - prec) eqn:Hle; [|done]. simpl.
    unfold bounded, canonical_mantissa. rewrite Hle, andb_true_r.
    apply Z.eqb_eq.
    pose proof (Z.pow_pos_nonneg 2 (prec - 1) ltac:(lia) ltac:(lia)) as Hpos.
    change (Z.pos (digits2_pos (Z.to_pos (2 ^ (prec - 1)))))
      with (Zdigits2 (Z.pos (Z.to_pos (2 ^ (prec - 1))))).
    rewrite Z2Pos.id by done. rewrite Zdigits2_pow2 by lia.
    unfold fexp. lia.
Qed.

Lemma binary_round_valid (s : bool) (m : positive) (e : Z) :
  valid_binary prec emax (binary_round prec emax s m e) = true.
Proof.
  unfold binary_round.
  pose proof (shl_align_spec m e (fexp prec emax (Z.pos (digits2_pos m) + e)))
    as (Hez & Hmz & Hdz).
  destruct (shl_align m e _) as [mz ez]. simpl in Hez, Hmz, Hdz.
  apply binary_round_aux_valid; [lia|].
  simpl Zdigits2 in *. rewrite Hdz. lia.
Qed.
End Canonical.

Lemma to_f32_valid (x : F.float) : valid_binary 24 128 (F.to_f32 x) = true.
Proof.
  destruct x as [s|s| |s m e]; try done. apply binary_round_valid. done.
Qed.

(** X6.  Every entry of the array of [compute_iou] is plus zero or a
    positive number of the binary32 format in its canonical form (a normal
    or a subnormal number: the mantissa and the exponent that
    [astype(np.float32)] yields): never a NaN, never infinite, never a
    negative zero. *)
Theorem iou_matrix_entries_binary32 (boxes1 boxes2 : list Box) (i j : nat)
  (x : F.float) :
  at2 (compute_iou boxes1 boxes2) i j = Some x ->
  x = F.zero
  \/ exists m e, x = S754_finite false m e /\ bounded 24 128 m e = true.
Proof.
  intros Hx. rewrite compute_iou_lookup in Hx.
  destruct (boxes1 !! i) as [a|]; [|done]. destruct (boxes2 !! j) as [b|]; [|done].
  injection Hx as <-.
  pose proof (iou_pair_in_unit a b) as Hu.
  pose proof (to_f32_valid
                (F.clip (F.div64 (intersection_area_pair a b) (union_area_pair a b))
                   F.zero F.one)) as Hv.
  fold (iou_pair a b) in Hv.
  destruct (iou_pair a b) as [[]|s| |[] m e]; try done; [by left|].
  right. by exists m, e.
Qed.

(** Scenario A: the entry 0.81 is 13589545 * 2^-24. *)
Lemma iou_matrix_entries_binary32_witness :
  S754_finite false 13589545 (-24) = F.zero
  \/ exists m e, S754_finite false 13589545 (-24) = S754_finite false m e
                 /\ bounded 24 128 m e = true.
Proof.
  apply (iou_matrix_entries_binary32 [mkbox 10 10 50 50] [mkbox 12 12 48 48] 0 0).
  reflexivity.
Defined.

(** * More about the matching loop *)

Lemma ltb_ordinary (x t : F.float) : F.ltb x t = true -> ordinary t.
Proof. by destruct x as [[]|[]| |[] ? ?], t as [[]|[]| |[] ? ?]. Qed.

Section Frame.
Local Open Scope nat_scope.
Context {A : Type}.
Implicit Types X : list (list A).

Lemma at2_set_row_ne X r v i j : i <> r -> at2 (set_row r v X) i j = at2 X i j.
Proof.
  intros Hne. unfold at2, set_row. by rewrite list_lookup_alter_ne.
Qed.

Lemma at2_set_col_ne X c v i j : j <> c -> at2 (set_col c v X) i j = at2 X i j.
Proof.
  intros Hne. unfold at2, set_col. rewrite map_fmap, list_lookup_fmap.
  destruct (X !! i) as [row|]; simpl; [|done].
  by rewrite list_lookup_insert_ne.
Qed.
End Frame.

Section Matched.
Local Open Scope nat_scope.
Variables M N : nat.
Hypothesis HM : 0 < M.
Hypothesis HN : 0 < N.

(** A pass that matches looks at an entry that is not below the
    threshold. *)
Lemma pass_matched_entry t st r c st' :
  rect M N (pairwise_iou st) ->
  loop_pass t st = Done (Matched r c st') ->
  exists v, at2 (pairwise_iou st) r c = Some v /\ F.ltb (F.widen v) t = false.
Proof.
  intros HX Hpass.
  destruct (loop_pass_spec M N HM HN t st HX) as (r' & c' & v & _ & _ & Hv & _ & Heq).
  rewrite Hpass in Heq. destruct (F.ltb (F.widen v) t) eqn:Hlt; [done|].
  assert (r' = r /\ c' = c) as [-> ->] by (by injection Heq). eauto.
Qed.

(** A pass that breaks has met an entry below the threshold: the
    threshold is a number above minus infinity. *)
Lemma pass_break_ordinary t st :
  rect M N (pairwise_iou st) -> loop_pass t st = Done Break -> ordinary t.
Proof.
  intros HX Hpass.
  destruct (loop_pass_spec M N HM HN t st HX) as (r & c & v & _ & _ & _ & _ & Heq).
  rewrite Hpass in Heq. destruct (F.ltb (F.widen v) t) eqn:Hlt; [|done].
  by eapply ltb_ordinary.
Qed.

(** What is neither in a used row nor in a used column is as
    [compute_iou] left it. *)
Lemma run_frame t X st tr st' k :
  ordinary t -> match_inv M N st k ->
  (forall i j, i ∉ used_rows st -> j ∉ used_cols st ->
     at2 (pairwise_iou st) i j = at2 X i j) ->
  run t st tr st' ->
  (forall i j, i ∉ used_rows st' -> j ∉ used_cols st' ->
     at2 (pairwise_iou st') i j = at2 X i j)
  /\ Forall (fun rc => exists x, at2 X rc.1 rc.2 = Some x
                         /\ F.ltb (F.widen x) t = false) tr.
Proof.
  intros Ht Hinv Hframe Hrun. revert k Hinv Hframe.
  induction Hrun as [st|st r c st1 tr st2 Hpass _ IH]; intros k Hinv Hframe.
  - split; [done|constructor].
  - destruct (pass_match_inv M N HM HN t st r c st1 k Ht Hinv Hpass)
      as (-> & Hr & Hc & Hinv1).
    destruct (pass_matched_entry t st r c _ (proj1 (proj1 Hinv)) Hpass)
      as (v & Hv & Hlt).
    destruct (IH (S k) Hinv1) as [Hframe2 Hall].
    { simpl. intros i j Hi Hj.
      rewrite at2_set_col_ne, at2_set_row_ne by set_solver.
      apply Hframe; set_solver. }
    split; [done|]. constructor; [|done].
    exists v. simpl. split; [|done]. by rewrite <- Hframe.
Qed.

Lemma match_loop_no_raise t fuel : forall st e,
  rect M N (pairwise_iou st) -> match_loop fuel t st <> Raise e.
Proof.
  induction fuel as [|fuel IH]; intros st e HX; [done|]. simpl.
  destruct (loop_pass_spec M N HM HN t st HX) as (r & c & v & _ & _ & _ & _ & ->).
  destruct (F.ltb (F.widen v) t); simpl; [done|].
  apply IH. by apply rect_mark.
Qed.
End Matched.

(** X7.  When the loop has ended on a group with [M > 0] ground-truth
    boxes and [N > 0] predictions, the true positives it counted are pairs
    (row, column) with pairwise distinct rows and pairwise distinct
    columns, the rows and columns in [used_rows] and [used_cols], and the
    IoU entry of each pair, as [compute_iou] returned it, is not below the
    threshold. *)
Theorem true_positives_reach_threshold (M N : nat) (X : list (list F.float))
  (t : F.float) (m : Metrics) (fuel : nat) (st' : MatchState) :
  (0 < M)%nat -> (0 < N)%nat -> rect M N X ->
  match_loop fuel t (start X m) = Done st' ->
  exists tr : list (nat * nat),
    true_positive (metrics st') = true_positive m + Z.of_nat (length tr)
    /\ NoDup tr.*1 /\ NoDup tr.*2
    /\ used_rows st' = list_to_set tr.*1
    /\ used_cols st' = list_to_set tr.*2
    /\ Forall (fun rc => exists x, at2 X rc.1 rc.2 = Some x
                           /\ F.ltb (F.widen x) t = false) tr.
Proof.
  intros HM HN HX Hloop.
  apply match_loop_run in Hloop as (tr & Hrun & Hbreak & _).
  pose proof (match_inv_start M N X m HX) as Hinv.
  destruct (run_shape_inv M N HM HN t _ _ _ (proj1 Hinv) Hrun) as [(HX' & _) Hm].
  pose proof (pass_break_ordinary M N HM HN t st' HX' Hbreak) as Ht.
  destruct (run_match_inv M N HM HN t _ _ _ 0%nat Ht Hinv Hrun)
    as (_ & Hr & Hc & Hur & Huc & _).
  destruct (run_frame M N HM HN t X _ _ _ 0%nat Ht Hinv ltac:(done) Hrun)
    as [_ Hall].
  exists tr. rewrite Hm. simpl in *. split_and!; try done.
  - rewrite Hur. set_solver.
  - rewrite Huc. set_solver.
Qed.

Lemma true_positives_reach_threshold_witness :
  exists tr : list (nat * nat),
    true_positive (metrics (mark 0 0 (start [[F.one32]] no_metrics)))
    = true_positive no_metrics + Z.of_nat (length tr)
    /\ NoDup tr.*1 /\ NoDup tr.*2
    /\ used_rows (mark 0 0 (start [[F.one32]] no_metrics)) = list_to_set tr.*1
    /\ used_cols (mark 0 0 (start [[F.one32]] no_metrics)) = list_to_set tr.*2
    /\ Forall (fun rc => exists x, at2 [[F.one32]] rc.1 rc.2 = Some x
                           /\ F.ltb (F.widen x) F.half = false) tr.
Proof.
  apply (true_positives_reach_threshold 1 1 [[F.one32]] F.half no_metrics 2).
  - lia.
  - lia.
  - apply rect_1_1.
  - reflexivity.
Defined.

(** * More about the accounting of one group *)

Lemma unmatched_none (n : nat) : unmatched n ∅ = Z.of_nat n.
Proof. rewrite unmatched_size by set_solver. rewrite size_empty. lia. Qed.

(** The whole effect of the body of the [for] loop on the counters of the
    label. *)
Lemma process_group_done fuel t true_df pred_df m g :
  process_group fuel t true_df pred_df m = Done g ->
  exists n : nat,
    (n <= min (length true_df) (length pred_df))%nat
    /\ size (matched_rows g) = n /\ size (matched_cols g) = n
    /\ group_metrics g
       = {| total_true := total_true m + len true_df;
            total_pred := total_pred m + len pred_df;
            true_positive := true_positive m + Z.of_nat n;
            false_negative := false_negative m + (len true_df - Z.of_nat n);
            false_positive := false_positive m + (len pred_df - Z.of_nat n) |}.
Proof.
  unfold process_group.
  destruct (bool_decide (0 < len true_df) && bool_decide (len pred_df = 0)) eqn:Hc.
  - intros [= <-]. apply andb_true_iff in Hc as [_ Hp%bool_decide_eq_true].
    exists 0%nat. cbn [matched_rows matched_cols group_metrics].
    rewrite size_empty. split_and!; [lia|done|done|].
    unfold add_false_negative, add_totals. simpl. f_equal; lia.
  - destruct (match_loop _ _ _) as [st| |] eqn:Hloop; simpl; [|done..].
    intros [= <-]. cbn [matched_rows matched_cols group_metrics].
    pose proof (compute_iou_rect (map box true_df) (map box pred_df)) as HX.
    rewrite !length_map in HX.
    destruct fuel as [|fuel]; [done|].
    destruct (decide (0 < length true_df)%nat) as [HM|HM],
             (decide (0 < length pred_df)%nat) as [HN|HN].
    2-4: rewrite match_loop_empty in Hloop; [done|];
         simpl; apply nil_length_inv;
         rewrite (rect_length_join _ _ _ HX); nia.
    apply match_loop_run in Hloop as (tr & Hrun & Hbreak & _).
    pose proof (match_inv_start _ _ _ (add_totals (len true_df) (len pred_df) m) HX)
      as Hinv.
    destruct (run_shape_inv _ _ HM HN t _ _ _ (proj1 Hinv) Hrun)
      as [(HX' & Hur & Huc) Hm].
    pose proof (pass_break_ordinary _ _ HM HN t st HX' Hbreak) as Ht.
    destruct (run_match_inv _ _ HM HN t _ _ _ 0%nat Ht Hinv Hrun)
      as (Hinv' & _).
    pose proof (match_inv_bound _ _ _ _ Hinv') as [? ?].
    destruct Hinv' as (_ & Hsr & Hsc & _). simpl in Hsr, Hsc.
    exists (length tr). split_and!; [lia|done|done|].
    rewrite !unmatched_size, Hsr, Hsc, Hm by done. simpl.
    unfold len. f_equal; lia.
Qed.


(** ** When the body raises, and thresholds above 1 *)

Lemma len_pos {A} (l : list A) : l <> [] -> 0 < len l.
Proof. destruct l; [done|]. intros _. unfold len. simpl. lia. Qed.

Lemma process_group_empty_truth fuel t pred_df m :
  process_group (S fuel) t [] pred_df m = Raise ValueError.
Proof. reflexivity. Qed.

Lemma process_group_no_raise fuel t true_df pred_df m e :
  true_df <> [] -> process_group fuel t true_df pred_df m <> Raise e.
Proof.
  intros Hne. unfold process_group.
  destruct (bool_decide (0 < len true_df) && bool_decide (len pred_df = 0)) eqn:Hc;
    [done|].
  assert (0 < length true_df)%nat as HM by (destruct true_df; [done|simpl; lia]).
  assert (0 < length pred_df)%nat as HN.
  { pose proof (len_pos true_df Hne).
    apply andb_false_iff in Hc as [Hc|Hc]; apply bool_decide_eq_false in Hc;
      unfold len in *; lia. }
  pose proof (compute_iou_rect (map box true_df) (map box pred_df)) as HX.
  rewrite !length_map in HX.
  destruct (match_loop _ _ _) as [st|e'|] eqn:Hloop; simpl; [done| |done].
  by apply (match_loop_no_raise _ _ HM HN) in Hloop.
Qed.

Lemma widen_unit32 (x : F.float) : in_unit32 x -> F.leb (F.widen x) F.one = true.
Proof.
  destruct x as [[]|s| |[] m e]; try done. unfold in_unit32. intros [Hm He].
  destruct He as [He|[-> Heq]].
  - cbn [F.widen].
    pose proof (binary_round_rounded 53 1024 eq_refl false m e) as Hr.
    assert (Zdigits2 (Z.pos m) <= 24) as HD by (apply Zdigits2_le; lia).
    assert (fexp 53 1024 (Zdigits2 (Z.pos m) + e) <= -53) as HE.
    { unfold fexp, emin. lia. }
    simpl Zdigits2 in *.
    destruct (binary_round 53 1024 false m e) as [s|s| |s m' e'];
      unfold rounded in Hr.
    + by destruct Hr.
    + lia.
    + done.
    + destruct Hr as (-> & Hm' & He' & Hcarry & _).
      unfold F.leb, SFleb, F.one. rewrite compare_pos_finite.
      destruct (Z.compare_spec e' (-52)) as [Heq| |]; [|done|lia].
      rewrite (Pos2Z.inj m' 4503599627370496); [done|].
      rewrite Hcarry by lia. done.
  - assert (m = 8388608%positive) as -> by (change (2 ^ 23) with 8388608 in Heq; lia).
    reflexivity.
Qed.

Lemma above_one_first_pass (M N : nat) t st :
  (0 < M)%nat -> (0 < N)%nat -> rect M N (pairwise_iou st) ->
  (forall i j x, at2 (pairwise_iou st) i j = Some x -> in_unit32 x) ->
  F.ltb F.one t = true ->
  loop_pass t st = Done Break.
Proof.
  intros HM HN HX Hunit Ht.
  destruct (loop_pass_spec M N HM HN t st HX) as (r & c & v & _ & _ & Hv & _ & ->).
  rewrite (leb_ltb_trans (F.widen v) F.one t); [done| |done].
  by eapply widen_unit32, Hunit.
Qed.

(** With a threshold above 1 the first pass breaks. *)
Lemma process_group_above_one fuel t true_df pred_df m :
  true_df <> [] -> F.ltb F.one t = true ->
  exists g, process_group (S fuel) t true_df pred_df m = Done g
    /\ matched_rows g = ∅ /\ matched_cols g = ∅
    /\ group_metrics g
       = {| total_true := total_true m + len true_df;
            total_pred := total_pred m + len pred_df;
            true_positive := true_positive m;
            false_negative := false_negative m + len true_df;
            false_positive := false_positive m + len pred_df |}.
Proof.
  intros Hne Ht. unfold process_group.
  destruct (bool_decide (0 < len true_df) && bool_decide (len pred_df = 0)) eqn:Hc.
  - apply andb_true_iff in Hc as [_ Hp%bool_decide_eq_true].
    eexists. split; [reflexivity|]. split; [done|]. split; [done|]. simpl.
    unfold add_false_negative, add_totals. simpl. f_equal; lia.
  - assert (0 < length true_df)%nat as HM by (destruct true_df; [done|simpl; lia]).
    assert (0 < length pred_df)%nat as HN.
    { pose proof (len_pos true_df Hne).
      apply andb_false_iff in Hc as [Hc|Hc]; apply bool_decide_eq_false in Hc;
        unfold len in *; lia. }
    pose proof (compute_iou_rect (map box true_df) (map box pred_df)) as HX.
    rewrite !length_map in HX.
    cbn [match_loop].
    rewrite (above_one_first_pass _ _ t
               (start (compute_iou (map box true_df) (map box pred_df))
                  (add_totals (len true_df) (len pred_df) m)) HM HN HX);
      [|intros i j x Hx|done].
    + simpl. eexists. split; [reflexivity|]. split; [done|]. split; [done|].
      cbn [group_metrics used_rows used_cols start metrics].
      rewrite !unmatched_none. unfold add_false_positive, add_false_negative,
        add_totals, len. simpl. done.
    + simpl in Hx. rewrite compute_iou_lookup in Hx.
      destruct (_ !! i) as [a|]; [|done]. destruct (_ !! j) as [b|]; [|done].
      injection Hx as <-. apply iou_pair_in_unit.
Qed.

(** X10.  With a threshold above 1 (plus infinity included) nothing is
    matched: a group with ground truth adds its [M] ground-truth boxes to
    [false_negative] and its [N] predictions to [false_positive], and no
    true positive, after a single pass of the loop. *)
Theorem threshold_above_one_matches_nothing (fuel : nat) (t : F.float)
  (true_df pred_df : list Detection) (m : Metrics) :
  true_df <> [] -> F.ltb F.one t = true ->
  exists g, process_group (S fuel) t true_df pred_df m = Done g
    /\ matched_rows g = ∅ /\ matched_cols g = ∅
    /\ group_metrics g
       = {| total_true := total_true m + len true_df;
            total_pred := total_pred m + len pred_df;
            true_positive := true_positive m;
            false_negative := false_negative m + len true_df;
            false_positive := false_positive m + len pred_df |}.
Proof. apply process_group_above_one. Qed.

(** Scenario A with the threshold 2: the IoU 0.81 is below it. *)
Lemma threshold_above_one_matches_nothing_witness :
  exists g, process_group 1 (F.of_int 2) [cat_truth] [cat_pred] no_metrics = Done g
    /\ matched_rows g = ∅ /\ matched_cols g = ∅
    /\ group_metrics g
       = {| total_true := total_true no_metrics + len [cat_truth];
            total_pred := total_pred no_metrics + len [cat_pred];
            true_positive := true_positive no_metrics;
            false_negative := false_negative no_metrics + len [cat_truth];
            false_positive := false_positive no_metrics + len [cat_pred] |}.
Proof.
  apply (threshold_above_one_matches_nothing 0 (F.of_int 2) [cat_truth] [cat_pred]
           no_metrics).
  - discriminate.
  - reflexivity.
Defined.

(** * The groups of [groupby] *)

Lemma ascii_compare_lt (a b : Ascii.ascii) :
  Ascii.compare a b = Lt <-> (Ascii.N_of_ascii a < Ascii.N_of_ascii b)%N.
Proof. unfold Ascii.compare. apply N.compare_lt_iff. Qed.

Lemma ascii_compare_refl (a : Ascii.ascii) : Ascii.compare a a = Eq.
Proof. unfold Ascii.compare. apply N.compare_refl. Qed.

Lemma string_compare_refl (s : string) : String.compare s s = Eq.
Proof. induction s as [|a s IH]; simpl; [done|]. by rewrite ascii_compare_refl. Qed.

Lemma string_compare_lt_trans (s1 : string) : forall s2 s3,
  String.compare s1 s2 = Lt -> String.compare s2 s3 = Lt ->
  String.compare s1 s3 = Lt.
Proof.
  induction s1 as [|a s1 IH]; intros [|b s2] [|c s3]; simpl; try done.
  destruct (Ascii.compare a b) eqn:Hab; try done;
    destruct (Ascii.compare b c) eqn:Hbc; try done; intros H12 H23.
  - apply Ascii.compare_eq_iff in Hab as ->. rewrite Hbc. eauto.
  - apply Ascii.compare_eq_iff in Hab as ->. by rewrite Hbc.
  - apply Ascii.compare_eq_iff in Hbc as <-. by rewrite Hab.
  - apply ascii_compare_lt in Hab. apply ascii_compare_lt in Hbc.
    by rewrite (proj2 (ascii_compare_lt a c)) by (by eapply N.lt_trans).
Qed.

Lemma string_compare_gt (s1 s2 : string) :
  String.compare s1 s2 = Gt -> String.compare s2 s1 = Lt.
Proof. rewrite String.compare_antisym. by destruct (String.compare s2 s1). Qed.

Lemma cell_compare_refl (c : cell) : cell_compare c c = Eq.
Proof.
  destruct c; simpl; [apply Z.compare_refl|apply string_compare_refl|done].
Qed.

Lemma cell_compare_eq (a b : cell) : cell_compare a b = Eq -> a = b.
Proof.
  destruct a, b; simpl; try done.
  - by intros ->%Z.compare_eq.
  - by intros ->%String.compare_eq_iff.
Qed.

Lemma cell_compare_antisym (a b : cell) :
  cell_compare b a = CompOpp (cell_compare a b).
Proof.
  destruct a, b; simpl; try done.
  - apply Z.compare_antisym.
  - apply String.compare_antisym.
Qed.

Lemma cell_compare_lt_trans (a b c : cell) :
  cell_compare a b = Lt -> cell_compare b c = Lt -> cell_compare a c = Lt.
Proof.
  destruct a, b, c; simpl; try done.
  - rewrite !Z.compare_lt_iff. lia.
  - apply string_compare_lt_trans.
Qed.

Lemma key_lt_irrefl (k : key) : ~ key_lt k k.
Proof.
  unfold key_lt, key_ltb. by rewrite !cell_compare_refl.
Qed.

Lemma key_lt_trans (k1 k2 k3 : key) : key_lt k1 k2 -> key_lt k2 k3 -> key_lt k1 k3.
Proof.
  destruct k1 as [i1 l1], k2 as [i2 l2], k3 as [i3 l3].
  unfold key_lt, key_ltb. simpl.
  destruct (cell_compare i1 i2) eqn:H12; try done;
    destruct (cell_compare i2 i3) eqn:H23; try done.
  - apply cell_compare_eq in H12 as ->. apply cell_compare_eq in H23 as ->.
    rewrite cell_compare_refl.
    destruct (cell_compare l1 l2) eqn:Hl12; try done.
    destruct (cell_compare l2 l3) eqn:Hl23; try done.
    by rewrite (cell_compare_lt_trans _ _ _ Hl12 Hl23).
  - apply cell_compare_eq in H12 as ->. by rewrite H23.
  - apply cell_compare_eq in H23 as <-. by rewrite H12.
  - by rewrite (cell_compare_lt_trans _ _ _ H12 H23).
Qed.

Lemma key_lt_total (k1 k2 : key) : k1 <> k2 -> key_ltb k1 k2 = false -> key_lt k2 k1.
Proof.
  destruct k1 as [i1 l1], k2 as [i2 l2].
  unfold key_lt, key_ltb. simpl. intros Hne.
  rewrite (cell_compare_antisym i1 i2), (cell_compare_antisym l1 l2).
  destruct (cell_compare i1 i2) eqn:Hi; simpl; try done.
  apply cell_compare_eq in Hi as ->.
  destruct (cell_compare l1 l2) eqn:Hl; simpl; try done.
  apply cell_compare_eq in Hl as ->. done.
Qed.

Lemma elem_of_insert_key_2 (k k' : key) (ks : list key) :
  k' = k \/ k' ∈ ks -> k' ∈ insert_key k ks.
Proof.
  induction ks as [|k0 ks IH]; simpl.
  - intros [->|Hin]; [by left|by apply elem_of_nil in Hin].
  - destruct (decide (k = k0)) as [->|Hne].
    + intros [->|Hin]; [by left|done].
    + destruct (key_ltb k k0).
      * intros [->|Hin]; [by left|by right].
      * intros [->|[->|Hin]%elem_of_cons]; [right; auto|by left|right; auto].
Qed.

Lemma increasing_insert_key (k : key) (ks : list key) :
  increasing ks -> increasing (insert_key k ks).
Proof.
  induction ks as [|k0 ks IH]; simpl.
  - intros _. split; [constructor|done].
  - intros [Hk0 Hks]. destruct (decide (k = k0)) as [->|Hne]; [done|].
    destruct (key_ltb k k0) eqn:Hlt.
    + split; [|done]. constructor; [done|].
      eapply Forall_impl; [done|]. intros k' Hk'. by eapply key_lt_trans.
    + simpl. split; [|auto]. apply Forall_forall.
      intros k' [->|Hin]%elem_of_insert_key.
      * by apply key_lt_total.
      * by eapply Forall_forall in Hk0.
Qed.

Lemma increasing_NoDup (ks : list key) : increasing ks -> NoDup ks.
Proof.
  induction ks as [|k ks IH]; simpl; [constructor|].
  intros [Hk Hks]. constructor; [|auto].
  intros Hin. eapply Forall_forall in Hk; [|done]. by apply key_lt_irrefl in Hk.
Qed.

Lemma sorted_keys_increasing (ks : list key) :
  increasing (foldr insert_key [] ks).
Proof.
  induction ks as [|k ks IH]; simpl; [done|]. by apply increasing_insert_key.
Qed.

Lemma groupby_keys_increasing (df : list Detection) : increasing (groupby_keys df).
Proof. apply sorted_keys_increasing. Qed.

Lemma elem_of_sorted_keys_2 (k : key) (ks : list key) :
  k ∈ ks -> k ∈ foldr insert_key [] ks.
Proof.
  induction ks as [|k0 ks IH]; [done|]. simpl. intros Hk.
  apply elem_of_insert_key_2.
  apply elem_of_cons in Hk as [->|Hk]; [by left|right; auto].
Qed.

Lemma elem_of_groupby_keys_iff (k : key) (df : list Detection) :
  k ∈ groupby_keys df <-> present k /\ exists d, d ∈ df /\ key_of d = k.
Proof.
  split.
  - intros Hk. split; [by eapply groupby_keys_present|].
    apply elem_of_groupby_keys in Hk. rewrite map_fmap in Hk.
    apply list_elem_of_fmap in Hk as (d & -> & Hd). eauto.
  - intros (Hp & d & Hd & <-). unfold groupby_keys.
    apply elem_of_sorted_keys_2, list_elem_of_filter. split; [done|].
    rewrite map_fmap. apply list_elem_of_fmap. eauto.
Qed.

Lemma rows_of_nonempty (k : key) (df : list Detection) :
  k ∈ groupby_keys df -> rows_of k df <> [].
Proof.
  intros (Hp & d & Hd & Hk)%elem_of_groupby_keys_iff Hnil.
  assert (d ∈ rows_of k df) as Hin by (by apply list_elem_of_filter).
  rewrite Hnil in Hin. by apply elem_of_nil in Hin.
Qed.

(** X11.  The groups that [main] goes through: the (image, label) keys of
    the ground-truth rows that have both cells, each key exactly once, in
    strictly increasing order (by image name, then by label; integers by
    value, texts by code point); every group has at least one ground-truth
    row, and a ground-truth row is in the group of its key and in no
    other, or in no group at all if its image name or its label is
    missing. *)
Theorem groups_of_ground_truth (ground_truth : list Detection) :
  increasing (groupby_keys ground_truth)
  /\ NoDup (groupby_keys ground_truth)
  /\ (forall k, k ∈ groupby_keys ground_truth
        <-> present k /\ exists d, d ∈ ground_truth /\ key_of d = k)
  /\ (forall k, k ∈ groupby_keys ground_truth -> rows_of k ground_truth <> [])
  /\ (forall d k, d ∈ rows_of k ground_truth
        <-> d ∈ ground_truth /\ key_of d = k /\ present k).
Proof.
  split; [apply groupby_keys_increasing|].
  split; [apply increasing_NoDup, groupby_keys_increasing|].
  split; [intros k; apply elem_of_groupby_keys_iff|].
  split; [intros k; apply rows_of_nonempty|].
  intros d k. unfold rows_of. rewrite list_elem_of_filter. tauto.
Qed.

(** Images 9 and 10 with integer names come in this order, the images
    "9" and "10" of a column of texts in the other; a row without label is
    in no group. *)
Example groupby_order_example :
  groupby_keys
    [ {| image_name := Int 10; box := mkbox 0 0 1 1; label := Text "cat";
         score := F.one |};
      {| image_name := Int 9; box := mkbox 0 0 1 1; label := Text "cat";
         score := F.one |};
      {| image_name := Int 9; box := mkbox 0 0 1 1; label := Missing;
         score := F.one |} ]
  = [(Int 9, Text "cat"); (Int 10, Text "cat")]
  /\ groupby_keys [row "10" 0 0 1 1 "cat" F.one; row "9" 0 0 1 1 "cat" F.one]
     = [(Text "10", Text "cat"); (Text "9", Text "cat")].
Proof. split; reflexivity. Qed.

(** * The counters of the whole run *)

Lemma acc_get_set_eq l m acc : acc_get l (acc_set l m acc) = m.
Proof.
  induction acc as [|[l' m'] acc IH]; simpl.
  - by rewrite decide_True.
  - destruct (decide (l = l')) as [->|Hne]; simpl.
    + by rewrite decide_True.
    + by rewrite decide_False.
Qed.

Lemma acc_get_set_ne l l' m acc :
  l <> l' -> acc_get l' (acc_set l m acc) = acc_get l' acc.
Proof.
  intros Hne. induction acc as [|[l0 m0] acc IH]; simpl.
  - by rewrite decide_False.
  - destruct (decide (l = l0)) as [->|Hne0]; simpl.
    + by rewrite !decide_False.
    + destruct (decide (l' = l0)); [done|]. apply IH.
Qed.

Lemma acc_set_labels l m acc :
  (acc_set l m acc).*1 = if decide (l ∈ acc.*1) then acc.*1 else acc.*1 ++ [l].
Proof.
  induction acc as [|[l0 m0] acc IH]; [done|]. cbn [acc_set fmap list_fmap fst].
  destruct (decide (l = l0)) as [->|Hne]; cbn [fmap list_fmap fst].
  - rewrite decide_True; [done|]. by left.
  - idtac.
    fold (fmap (M:=list) (@fst string Metrics)). rewrite IH.
    destruct (decide (l ∈ acc.*1)) as [Hin|Hin].
    + rewrite decide_True; [done|]. by right.
    + rewrite decide_False; [done|]. by intros [?|?]%elem_of_cons.
Qed.

Lemma acc_get_elem l acc : l ∈ acc.*1 -> (l, acc_get l acc) ∈ acc.
Proof.
  induction acc as [|[l0 m0] acc IH]; simpl.
  - by intros ?%elem_of_nil.
  - destruct (decide (l = l0)) as [->|Hne]; [by left|].
    intros [?|Hin]%elem_of_cons; [done|]. right. auto.
Qed.

Section Counting.
Context {A : Type}.

Lemma length_filter_or (P Q R : A -> Prop)
  `{!forall x, Decision (P x), !forall x, Decision (Q x), !forall x, Decision (R x)}
  (l : list A) :
  (forall x, R x <-> P x \/ Q x) -> (forall x, P x -> Q x -> False) ->
  length (filter R l) = (length (filter P l) + length (filter Q l))%nat.
Proof.
  intros HR Hdisj. induction l as [|x l IH]; [done|].
  rewrite !filter_cons.
  destruct (decide (R x)) as [Hr|Hr], (decide (P x)) as [Hp|Hp],
    (decide (Q x)) as [Hq|Hq]; simpl; rewrite IH; try lia.
  - by destruct (Hdisj x).
  - apply HR in Hr as [?|?]; done.
  - destruct Hr. apply HR. auto.
  - destruct Hr. apply HR. auto.
  - destruct Hr. apply HR. auto.
Qed.

Lemma filter_iff_in (P Q : A -> Prop)
  `{!forall x, Decision (P x), !forall x, Decision (Q x)} (l : list A) :
  (forall x, x ∈ l -> P x <-> Q x) -> filter P l = filter Q l.
Proof.
  induction l as [|x l IH]; intros HPQ; [done|].
  rewrite !filter_cons.
  assert (filter P l = filter Q l) as -> by (apply IH; intros; apply HPQ; by right).
  pose proof (HPQ x ltac:(by left)).
  destruct (decide (P x)), (decide (Q x)); tauto.
Qed.
End Counting.

Lemma rows_in_nil l df : rows_in l [] df = [].
Proof.
  unfold rows_in. induction df as [|d df IH]; [done|].
  rewrite filter_cons_False; [done|]. intros [_ Hin]. by apply elem_of_nil in Hin.
Qed.

(** One more group: its rows join those of its label. *)
Lemma rows_in_snoc l ks k df :
  k ∉ ks -> present k ->
  len (rows_in l (ks ++ [k]) df)
  = len (rows_in l ks df) + (if decide (k.2 = l) then len (rows_of k df) else 0).
Proof.
  intros Hk Hp. rewrite (rows_of_present k df Hp). unfold len, rows_in.
  destruct (decide (k.2 = l)) as [Hl|Hl].
  - rewrite <- Nat2Z.inj_add. f_equal. apply length_filter_or.
    + intros d. rewrite elem_of_app, list_elem_of_singleton. split.
      * intros [? [?|?]]; auto.
      * intros [[? ?]|Hd]; [auto|]. split; [|auto]. by rewrite <- Hl, <- Hd.
    + intros d [_ Hin] Heq. by rewrite Heq in Hin.
  - rewrite Z.add_0_r. do 2 f_equal. apply list_filter_iff. intros d.
    rewrite elem_of_app, list_elem_of_singleton. split.
    + intros [Hd [?|Heq]]; [done|]. destruct Hl. by rewrite <- Hd, <- Heq.
    + intros [? ?]; auto.
Qed.

Lemma labels_in_order_snoc ks k :
  labels_in_order (ks ++ [k]) = add_label (labels_in_order ks) k.
Proof. unfold labels_in_order. by rewrite fold_left_app. Qed.

Lemma fold_accumulate_not_done fuel t gt det ks (o : outcome AccMetrics) :
  (forall acc, o <> Done acc) ->
  fold_left (accumulate_group fuel t gt det) ks o = o.
Proof.
  revert o. induction ks as [|k ks IH]; intros o Ho; [done|]. simpl.
  assert (accumulate_group fuel t gt det o k = o) as ->; [|by apply IH].
  destruct o as [acc| |]; [by destruct (Ho acc)|done..].
Qed.

Lemma balanced_no_metrics : balanced no_metrics.
Proof. unfold balanced. simpl. lia. Qed.

(** The step of the accumulation keeps [acc_inv]. *)
Lemma accumulate_group_inv fuel t gt det ks k acc acc' :
  k ∉ ks -> present k -> acc_inv gt det ks acc ->
  accumulate_group fuel t gt det (Done acc) k = Done acc' ->
  acc_inv gt det (ks ++ [k]) acc'.
Proof.
  intros Hk Hp [Hlabels Hinv]. unfold accumulate_group. simpl.
  destruct (process_group _ _ _ _ _) as [g| |] eqn:Hg; simpl; [|done..].
  intros [= <-].
  destruct (process_group_done _ _ _ _ _ _ Hg) as (n & Hn & _ & _ & Hm).
  split.
  - rewrite acc_set_labels, labels_in_order_snoc, Hlabels. done.
  - intros l. rewrite !rows_in_snoc by done.
    destruct (decide (k.2 = l)) as [<-|Hne].
    + rewrite acc_get_set_eq, Hm. simpl.
      destruct (Hinv k.2) as (Htt & Htp & Hb1 & Hb2 & ? & ? & ?).
      unfold balanced. simpl. unfold len in *. lia.
    + rewrite acc_get_set_ne by done.
      destruct (Hinv l) as (Htt & Htp & Hb). rewrite !Z.add_0_r. done.
Qed.

Lemma fold_accumulate_inv fuel t gt det ks : forall seen acc acc',
  NoDup (seen ++ ks) -> Forall present ks -> acc_inv gt det seen acc ->
  fold_left (accumulate_group fuel t gt det) ks (Done acc) = Done acc' ->
  acc_inv gt det (seen ++ ks) acc'.
Proof.
  induction ks as [|k ks IH]; intros seen acc acc' Hnd Hps Hinv Hfold.
  - simpl in Hfold. injection Hfold as <-. by rewrite app_nil_r.
  - cbn [fold_left] in Hfold.
    destruct (accumulate_group fuel t gt det (Done acc) k) as [acc1| |] eqn:Hstep.
    2-3: rewrite fold_accumulate_not_done in Hfold by done; done.
    replace (seen ++ k :: ks) with ((seen ++ [k]) ++ ks) in *
      by (by rewrite <- app_assoc).
    apply Forall_cons in Hps as [Hp Hps].
    apply (IH (seen ++ [k]) acc1); [done|done| |done].
    eapply accumulate_group_inv; [|done..].
    apply NoDup_app in Hnd as (Hnd & _ & _).
    apply NoDup_app in Hnd as (_ & Hdisj & _).
    intros Hin. apply (Hdisj k Hin). by left.
Qed.

Lemma accumulate_acc_inv fuel t gt det acc :
  accumulate fuel t gt det = Done acc ->
  acc_inv gt det (groupby_keys gt) acc.
Proof.
  intros Hacc.
  apply (fold_accumulate_inv fuel t gt det (groupby_keys gt) [] [] acc).
  - apply increasing_NoDup, groupby_keys_increasing.
  - apply Forall_forall. intros k. apply groupby_keys_present.
  - split; [done|]. intros l. rewrite !rows_in_nil. simpl.
    split; [done|]. split; [done|]. apply balanced_no_metrics.
  - done.
Qed.

(** X12.  The counters when all groups are done.  For every label:
    [total_true] is the number of ground-truth rows with that label and an
    image name; [total_pred] is the number of prediction rows with that
    label whose image name and label are those of some ground-truth row
    (same type, same value); true positives and false negatives make up
    [total_true], true positives and false positives make up
    [total_pred], and no counter is negative.  Rows with a missing image
    name or label are counted nowhere. *)
Theorem counters_of_the_run (fuel : nat) (t : F.float)
  (ground_truth detection_results : list Detection) (acc : AccMetrics)
  (l : cell) :
  accumulate fuel t ground_truth detection_results = Done acc ->
  total_true (acc_get l acc)
  = len (filter (fun d => label d = l /\ present (key_of d)) ground_truth)
  /\ total_pred (acc_get l acc)
     = len (filter (fun d => label d = l /\ present (key_of d)
                             /\ key_of d ∈ map key_of ground_truth)
                   detection_results)
  /\ true_positive (acc_get l acc) + false_negative (acc_get l acc)
     = total_true (acc_get l acc)
  /\ true_positive (acc_get l acc) + false_positive (acc_get l acc)
     = total_pred (acc_get l acc)
  /\ 0 <= true_positive (acc_get l acc)
  /\ 0 <= false_negative (acc_get l acc)
  /\ 0 <= false_positive (acc_get l acc).
Proof.
  intros Hacc. destruct (accumulate_acc_inv _ _ _ _ _ Hacc) as [_ Hinv].
  destruct (Hinv l) as (Htt & Htp & Hb1 & Hb2 & H1 & H2 & H3).
  split_and!; try done.
  - rewrite Htt. unfold rows_in. f_equal. apply filter_iff_in. intros d Hd.
    split.
    + intros [Hl Hk]. split; [done|]. by eapply groupby_keys_present.
    + intros [Hl Hp]. split; [done|]. apply elem_of_groupby_keys_iff. eauto.
  - rewrite Htp. unfold rows_in. f_equal. apply list_filter_iff. intros d.
    split.
    + intros [Hl Hk]. split; [done|].
      split; [by eapply groupby_keys_present|by apply elem_of_groupby_keys].
    + intros (Hl & Hp & Hk). split; [done|].
      rewrite map_fmap in Hk. apply list_elem_of_fmap in Hk as (d' & Hd' & Hin).
      apply elem_of_groupby_keys_iff. split; [done|eauto].
Qed.

(** Image 1 with a box of label 9 and a box without label in the ground
    truth; the prediction has the label "9" of a column of texts, which is
    not the number 9. *)
Lemma counters_of_the_run_witness :
  let gt := [numbered 9 10 10 50 50 F.one; unlabelled 0 0 5 5 F.one] in
  let det := [texted "9" 10 10 50 50 score_09] in
  let acc := [(Int 9,
               {| total_true := 1; total_pred := 0; true_positive := 0;
                  false_negative := 1; false_positive := 0 |})] in
  total_true (acc_get (Int 9) acc)
  = len (filter (fun d => label d = Int 9 /\ present (key_of d)) gt)
  /\ total_pred (acc_get (Int 9) acc)
     = len (filter (fun d => label d = Int 9 /\ present (key_of d)
                             /\ key_of d ∈ map key_of gt) det)
  /\ true_positive (acc_get (Int 9) acc) + false_negative (acc_get (Int 9) acc)
     = total_true (acc_get (Int 9) acc)
  /\ true_positive (acc_get (Int 9) acc) + false_positive (acc_get (Int 9) acc)
     = total_pred (acc_get (Int 9) acc)
  /\ 0 <= true_positive (acc_get (Int 9) acc)
  /\ 0 <= false_negative (acc_get (Int 9) acc)
  /\ 0 <= false_positive (acc_get (Int 9) acc).
Proof.
  intros gt det acc.
  apply (counters_of_the_run 1 F.half gt det acc (Int 9)).
  reflexivity.
Defined.

(** * The whole run: [main] from the two data frames to the report *)

(** ** The final loop (lines 99-108) *)

Lemma report_cons l m acc :
  report ((l, m) :: acc)
  = s ← label_scores m; rest ← report acc; Done ((l, s) :: rest).
Proof. reflexivity. Qed.

Lemma report_labels acc : forall scores,
  report acc = Done scores -> scores.*1 = acc.*1.
Proof.
  induction acc as [|[l m] acc IH]; intros scores.
  - by intros [= <-].
  - rewrite report_cons.
    destruct (label_scores m) as [s| |]; [|done..].
    destruct (report acc) as [rest| |]; [|done..].
    intros [= <-]. cbn [fmap list_fmap fst]. f_equal. by apply IH.
Qed.

Lemma report_raises acc e : report acc = Raise e -> e = ZeroDivisionError.
Proof.
  induction acc as [|[l m] acc IH]; [done|]. rewrite report_cons.
  destruct (label_scores_outcome m) as [->|[s ->]].
  - by intros [= <-].
  - destruct (report acc) as [rest|e'|]; [done| |done].
    intros [= <-]. by apply IH.
Qed.

Lemma report_no_timeout acc : report acc <> Timeout.
Proof.
  induction acc as [|[l m] acc IH]; [done|]. rewrite report_cons.
  destruct (label_scores_outcome m) as [->|[s ->]]; [done|].
  by destruct (report acc).
Qed.

Lemma report_member_raises acc l m :
  (l, m) ∈ acc -> label_scores m = Raise ZeroDivisionError ->
  report acc = Raise ZeroDivisionError.
Proof.
  intros Hin Hm. induction acc as [|[l0 m0] acc IH].
  - by apply elem_of_nil in Hin.
  - rewrite report_cons. apply elem_of_cons in Hin as [[= <- <-]|Hin].
    + by rewrite Hm.
    + destruct (label_scores_outcome m0) as [->|[s ->]]; [done|].
      by rewrite (IH Hin).
Qed.

(** Without a true positive both quotients are zero (if they exist), and
    so is their sum. *)
Lemma label_scores_no_true_positive (m : Metrics) :
  true_positive m = 0 -> label_scores m = Raise ZeroDivisionError.
Proof.
  intros Htp. unfold label_scores. rewrite Htp.
  destruct (int_truediv_outcome 0 (0 + false_positive m)) as [[_ ->]|[Hp ->]];
    [done|].
  destruct (int_truediv_outcome 0 (0 + false_negative m)) as [[_ ->]|[Hr ->]];
    [done|].
  destruct (exact_int_div_zero _ Hp) as [sp ->].
  destruct (exact_int_div_zero _ Hr) as [sr ->].
  by destruct sp, sr.
Qed.

(** ** The labels of the report *)

Lemma fold_add_label_spec ks : forall ls,
  NoDup ls ->
  NoDup (fold_left add_label ks ls)
  /\ forall l, l ∈ fold_left add_label ks ls
               <-> l ∈ ls \/ exists k, k ∈ ks /\ k.2 = l.
Proof.
  induction ks as [|k ks IH]; intros ls Hnd.
  - split; [done|]. intros l. split; [auto|].
    intros [?|(k & Hk & _)]; [done|]. by apply elem_of_nil in Hk.
  - cbn [fold_left].
    assert (NoDup (add_label ls k)) as Hnd'.
    { unfold add_label. destruct (decide (k.2 ∈ ls)); [done|].
      apply NoDup_app. split_and!; [done| |apply NoDup_singleton].
      intros x Hx ->%list_elem_of_singleton. done. }
    destruct (IH _ Hnd') as [Hres Hmem]. split; [done|].
    intros l. rewrite Hmem. unfold add_label.
    destruct (decide (k.2 ∈ ls)) as [Hin|Hin].
    + split.
      * intros [?|(k' & Hk' & <-)]; [auto|]. right. exists k'. split; [by right|done].
      * intros [?|(k' & [->|Hk']%elem_of_cons & <-)]; [auto..|].
        right. eauto.
    + rewrite elem_of_app, list_elem_of_singleton. split.
      * intros [[?| ->]|(k' & Hk' & <-)]; [auto| |].
        -- right. exists k. split; [by left|done].
        -- right. exists k'. split; [by right|done].
      * intros [?|(k' & [->|Hk']%elem_of_cons & <-)]; [auto..|].
        right. eauto.
Qed.

Lemma labels_of_ground_truth (gt : list Detection) :
  NoDup (labels_in_order (groupby_keys gt))
  /\ forall l, l ∈ labels_in_order (groupby_keys gt)
               <-> exists d, d ∈ gt /\ label d = l /\ present (key_of d).
Proof.
  destruct (fold_add_label_spec (groupby_keys gt) [] (NoDup_nil_2)) as [Hnd Hmem].
  split; [done|]. intros l. unfold labels_in_order. rewrite Hmem. split.
  - intros [Hl|(k & Hk & <-)]; [by apply elem_of_nil in Hl|].
    apply elem_of_groupby_keys_iff in Hk as (Hp & d & Hd & <-). eauto.
  - intros (d & Hd & <- & Hp). right. exists (key_of d). split; [|done].
    apply elem_of_groupby_keys_iff. eauto.
Qed.

(** ** The groups one after the other *)

Lemma process_group_completes fuel t true_df pred_df m :
  ordinary t -> true_df <> [] ->
  (min (length true_df) (length pred_df) < fuel)%nat ->
  exists g, process_group fuel t true_df pred_df m = Done g.
Proof.
  intros Ht Hne Hfuel. unfold process_group.
  destruct (bool_decide (0 < len true_df) && bool_decide (len pred_df = 0)) eqn:Hc;
    [eauto|].
  assert (0 < length true_df)%nat as HM by (destruct true_df; [done|simpl; lia]).
  assert (0 < length pred_df)%nat as HN.
  { pose proof (len_pos true_df Hne).
    apply andb_false_iff in Hc as [Hc|Hc]; apply bool_decide_eq_false in Hc;
      unfold len in *; lia. }
  pose proof (compute_iou_rect (map box true_df) (map box pred_df)) as HX.
  rewrite !length_map in HX.
  destruct (match_loop_ordinary _ _ HM HN t _
              (add_totals (len true_df) (len pred_df) m) Ht HX)
    as (tr & st' & Hlen & _ & Hloop & _).
  rewrite (match_loop_mono _ _ fuel _ _ Hloop) by lia. simpl. eauto.
Qed.

(** X8.  The whole effect of the body of the [for] loop on the counters
    of its label, for a threshold that is neither a NaN nor minus
    infinity.  On a group with [M >= 1] ground-truth rows and [N]
    prediction rows the body completes, the loop having made at most
    [min M N + 1] passes, and it has added [M] to [total_true], [N] to
    [total_pred], [n] to [true_positive], [M - n] to [false_negative] and
    [N - n] to [false_positive], where [n <= min M N] is the number of
    matched rows, and of matched columns. *)
Theorem group_contribution (fuel : nat) (t : F.float)
  (true_df pred_df : list Detection) (m : Metrics) :
  ordinary t -> true_df <> [] ->
  (min (length true_df) (length pred_df) < fuel)%nat ->
  exists (g : GroupResult) (n : nat),
    process_group fuel t true_df pred_df m = Done g
    /\ (n <= min (length true_df) (length pred_df))%nat
    /\ size (matched_rows g) = n /\ size (matched_cols g) = n
    /\ group_metrics g
       = {| total_true := total_true m + len true_df;
            total_pred := total_pred m + len pred_df;
            true_positive := true_positive m + Z.of_nat n;
            false_negative := false_negative m + (len true_df - Z.of_nat n);
            false_positive := false_positive m + (len pred_df - Z.of_nat n) |}.
Proof.
  intros Ht Hne Hfuel.
  destruct (process_group_completes fuel t true_df pred_df m Ht Hne Hfuel)
    as [g Hg].
  destruct (process_group_done _ _ _ _ _ _ Hg) as (n & Hn).
  by exists g, n.
Qed.

(** Two ground-truth boxes and three predictions of one image and label:
    one pair is matched (IoU 1.0), the IoU of the others is below 0.5. *)
Lemma group_contribution_witness :
  exists (g : GroupResult) (n : nat),
    process_group 3 F.half
      [row "a" 0 0 10 10 "cat" F.one; row "a" 20 20 30 30 "cat" F.one]
      [row "a" 0 0 10 12 "cat" score_08; row "a" 0 0 10 10 "cat" score_09;
       row "a" 50 50 60 60 "cat" score_08] no_metrics = Done g
    /\ (n <= min 2 3)%nat
    /\ size (matched_rows g) = n /\ size (matched_cols g) = n
    /\ group_metrics g
       = {| total_true := total_true no_metrics + 2;
            total_pred := total_pred no_metrics + 3;
            true_positive := true_positive no_metrics + Z.of_nat n;
            false_negative := false_negative no_metrics + (2 - Z.of_nat n);
            false_positive := false_positive no_metrics + (3 - Z.of_nat n) |}.
Proof.
  apply (group_contribution 3 F.half
           [row "a" 0 0 10 10 "cat" F.one; row "a" 20 20 30 30 "cat" F.one]
           [row "a" 0 0 10 12 "cat" score_08; row "a" 0 0 10 10 "cat" score_09;
            row "a" 50 50 60 60 "cat" score_08] no_metrics).
  - reflexivity.
  - discriminate.
  - simpl. lia.
Defined.

Lemma process_group_hangs fuel t true_df pred_df m :
  (forall x, F.ltb x t = false) -> true_df <> [] -> pred_df <> [] ->
  process_group fuel t true_df pred_df m = Timeout.
Proof.
  intros Ht Hne Hpred. unfold process_group.
  assert (0 < length true_df)%nat as HM by (destruct true_df; [done|simpl; lia]).
  assert (0 < length pred_df)%nat as HN by (destruct pred_df; [done|simpl; lia]).
  rewrite andb_false_intro2
    by (apply bool_decide_eq_false; unfold len; lia).
  pose proof (compute_iou_rect (map box true_df) (map box pred_df)) as HX.
  rewrite !length_map in HX.
  by rewrite (match_loop_forever _ _ HM HN t fuel Ht).
Qed.

Section Groups.
Variables (fuel : nat) (t : F.float) (gt det : list Detection).

Lemma accumulate_group_no_raise k o e :
  rows_of k gt <> [] -> o <> Raise e ->
  accumulate_group fuel t gt det o k <> Raise e.
Proof.
  intros Hk Ho. unfold accumulate_group.
  destruct o as [a|e'|]; [|done..]. cbn [mbind outcome_bind].
  pose proof (process_group_no_raise fuel t (rows_of k gt) (rows_of k det)
                (acc_get k.2 a) e Hk) as Hg.
  destruct (process_group _ _ _ _ _) as [g|e'|]; cbn [mbind outcome_bind];
    [done| |done].
  intros [= ->]. by destruct Hg.
Qed.

Lemma fold_accumulate_no_raise ks e :
  (forall k, k ∈ ks -> rows_of k gt <> []) ->
  forall o, o <> Raise e ->
  fold_left (accumulate_group fuel t gt det) ks o <> Raise e.
Proof.
  induction ks as [|k ks IH]; intros Hks o Ho; [done|]. cbn [fold_left].
  apply IH.
  - intros k' Hk'. apply Hks. by right.
  - apply accumulate_group_no_raise; [|done]. apply Hks. by left.
Qed.

Lemma fold_accumulate_done ks :
  (forall k m, k ∈ ks ->
     exists g, process_group fuel t (rows_of k gt) (rows_of k det) m = Done g) ->
  forall acc, exists acc',
    fold_left (accumulate_group fuel t gt det) ks (Done acc) = Done acc'.
Proof.
  induction ks as [|k ks IH]; intros Hks acc; [by exists acc|]. cbn [fold_left].
  destruct (Hks k (acc_get k.2 acc)) as [g Hg]; [by left|].
  unfold accumulate_group at 2. cbn [mbind outcome_bind]. rewrite Hg.
  apply IH. intros k' m Hk'. apply Hks. by right.
Qed.

Lemma fold_accumulate_timeout ks k :
  k ∈ ks -> (forall k', k' ∈ ks -> rows_of k' gt <> []) ->
  (forall m, process_group fuel t (rows_of k gt) (rows_of k det) m = Timeout) ->
  forall acc, fold_left (accumulate_group fuel t gt det) ks (Done acc) = Timeout.
Proof.
  intros Hk Hks Hhang. induction ks as [|k0 ks IH]; intros acc.
  - by apply elem_of_nil in Hk.
  - cbn [fold_left].
    destruct (accumulate_group fuel t gt det (Done acc) k0) as [acc1|e|] eqn:Hstep.
    + apply elem_of_cons in Hk as [->|Hk].
      * unfold accumulate_group in Hstep. cbn [mbind outcome_bind] in Hstep.
        by rewrite Hhang in Hstep.
      * apply IH; [done|]. intros k' Hk'. apply Hks. by right.
    + exfalso. revert Hstep. apply accumulate_group_no_raise; [|done].
      apply Hks. by left.
    + by apply fold_accumulate_not_done.
Qed.

Lemma fold_accumulate_no_match ks :
  (forall k m g, k ∈ ks ->
     process_group fuel t (rows_of k gt) (rows_of k det) m = Done g ->
     true_positive (group_metrics g) = true_positive m) ->
  forall acc acc',
    (forall l, true_positive (acc_get l acc) = 0) ->
    fold_left (accumulate_group fuel t gt det) ks (Done acc) = Done acc' ->
    forall l, true_positive (acc_get l acc') = 0.
Proof.
  induction ks as [|k ks IH]; intros Hks acc acc' Hacc Hfold.
  - by injection Hfold as <-.
  - cbn [fold_left] in Hfold.
    destruct (accumulate_group fuel t gt det (Done acc) k) as [acc1| |] eqn:Hstep.
    2-3: rewrite fold_accumulate_not_done in Hfold by done; done.
    apply (IH (fun k' m g Hk' => Hks k' m g (proj2 (elem_of_cons _ _ _) (or_intror Hk')))
              acc1 acc'); [|done].
    unfold accumulate_group in Hstep. cbn [mbind outcome_bind] in Hstep.
    destruct (process_group _ _ _ _ _) as [g| |] eqn:Hg; [|done..].
    injection Hstep as <-. intros l.
    destruct (decide (k.2 = l)) as [<-|Hne].
    + rewrite acc_get_set_eq.
      rewrite (Hks k _ g (proj2 (elem_of_cons _ _ _) (or_introl eq_refl)) Hg).
      apply Hacc.
    + rewrite acc_get_set_ne by done. apply Hacc.
Qed.
End Groups.

Lemma groups_have_truth gt k : k ∈ groupby_keys gt -> rows_of k gt <> [].
Proof. apply rows_of_nonempty. Qed.

Lemma accumulate_no_raise fuel t gt det e : accumulate fuel t gt det <> Raise e.
Proof.
  unfold accumulate. apply fold_accumulate_no_raise; [|done].
  intros k. apply rows_of_nonempty.
Qed.

Lemma accumulate_completes fuel t gt det :
  ordinary t -> (min (length gt) (length det) < fuel)%nat ->
  exists acc, accumulate fuel t gt det = Done acc.
Proof.
  intros Ht Hfuel. unfold accumulate. apply fold_accumulate_done.
  intros k m Hk. apply process_group_completes; [done|by apply rows_of_nonempty|].
  unfold rows_of.
  pose proof (length_filter (fun d => key_of d = k /\ present k) gt).
  pose proof (length_filter (fun d => key_of d = k /\ present k) det). lia.
Qed.

Lemma main_raise fuel t gt det e :
  main fuel t gt det = Raise e ->
  e = ZeroDivisionError
  /\ exists acc, accumulate fuel t gt det = Done acc
                 /\ report acc = Raise ZeroDivisionError.
Proof.
  unfold main. destruct (accumulate fuel t gt det) as [acc|e'|] eqn:Hacc.
  - cbn [mbind outcome_bind]. intros Hrep.
    pose proof (report_raises _ _ Hrep) as ->. eauto.
  - by apply accumulate_no_raise in Hacc.
  - done.
Qed.

Lemma main_done fuel t gt det scores :
  main fuel t gt det = Done scores ->
  exists acc, accumulate fuel t gt det = Done acc /\ report acc = Done scores.
Proof.
  unfold main. destruct (accumulate fuel t gt det) as [acc|e'|]; [|done..].
  eauto.
Qed.

Lemma filter_none {A} (P : A -> Prop) `{!forall x, Decision (P x)} (l : list A) :
  (forall x, x ∈ l -> ~ P x) -> filter P l = [].
Proof.
  induction l as [|x l IH]; intros HP; [done|].
  rewrite filter_cons_False by (apply HP; by left).
  apply IH. intros y Hy. apply HP. by right.
Qed.

(** A label of the ground truth without a true positive stops the report. *)
Lemma main_no_true_positive fuel t gt det acc d :
  accumulate fuel t gt det = Done acc -> d ∈ gt -> present (key_of d) ->
  true_positive (acc_get (label d) acc) = 0 ->
  main fuel t gt det = Raise ZeroDivisionError.
Proof.
  intros Hacc Hd Hp Htp. unfold main. rewrite Hacc. cbn [mbind outcome_bind].
  apply (report_member_raises _ (label d) (acc_get (label d) acc)).
  - apply acc_get_elem.
    destruct (accumulate_acc_inv _ _ _ _ _ Hacc) as [-> _].
    apply labels_of_ground_truth. eauto.
  - by apply label_scores_no_true_positive.
Qed.

(** X13.  With a threshold that is neither a NaN nor minus infinity the
    run ends: when the loop is allowed more passes than there are
    ground-truth rows, or than there are prediction rows, all groups are
    gone through, and the program then either prints its report or stops
    with [ZeroDivisionError] in the final loop. *)
Theorem ordinary_threshold_run_ends (fuel : nat) (t : F.float)
  (ground_truth detection_results : list Detection) :
  ordinary t ->
  (min (length ground_truth) (length detection_results) < fuel)%nat ->
  exists acc, accumulate fuel t ground_truth detection_results = Done acc
    /\ (main fuel t ground_truth detection_results = Raise ZeroDivisionError
        \/ exists scores, main fuel t ground_truth detection_results = Done scores).
Proof.
  intros Ht Hfuel.
  destruct (accumulate_completes fuel t ground_truth detection_results Ht Hfuel)
    as [acc Hacc].
  exists acc. split; [done|]. unfold main. rewrite Hacc. cbn [mbind outcome_bind].
  destruct (report acc) as [scores|e|] eqn:Hrep.
  - eauto.
  - left. by rewrite (report_raises _ _ Hrep).
  - by apply report_no_timeout in Hrep.
Qed.

Lemma ordinary_threshold_run_ends_witness :
  exists acc, accumulate 2 F.half [cat_truth] [cat_pred] = Done acc
    /\ (main 2 F.half [cat_truth] [cat_pred] = Raise ZeroDivisionError
        \/ exists scores, main 2 F.half [cat_truth] [cat_pred] = Done scores).
Proof.
  apply (ordinary_threshold_run_ends 2 F.half [cat_truth] [cat_pred]).
  - reflexivity.
  - simpl. lia.
Defined.

(** X14.  With a threshold that is a NaN or minus infinity the program
    never ends as soon as one prediction row shares its image and label
    (neither of them missing) with a ground-truth row: whatever the number
    of passes allowed, the matching loop of that group has not ended. *)
Theorem other_threshold_run_hangs (fuel : nat) (t : F.float)
  (ground_truth detection_results : list Detection) (d p : Detection) :
  ~ ordinary t -> d ∈ ground_truth -> p ∈ detection_results ->
  key_of p = key_of d -> present (key_of d) ->
  main fuel t ground_truth detection_results = Timeout.
Proof.
  intros Ht Hd Hp Hkey Hpres.
  assert (forall x, F.ltb x t = false) as Hlt.
  { intros x. destruct (F.ltb x t) eqn:Hx; [|done].
    destruct Ht. by apply (ltb_ordinary x). }
  unfold main, accumulate.
  rewrite (fold_accumulate_timeout fuel t ground_truth detection_results
             (groupby_keys ground_truth) (key_of d)); [done| | |].
  - apply elem_of_groupby_keys_iff. eauto.
  - intros k. apply rows_of_nonempty.
  - intros m. apply process_group_hangs; [done| |].
    + intros Hnil. assert (d ∈ rows_of (key_of d) ground_truth) as Hin
        by (by apply list_elem_of_filter).
      rewrite Hnil in Hin. by apply elem_of_nil in Hin.
    + intros Hnil. assert (p ∈ rows_of (key_of d) detection_results) as Hin
        by (by apply list_elem_of_filter).
      rewrite Hnil in Hin. by apply elem_of_nil in Hin.
Qed.

Lemma other_threshold_run_hangs_witness :
  main 5 F.nan [cat_truth] [cat_pred] = Timeout.
Proof.
  apply (other_threshold_run_hangs 5 F.nan [cat_truth] [cat_pred]
           cat_truth cat_pred).
  - discriminate.
  - by left.
  - by left.
  - reflexivity.
  - by split.
Defined.

(** X16.  The report has one entry for each label of the ground truth
    (of its rows with an image name), in the order in which the labels
    first appear among the sorted groups (integer labels and image names
    by value, texts by code point), and no other entry: a label that only
    the predictions have is not reported. *)
Theorem report_one_entry_per_label (fuel : nat) (t : F.float)
  (ground_truth detection_results : list Detection)
  (scores : list (cell * Scores)) :
  main fuel t ground_truth detection_results = Done scores ->
  scores.*1 = labels_in_order (groupby_keys ground_truth)
  /\ NoDup scores.*1
  /\ forall l, l ∈ scores.*1
       <-> exists d, d ∈ ground_truth /\ label d = l /\ present (key_of d).
Proof.
  intros (acc & Hacc & Hrep)%main_done.
  apply report_labels in Hrep.
  destruct (accumulate_acc_inv _ _ _ _ _ Hacc) as [Hlabels _].
  rewrite Hrep, Hlabels. split; [done|]. apply labels_of_ground_truth.
Qed.

(** The labels 10 and 9, in this order in the file, each with a
    prediction on its box: the report has 9 before 10. *)
Lemma report_one_entry_per_label_witness :
  let gt := [numbered 10 10 10 50 50 F.one; numbered 9 10 10 50 50 F.one] in
  let scores :=
    [(Int 9, {| precision := F.one; recall := F.one; f1_score := F.one |});
     (Int 10, {| precision := F.one; recall := F.one; f1_score := F.one |})] in
  scores.*1 = labels_in_order (groupby_keys gt)
  /\ NoDup scores.*1
  /\ forall l, l ∈ scores.*1
       <-> exists d, d ∈ gt /\ label d = l /\ present (key_of d).
Proof.
  intros gt scores.
  apply (report_one_entry_per_label 2 F.half gt
           [numbered 10 10 10 50 50 score_09; numbered 9 10 10 50 50 score_08]
           scores).
  vm_compute. reflexivity.
Defined.

(** X17.  With a threshold above 1 and a ground truth that has a row
    (with its image name and its label) the program stops with
    [ZeroDivisionError]: no pair is matched, so no label has a true
    positive. *)
Theorem threshold_above_one_run_raises (fuel : nat) (t : F.float)
  (ground_truth detection_results : list Detection) (d : Detection) :
  d ∈ ground_truth -> present (key_of d) -> F.ltb F.one t = true ->
  main (S fuel) t ground_truth detection_results = Raise ZeroDivisionError.
Proof.
  intros Hd Hp Ht.
  destruct (fold_accumulate_done (S fuel) t ground_truth detection_results
              (groupby_keys ground_truth)) with (acc := @nil (cell * Metrics))
    as [acc Hacc].
  { intros k m Hk.
    destruct (process_group_above_one fuel t (rows_of k ground_truth)
                (rows_of k detection_results) m) as (g & Hg & _);
      [by apply rows_of_nonempty|done|eauto]. }
  apply (main_no_true_positive _ _ _ _ acc d); [done..|].
  apply (fold_accumulate_no_match (S fuel) t ground_truth detection_results
           (groupby_keys ground_truth)) with (acc := @nil (cell * Metrics));
    [|done|done].
  intros k m g Hk Hg.
  destruct (process_group_above_one fuel t (rows_of k ground_truth)
              (rows_of k detection_results) m) as (g' & Hg' & _ & _ & Hm);
    [by apply rows_of_nonempty|done|].
  rewrite Hg in Hg'. injection Hg' as <-. by rewrite Hm.
Qed.

Lemma threshold_above_one_run_raises_witness :
  main 1 (F.of_int 2) [cat_truth] [cat_pred] = Raise ZeroDivisionError.
Proof.
  apply (threshold_above_one_run_raises 0 (F.of_int 2) [cat_truth] [cat_pred]
           cat_truth).
  - by left.
  - by split.
  - reflexivity.
Defined.

(** A ground truth whose only row has no label has no group: nothing is
    counted and the report is empty, whatever the threshold. *)
Example unlabelled_truth_example :
  main 1 (F.of_int 2) [unlabelled 0 0 5 5 F.one] [texted "cat" 0 0 5 5 score_09]
  = Done [].
Proof. reflexivity. Qed.

(** X18.  The report is printed only if every label of the ground truth
    has a true positive; in particular only if, for every ground-truth
    row (with its image name and its label), some prediction row has its
    label, in an image where the ground truth has that label too.
    Otherwise (all groups done) the program stops with
    [ZeroDivisionError] and prints nothing for the labels that follow. *)
Theorem report_needs_true_positives (fuel : nat) (t : F.float)
  (ground_truth detection_results : list Detection) (acc : AccMetrics)
  (d : Detection) :
  accumulate fuel t ground_truth detection_results = Done acc ->
  d ∈ ground_truth -> present (key_of d) ->
  (true_positive (acc_get (label d) acc) = 0 ->
   main fuel t ground_truth detection_results = Raise ZeroDivisionError)
  /\ ((forall p, p ∈ detection_results -> label p = label d ->
         key_of p ∉ map key_of ground_truth) ->
      main fuel t ground_truth detection_results = Raise ZeroDivisionError)
  /\ (forall scores, main fuel t ground_truth detection_results = Done scores ->
      0 < true_positive (acc_get (label d) acc)).
Proof.
  intros Hacc Hd Hp.
  pose proof (main_no_true_positive fuel t _ _ acc d Hacc Hd Hp) as Hraise.
  destruct (accumulate_acc_inv _ _ _ _ _ Hacc) as [_ Hinv].
  destruct (Hinv (label d)) as (_ & Htp & _ & Hb & H0 & _ & H1).
  split_and!; [done| |].
  - intros Hnone. apply Hraise.
    assert (rows_in (label d) (groupby_keys ground_truth) detection_results = [])
      as Hnil.
    { unfold rows_in. apply filter_none.
      intros p Hin [Hl Hk]. apply (Hnone p); [done..|].
      by apply elem_of_groupby_keys. }
    rewrite Hnil in Htp. unfold len in Htp. simpl in Htp. lia.
  - intros scores Hmain.
    destruct (decide (true_positive (acc_get (label d) acc) = 0)) as [Hz|Hz];
      [|lia].
    by rewrite (Hraise Hz) in Hmain.
Qed.

Lemma report_needs_true_positives_witness :
  let acc := [(Text "dog",
               {| total_true := 1; total_pred := 0; true_positive := 0;
                  false_negative := 1; false_positive := 0 |})] in
  (true_positive (acc_get (label dog_truth) acc) = 0 ->
   main 1 F.half [dog_truth] [dog_pred_elsewhere] = Raise ZeroDivisionError)
  /\ ((forall p, p ∈ [dog_pred_elsewhere] -> label p = label dog_truth ->
         key_of p ∉ map key_of [dog_truth]) ->
      main 1 F.half [dog_truth] [dog_pred_elsewhere] = Raise ZeroDivisionError)
  /\ (forall scores, main 1 F.half [dog_truth] [dog_pred_elsewhere] = Done scores ->
      0 < true_positive (acc_get (label dog_truth) acc)).
Proof.
  intros acc.
  apply (report_needs_true_positives 1 F.half [dog_truth] [dog_pred_elsewhere]
           acc dog_truth).
  - reflexivity.
  - by left.
  - by split.
Defined.

(** * The matching cannot be extended *)

(** ** Reading a binary32 number as a binary64 number keeps the order *)

Lemma valid32_finite (s : bool) (m : positive) (e : Z) :
  valid_binary 24 128 (S754_finite s m e) = true ->
  Zdigits2 (Z.pos m) <= 24 /\ -149 <= e <= 104
  /\ (e = -149 \/ Zdigits2 (Z.pos m) = 24).
Proof.
  unfold valid_binary, bounded, canonical_mantissa.
  intros [Hc He]%andb_true_iff. apply Z.eqb_eq in Hc. apply Z.leb_le in He.
  simpl Zdigits2. unfold fexp, emin in Hc. lia.
Qed.

(** The mantissa gets its 53 digits; the value is the same. *)
Lemma widen_finite32 (s : bool) (m : positive) (e : Z) :
  valid_binary 24 128 (S754_finite s m e) = true ->
  exists c, Z.pos c = Z.pos m * 2 ^ (53 - Zdigits2 (Z.pos m))
    /\ F.widen (S754_finite s m e)
       = S754_finite s c (Zdigits2 (Z.pos m) + e - 53).
Proof.
  intros (Hd & He & _)%valid32_finite.
  cbn [F.widen]. unfold binary_round.
  pose proof (shl_align_spec m e (fexp 53 1024 (Z.pos (digits2_pos m) + e)))
    as (Hez & Hmz & Hdz).
  destruct (shl_align m e _) as [mz ez]. simpl fst in *. simpl snd in *.
  simpl Zdigits2 in *.
  assert (0 < Z.pos (digits2_pos m)) as HD0 by lia.
  assert (ez = Z.pos (digits2_pos m) + e - 53) as ->
    by (unfold fexp, emin in Hez; lia).
  exists mz. split.
  { rewrite Hmz. do 2 f_equal. lia. }
  pose proof (binary_round_aux_exact 53 1024 s mz
                (Z.pos (digits2_pos m) + e - 53) 0) as Hr.
  rewrite Z.pow_0_r, Z.mul_1_r, Z.add_0_r in Hr.
  apply Hr; [lia|simpl Zdigits2; lia|unfold emin; lia|lia].
Qed.

Lemma widen_leb_finite (m1 m2 : positive) (e1 e2 : Z) :
  valid_binary 24 128 (S754_finite false m1 e1) = true ->
  valid_binary 24 128 (S754_finite false m2 e2) = true ->
  F.leb (S754_finite false m1 e1) (S754_finite false m2 e2) = true ->
  F.leb (F.widen (S754_finite false m1 e1)) (F.widen (S754_finite false m2 e2))
  = true.
Proof.
  intros H1 H2.
  destruct (widen_finite32 _ _ _ H1) as (c1 & Hc1 & ->).
  destruct (widen_finite32 _ _ _ H2) as (c2 & Hc2 & ->).
  apply valid32_finite in H1 as (Hd1 & He1 & Hn1).
  apply valid32_finite in H2 as (Hd2 & He2 & Hn2).
  unfold F.leb, SFleb. rewrite !compare_pos_finite.
  set (d1 := Zdigits2 (Z.pos m1)) in *. set (d2 := Zdigits2 (Z.pos m2)) in *.
  destruct (Z.compare_spec e1 e2) as [Heq|Hlt|Hgt]; [| |done].
  - intros Hm.
    assert (Z.pos m1 <= Z.pos m2) as Hle.
    { destruct (Pos.compare_spec m1 m2); [lia|lia|done]. }
    assert (d1 <= d2) as Hd.
    { subst d1 d2. apply Zdigits2_le; [simpl; lia|].
      pose proof (Zdigits2_lt (Z.pos m2)). lia. }
    destruct (Z.compare_spec (d1 + e1 - 53) (d2 + e2 - 53)) as [He| |]; [|done|lia].
    assert (d1 = d2) as Hdd by lia.
    destruct (Pos.compare_spec c1 c2) as [| |Hc]; [done|done|].
    exfalso. rewrite Hdd in Hc1.
    assert (Z.pos c1 <= Z.pos c2); [|lia].
    rewrite Hc1, Hc2. apply Z.mul_le_mono_nonneg_r; [|done].
    apply Z.pow_nonneg. lia.
  - intros _.
    destruct (Z.compare_spec (d1 + e1 - 53) (d2 + e2 - 53)); [lia|done|lia].
Qed.

Lemma widen_leb_unit (x v : F.float) :
  in_unit32 x -> valid_binary 24 128 x = true ->
  in_unit32 v -> valid_binary 24 128 v = true ->
  F.leb x v = true -> F.leb (F.widen x) (F.widen v) = true.
Proof.
  destruct x as [[]|?| |[] m1 e1], v as [[]|?| |[] m2 e2]; try done.
  - intros _ _ _ Hv _. by destruct (widen_finite32 _ _ _ Hv) as (c & _ & ->).
  - intros _ H1 _ H2. by apply widen_leb_finite.
Qed.

(** ** The pass that breaks *)

Section Leftover.
Local Open Scope nat_scope.
Variables M N : nat.
Hypothesis HM : 0 < M.
Hypothesis HN : 0 < N.

(** The entry that the breaking pass compares with the threshold is the
    largest one: what is left unmasked is below the threshold too. *)
Lemma break_bounds_leftover t X st k :
  match_inv M N st k ->
  (forall i j, i ∉ used_rows st -> j ∉ used_cols st ->
     at2 (pairwise_iou st) i j = at2 X i j) ->
  (forall i j x, at2 X i j = Some x ->
     in_unit32 x /\ valid_binary 24 128 x = true) ->
  loop_pass t st = Done Break ->
  forall i j x, i ∉ used_rows st -> j ∉ used_cols st -> at2 X i j = Some x ->
    F.ltb (F.widen x) t = true.
Proof.
  intros ((Hrect & _ & _) & _ & _ & Hmask) Hframe HX Hbreak i j x Hi Hj Hx.
  destruct (loop_pass_spec M N HM HN t st Hrect)
    as (r & c & v & Hr & Hc & Hv & Harg & Heq).
  rewrite Hbreak in Heq. destruct (F.ltb (F.widen v) t) eqn:Hlt; [|done].
  assert (v = F.neg_inf \/ (in_unit32 v /\ valid_binary 24 128 v = true))
    as Hvcase.
  { destruct (decide (r ∈ used_rows st)); [left; eapply Hmask; eauto|].
    destruct (decide (c ∈ used_cols st)); [left; eapply Hmask; eauto|].
    right. rewrite Hframe in Hv by done. eauto. }
  assert (F.is_nan v = false) as Hnan.
  { destruct Hvcase as [->|[Hu _]]; [done|]. by destruct v as [[]| | |[]]. }
  destruct Harg as (_ & Hmax & _).
  assert (at2 (pairwise_iou st) i j = Some x) as Hx' by (by rewrite Hframe).
  destruct (at2_lt _ _ _ _ _ _ Hrect Hx') as [Hi' Hj'].
  pose proof (Hmax Hnan (i * N + j) x) as Hle.
  rewrite (at2_join M N) in Hle by done. specialize (Hle Hx').
  destruct (HX _ _ _ Hx) as [Hux Hvx].
  destruct Hvcase as [->|[Huv Hvv]].
  - by destruct x as [[]| | |[]].
  - apply (leb_ltb_trans _ (F.widen v)); [|done]. by apply widen_leb_unit.
Qed.

Lemma match_loop_leftover t boxes1 boxes2 m fuel st' :
  length boxes1 = M -> length boxes2 = N ->
  match_loop fuel t (start (compute_iou boxes1 boxes2) m) = Done st' ->
  forall i j a b, boxes1 !! i = Some a -> boxes2 !! j = Some b ->
    i ∉ used_rows st' -> j ∉ used_cols st' ->
    F.ltb (F.widen (iou_pair a b)) t = true.
Proof.
  intros HlM HlN Hloop i j a b Ha Hb Hi Hj.
  pose proof (compute_iou_rect boxes1 boxes2) as HX. rewrite HlM, HlN in HX.
  apply match_loop_run in Hloop as (tr & Hrun & Hbreak & _).
  pose proof (match_inv_start M N _ m HX) as Hinv.
  destruct (run_shape_inv M N HM HN t _ _ _ (proj1 Hinv) Hrun) as [(HX' & _) _].
  pose proof (pass_break_ordinary M N HM HN t st' HX' Hbreak) as Ht.
  destruct (run_match_inv M N HM HN t _ _ _ 0 Ht Hinv Hrun) as (Hinv' & _).
  destruct (run_frame M N HM HN t (compute_iou boxes1 boxes2) _ _ _ 0 Ht Hinv
              ltac:(done) Hrun) as [Hframe _].
  apply (break_bounds_leftover t (compute_iou boxes1 boxes2) st' _ Hinv' Hframe)
    with (i := i) (j := j); [|done..|].
  - intros i' j' x Hx. rewrite compute_iou_lookup in Hx.
    destruct (boxes1 !! i') as [a'|]; [|done].
    destruct (boxes2 !! j') as [b'|]; [|done].
    injection Hx as <-. split; [apply iou_pair_in_unit|apply to_f32_valid].
  - rewrite compute_iou_lookup, Ha, Hb. done.
Qed.
End Leftover.

(** X19.  The matching of a group cannot be extended.  When the body of
    the [for] loop is done, a ground-truth box whose row is not matched and
    a prediction whose column is not matched (a false negative and a false
    positive of the same image and label) have an IoU below the
    threshold. *)
Theorem leftover_pairs_below_threshold (fuel : nat) (t : F.float)
  (true_df pred_df : list Detection) (m : Metrics) (g : GroupResult)
  (i j : nat) (d p : Detection) :
  process_group fuel t true_df pred_df m = Done g ->
  true_df !! i = Some d -> pred_df !! j = Some p ->
  i ∉ matched_rows g -> j ∉ matched_cols g ->
  F.ltb (F.widen (iou_pair (box d) (box p))) t = true.
Proof.
  unfold process_group. intros Hg Hd Hp.
  assert (0 < length true_df)%nat as HM by (by eapply Nat.le_lt_trans; [apply Nat.le_0_l|eapply lookup_lt_Some]).
  assert (0 < length pred_df)%nat as HN by (by eapply Nat.le_lt_trans; [apply Nat.le_0_l|eapply lookup_lt_Some]).
  rewrite andb_false_intro2 in Hg
    by (apply bool_decide_eq_false; unfold len; lia).
  destruct (match_loop _ _ _) as [st| |] eqn:Hloop; [|done..].
  injection Hg as <-. cbn [matched_rows matched_cols]. intros Hi Hj.
  apply (match_loop_leftover _ _ HM HN t (map box true_df) (map box pred_df)
           _ fuel st (length_map _ _) (length_map _ _) Hloop i j); [| |done..].
  - by rewrite map_fmap, list_lookup_fmap, Hd.
  - by rewrite map_fmap, list_lookup_fmap, Hp.
Qed.

Lemma leftover_pairs_below_threshold_witness :
  F.ltb (F.widen (iou_pair (box dog_truth) (box dog_pred))) F.half = true.
Proof.
  apply (leftover_pairs_below_threshold 1 F.half [dog_truth] [dog_pred]
           no_metrics
           {| matched_rows := ∅; matched_cols := ∅;
              group_metrics :=
                {| total_true := 1; total_pred := 1; true_positive := 0;
                   false_negative := 1; false_positive := 1 |} |}
           0 0 dog_truth dog_pred).
  - vm_compute. reflexivity.
  - reflexivity.
  - reflexivity.
  - apply not_elem_of_empty.
  - apply not_elem_of_empty.
Defined.

(** * The IoU of boxes of moderate size is the rounded exact ratio *)

(** An integer below 2^53 given with trailing zero digits is normalized
    to its binary64 number. *)
Lemma binary_round_of_int (m : positive) (j n : Z) :
  0 <= j -> 0 < n < 2 ^ 53 -> Z.pos m = n * 2 ^ j ->
  binary_round 53 1024 false m (- j) = F.of_int n.
Proof.
  intros Hj Hn Hm.
  destruct (of_int_small n Hn) as (c & Hc & Hd & ->).
  assert (Zdigits2 n <= 53) as HD by (apply Zdigits2_le; lia).
  assert (0 < Zdigits2 n) as HD0 by (destruct n; simpl in *; lia).
  assert (Zdigits2 (Z.pos m) = Zdigits2 n + j) as Hdm.
  { rewrite Hm. apply Zdigits2_shift; lia. }
  unfold binary_round.
  pose proof (shl_align_spec m (- j) (fexp 53 1024 (Z.pos (digits2_pos m) + - j)))
    as (Hez & Hmz & Hdz).
  destruct (shl_align m (- j) _) as [mz ez]. simpl fst in *. simpl snd in *.
  change (Z.pos (digits2_pos m)) with (Zdigits2 (Z.pos m)) in *.
  rewrite Hdm in *.
  assert (fexp 53 1024 (Zdigits2 n + j + - j) = Zdigits2 n - 53) as Hf
    by (unfold fexp, emin; lia).
  rewrite Hf in Hez.
  destruct (decide (Zdigits2 n - 53 <= - j)) as [Hle|Hgt].
  - assert (ez = Zdigits2 n - 53) as -> by lia.
    assert (mz = c) as ->.
    { apply Pos2Z.inj. rewrite Hmz, Hc, Hm, <- Z.mul_assoc, <- Z.pow_add_r by lia.
      do 2 f_equal. lia. }
    pose proof (binary_round_aux_exact 53 1024 false c (Zdigits2 n - 53) 0) as Hr.
    rewrite Z.pow_0_r, Z.mul_1_r, Z.add_0_r in Hr.
    apply Hr; [lia|done|unfold emin; lia|lia].
  - assert (ez = - j) as -> by lia.
    assert (Z.pos mz = Z.pos c * 2 ^ (j + Zdigits2 n - 53)) as ->.
    { rewrite Hmz, Z.sub_diag, Z.pow_0_r, Z.mul_1_r, Hm, Hc.
      rewrite <- Z.mul_assoc, <- Z.pow_add_r by lia. do 2 f_equal. lia. }
    rewrite (binary_round_aux_exact 53 1024) by (unfold emin; lia).
    f_equal. lia.
Qed.

Lemma sub64_exact (a b : Z) :
  0 < b -> b < a -> a < 2 ^ 53 ->
  F.sub64 (F.of_int a) (F.of_int b) = F.of_int (a - b).
Proof.
  intros Hb Hab Ha.
  destruct (of_int_small a) as (ca & Hca & Hda & ->); [lia|].
  destruct (of_int_small b) as (cb & Hcb & Hdb & ->); [lia|].
  assert (Zdigits2 a <= 53) as HDa by (apply Zdigits2_le; lia).
  assert (0 < Zdigits2 b) as HDb by (destruct b; simpl in *; lia).
  assert (Zdigits2 b <= Zdigits2 a) as Hdd.
  { apply Zdigits2_le; [apply Zdigits2_nonneg|]. pose proof (Zdigits2_lt a). lia. }
  simpl F.sub64. unfold SFsub.
  pose proof (shl_align_spec ca (Zdigits2 a - 53)
                (Z.min (Zdigits2 a - 53) (Zdigits2 b - 53))) as (Hea & Hma & _).
  pose proof (shl_align_spec cb (Zdigits2 b - 53)
                (Z.min (Zdigits2 a - 53) (Zdigits2 b - 53))) as (Heb & Hmb & _).
  destruct (shl_align ca _ _) as [ma ea]. destruct (shl_align cb _ _) as [mb eb].
  simpl fst in *. simpl snd in *. simpl cond_Zopp.
  assert (ea = Zdigits2 b - 53) as -> by lia.
  assert (eb = Zdigits2 b - 53) as -> by lia.
  replace (Z.min (Zdigits2 a - 53) (Zdigits2 b - 53)) with (- (53 - Zdigits2 b))
    by lia.
  rewrite Z.sub_diag, Z.pow_0_r, Z.mul_1_r in Hmb.
  assert (Z.pos ma = a * 2 ^ (53 - Zdigits2 b)) as Hma'.
  { rewrite Hma, Hca, <- Z.mul_assoc, <- Z.pow_add_r by lia. do 2 f_equal. lia. }
  pose proof (Z.pow_pos_nonneg 2 (53 - Zdigits2 b) ltac:(lia) ltac:(lia)) as Hpow.
  assert (Z.pos ma - Z.pos mb = (a - b) * 2 ^ (53 - Zdigits2 b)) as Hdiff.
  { rewrite Hma', Hmb, Hcb. ring. }
  destruct (Z.pos ma - Z.pos mb) as [|p|p] eqn:Hp; [nia| |nia].
  simpl binary_normalize.
  apply binary_round_of_int; [lia|lia|done].
Qed.

(** The quotient of two integers below 2^53, the first not above the
    second, is not above 1 once rounded. *)
Lemma div64_int_le_one (n u : Z) :
  0 < n -> n <= u -> u < 2 ^ 53 ->
  F.div64 (F.of_int n) (F.of_int u) = F.zero
  \/ exists r E, F.div64 (F.of_int n) (F.of_int u) = S754_finite false r E
                 /\ F.leb (S754_finite false r E) F.one = true.
Proof.
  intros Hn Hnu Hu.
  destruct (decide (n = u)) as [->|Hne].
  { right. destruct (of_int_small u) as (c & _ & _ & ->); [lia|].
    rewrite div64_self. by eexists _, _. }
  destruct (of_int_small n) as (cn & Hcn & Hdn & ->); [lia|].
  destruct (of_int_small u) as (cu & Hcu & Hdu & ->); [lia|].
  assert (Zdigits2 u <= 53) as HDu by (apply Zdigits2_le; lia).
  assert (0 < Zdigits2 n) as HDn by (destruct n; simpl in *; lia).
  assert (Zdigits2 n <= Zdigits2 u) as Hdd.
  { apply Zdigits2_le; [apply Zdigits2_nonneg|]. pose proof (Zdigits2_lt u). lia. }
  simpl F.div64. unfold SFdiv, SFdiv_core_binary.
  rewrite Hdn, Hdu.
  set (e1 := Zdigits2 n - 53). set (e2 := Zdigits2 u - 53).
  assert (e1 <= e2) as He by (subst e1 e2; lia).
  assert (Z.min (fexp 53 1024 (53 + e1 - (53 + e2))) (e1 - e2) = e1 - e2 - 53)
    as -> by (unfold fexp, emin; lia).
  replace (e1 - e2 - (e1 - e2 - 53)) with 53 by lia.
  cbv iota beta. rewrite Z.shiftl_mul_pow2 by lia.
  pose proof (Z_div_mod (Z.pos cn * 2 ^ 53) (Z.pos cu) ltac:(lia)) as Hdm.
  destruct (Z.div_eucl (Z.pos cn * 2 ^ 53) (Z.pos cu)) as [q r].
  destruct Hdm as [Heq Hr].
  pose proof (Z.pow_pos_nonneg 2 (e2 - e1) ltac:(lia) ltac:(lia)) as Hpd.
  assert (Z.pos cn < 2 ^ (e2 - e1) * Z.pos cu) as Hlt.
  { rewrite Hcn, Hcu.
    replace (2 ^ (e2 - e1) * (u * 2 ^ (53 - Zdigits2 u)))
      with (u * (2 ^ (e2 - e1) * 2 ^ (53 - Zdigits2 u))) by ring.
    rewrite <- Z.pow_add_r by lia.
    replace (e2 - e1 + (53 - Zdigits2 u)) with (53 - Zdigits2 n) by (subst e1 e2; lia).
    apply Z.mul_lt_mono_pos_r; [apply Z.pow_pos_nonneg; lia|lia]. }
  assert (0 <= q) as Hq0 by nia.
  assert (q < 2 ^ (53 + (e2 - e1))) as Hq.
  { rewrite Z.pow_add_r by lia. nia. }
  assert (Zdigits2 q <= 53 + (e2 - e1)) as Hdq by (apply Zdigits2_le; lia).
  pose proof (Zdigits2_nonneg q) as Hdq0.
  destruct (binary_round_aux_cases 53 1024 eq_refl false q (e1 - e2 - 53)
              (new_location (Z.pos cu) r) Hq0) as (m & Hm & Hm' & ->).
  set (E := Z.max (e1 - e2 - 53) (fexp 53 1024 (Zdigits2 q + (e1 - e2 - 53)))) in *.
  assert (E <= -53) as HE by (subst E; unfold fexp, emin; lia).
  assert (0 <= m) as Hm0.
  { eapply Z.le_trans; [|apply Hm]. apply Z.div_pos; [lia|].
    apply Z.pow_pos_nonneg; [lia|]. subst E. lia. }
  destruct (decide (m < 2 ^ 53)) as [Hlt53|Hge53].
  - destruct m as [|p|p]; [by left| |lia]. right.
    rewrite (proj2 (Z.leb_le E (1024 - 53))) by lia.
    eexists _, _. split; [done|].
    unfold F.leb, SFleb, F.one. rewrite compare_pos_finite.
    destruct (Z.compare_spec E (-52)); [lia|done|lia].
  - right. rewrite (proj2 (Z.leb_le (E + 1) (1024 - 53))) by lia.
    eexists _, _. split; [done|].
    unfold F.leb, SFleb, F.one. rewrite compare_pos_finite.
    destruct (Z.compare_spec (E + 1) (-52)); [|done|lia].
    by change (Z.to_pos (2 ^ (53 - 1))) with 4503599627370496%positive.
Qed.

(** Clipping to [0, 1] changes nothing between 0 and 1. *)
Lemma clip_unit (x : F.float) :
  x = F.zero
  \/ (exists r E, x = S754_finite false r E
                  /\ F.leb (S754_finite false r E) F.one = true) ->
  F.clip x F.zero F.one = x.
Proof.
  intros [->|(r & E & -> & Hle)]; [reflexivity|].
  unfold F.clip, F.maximum. cbn [F.is_nan].
  change (F.ltb F.zero (S754_finite false r E)) with true. cbv iota.
  unfold F.minimum. change (F.is_nan F.zero) with false. cbv iota.
  cbn [F.is_nan]. change (F.is_nan F.one) with false. cbv iota.
  destruct (F.ltb (S754_finite false r E) F.one) eqn:Hlt; [done|].
  revert Hle Hlt. unfold F.leb, F.ltb, SFleb, SFltb, F.one.
  rewrite compare_pos_finite.
  destruct (Z.compare_spec E (-52)) as [->| |]; [|done..].
  destruct (Pos.compare_spec r 4503599627370496) as [->| |]; done.
Qed.

Lemma small_box_area (a : Box) :
  small_box a -> box_area a = exact_area a /\ 0 < exact_area a < 2 ^ 52.
Proof.
  intros ((Hl & Ht & Hr & Hb) & Hw & Hh). unfold coordinate_ok in *.
  unfold exact_area.
  set (W := right a - left a) in *. set (H := bottom a - top a) in *.
  assert (0 < W * H < 2 ^ 52) as HWH.
  { split; [nia|]. change (2 ^ 52) with (2 ^ 26 * 2 ^ 26). nia. }
  split; [|done]. unfold box_area, I64.mul, I64.sub.
  rewrite (wrap_small (right a - left a)), (wrap_small (bottom a - top a)) by lia.
  fold W H. apply wrap_small. lia.
Qed.

Lemma iou_pair_exact (a b : Box) :
  small_box a -> small_box b ->
  iou_pair a b
  = F.to_f32 (F.div64 (F.of_int (exact_intersection a b))
                      (F.of_int (exact_union a b))).
Proof.
  intros Ha Hb.
  destruct (small_box_area a Ha) as [HAa HA].
  destruct (small_box_area b Hb) as [HAb HB].
  destruct Ha as ((Hla & Hta & Hra & Hba) & Hwa & Hha).
  destruct Hb as ((Hlb & Htb & Hrb & Hbb) & Hwb & Hhb).
  unfold coordinate_ok in *. unfold exact_union, exact_intersection.
  set (w := Z.min (right a) (right b) - Z.max (left a) (left b)).
  set (h := Z.min (bottom a) (bottom b) - Z.max (top a) (top b)).
  destruct (decide (0 < w /\ 0 < h)) as [[Hw Hh]|Hno].
  - rewrite (Z.max_r 0 w), (Z.max_r 0 h) by lia.
    assert (w <= right a - left a /\ h <= bottom a - top a) as [Hwle Hhle]
      by (subst w h; lia).
    assert (0 < w * h <= exact_area a) as Hwh.
    { unfold exact_area. split; [nia|]. apply Z.mul_le_mono_nonneg; lia. }
    assert (w * h <= exact_area b) as Hwh'.
    { unfold exact_area. apply Z.mul_le_mono_nonneg; subst w h; lia. }
    assert (intersection_area_pair a b = F.of_int (w * h)) as Hia.
    { unfold intersection_area_pair, intersection_width, intersection_height,
        I64.sub. fold w h. rewrite !wrap_small by lia.
      rewrite !maximum_zero_of_int by lia. apply mul64_exact; lia. }
    assert (union_area_pair a b
            = F.of_int (exact_area a + exact_area b - w * h)) as Hun.
    { unfold union_area_pair. rewrite Hia, HAa, HAb. unfold I64.add.
      rewrite wrap_small by lia. rewrite sub64_exact by lia.
      apply maximum_of_int_eps. lia. }
    unfold iou_pair. rewrite Hia, Hun. f_equal.
    apply clip_unit, div64_int_le_one; lia.
  - rewrite empty_intersection_zero by (subst w h; lia).
    assert (Z.max 0 w * Z.max 0 h = 0) as -> by nia.
    rewrite Z.sub_0_r.
    destruct (of_int_small (exact_area a + exact_area b)) as (c & _ & _ & ->);
      [lia|].
    reflexivity.
Qed.

(** X20.  For boxes whose coordinates lie in [-2^62, 2^62) and whose
    width and height are positive and below 2^26, the IoU entry is the
    exact ratio, rounded: the intersection area and the union area are
    computed without wrap-around and without rounding error, their
    quotient is rounded once to binary64 and once to binary32, and neither
    the floor [1e-32] nor the clipping to [0, 1] changes anything. *)
Theorem small_boxes_exact_iou (boxes1 boxes2 : list Box) (i j : nat) (a b : Box) :
  boxes1 !! i = Some a -> boxes2 !! j = Some b ->
  small_box a -> small_box b ->
  at2 (compute_iou boxes1 boxes2) i j
  = Some (F.to_f32 (F.div64 (F.of_int (exact_intersection a b))
                            (F.of_int (exact_union a b)))).
Proof.
  intros Ha Hb Hsa Hsb. rewrite (compute_iou_entry _ _ _ _ _ _ Ha Hb).
  f_equal. by apply iou_pair_exact.
Qed.

(** The boxes of scenario A: the areas are 1296 and 1600, the ratio is
    0.81. *)
Lemma small_boxes_exact_iou_witness :
  at2 (compute_iou [mkbox 10 10 50 50] [mkbox 12 12 48 48]) 0 0
  = Some (F.to_f32 (F.div64
            (F.of_int (exact_intersection (mkbox 10 10 50 50) (mkbox 12 12 48 48)))
            (F.of_int (exact_union (mkbox 10 10 50 50) (mkbox 12 12 48 48))))).
Proof.
  apply (small_boxes_exact_iou [mkbox 10 10 50 50] [mkbox 12 12 48 48] 0 0
           (mkbox 10 10 50 50) (mkbox 12 12 48 48)).
  - reflexivity.
  - reflexivity.
  - unfold small_box, in_range, coordinate_ok; simpl; lia.
  - unfold small_box, in_range, coordinate_ok; simpl; lia.
Defined.

(** * The reported precision and recall *)

(** The quotient of two positive Python integers below 2^53, the first
    not above the second, is a positive number not above 1. *)
Lemma div64_exact_int_unit (a b : Z) :
  0 < a -> a <= b -> b < 2 ^ 53 ->
  exists r E, F.div64 (exact_int a) (exact_int b) = S754_finite false r E
              /\ F.leb (S754_finite false r E) F.one = true.
Proof.
  intros Ha Hab Hb.
  destruct a as [|pa|pa]; [lia| |lia]. destruct b as [|pb|pb]; [lia| |lia].
  cbn [exact_int].
  destruct (decide (pa = pb)) as [->|Hne].
  { rewrite div64_self. by eexists _, _. }
  assert (Z.pos pa < Z.pos pb) as Hlt by lia.
  pose proof (Zdigits2_bounds (Z.pos pa) ltac:(lia)) as [Hla Hua].
  pose proof (Zdigits2_bounds (Z.pos pb) ltac:(lia)) as [Hlb Hub].
  assert (0 < Zdigits2 (Z.pos pa)) as Hda0 by (simpl; lia).
  assert (Zdigits2 (Z.pos pb) <= 53) as Hdb by (apply Zdigits2_le; lia).
  assert (Zdigits2 (Z.pos pa) <= Zdigits2 (Z.pos pb)) as Hdd.
  { apply Zdigits2_le; [apply Zdigits2_nonneg|]. lia. }
  simpl F.div64. unfold SFdiv, SFdiv_core_binary.
  set (d1 := Zdigits2 (Z.pos pa)) in *. set (d2 := Zdigits2 (Z.pos pb)) in *.
  assert (Z.min (fexp 53 1024 (d1 + 0 - (d2 + 0))) (0 - 0) = d1 - d2 - 53)
    as -> by (unfold fexp, emin; lia).
  set (s := 53 + d2 - d1).
  replace (0 - 0 - (d1 - d2 - 53)) with s by (subst s; lia).
  assert (match s with
          | 0 => Z.pos pa
          | Z.pos _ => Z.shiftl (Z.pos pa) s
          | Z.neg _ => 0
          end = Z.pos pa * 2 ^ s) as ->.
  { assert (0 < s) as Hs by (subst s; lia).
    destruct s as [|p|p] eqn:Hseq; [lia| |lia]. by rewrite Z.shiftl_mul_pow2. }
  assert (0 < s) as Hs by (subst s; lia).
  pose proof (Z_div_mod (Z.pos pa * 2 ^ s) (Z.pos pb) ltac:(lia)) as Hdm.
  destruct (Z.div_eucl (Z.pos pa * 2 ^ s) (Z.pos pb)) as [q r].
  destruct Hdm as [Heq Hr].
  pose proof (Z.pow_pos_nonneg 2 s ltac:(lia) ltac:(lia)) as Hps.
  assert (0 <= q) as Hq0 by nia.
  assert (q < 2 ^ s) as Hq by nia.
  assert (2 ^ 52 <= q) as Hq52.
  { assert (2 ^ 52 * Z.pos pb < Z.pos pa * 2 ^ s); [|nia].
    assert (2 ^ (52 + d2) <= Z.pos pa * 2 ^ s) as Hlow.
    { replace (52 + d2) with (d1 - 1 + s) by (subst s; lia).
      rewrite Z.pow_add_r by lia. apply Z.mul_le_mono_nonneg_r; lia. }
    rewrite Z.pow_add_r in Hlow by lia.
    pose proof (Z.pow_pos_nonneg 2 52 ltac:(lia) ltac:(lia)). nia. }
  assert (Zdigits2 q <= s) as Hdq by (apply Zdigits2_le; lia).
  assert (52 < Zdigits2 q) as Hdq' by (apply Zdigits2_ge; lia).
  pose proof (Zdigits2_bounds q ltac:(lia)) as [Hlq _].
  destruct (binary_round_aux_cases 53 1024 eq_refl false q (d1 - d2 - 53)
              (new_location (Z.pos pb) r) Hq0) as (m & Hm & Hm' & ->).
  set (E := Z.max (d1 - d2 - 53) (fexp 53 1024 (Zdigits2 q + (d1 - d2 - 53)))) in *.
  assert (E <= -53) as HE by (subst E s; unfold fexp, emin; lia).
  assert (0 <= E - (d1 - d2 - 53) <= Zdigits2 q - 1) as Hk
    by (subst E s; unfold fexp, emin; lia).
  assert (1 <= m) as Hm1.
  { eapply Z.le_trans; [|apply Hm].
    apply Z.div_le_lower_bound; [apply Z.pow_pos_nonneg; lia|].
    rewrite Z.mul_1_r. eapply Z.le_trans; [|apply Hlq].
    apply Z.pow_le_mono_r; lia. }
  destruct (decide (m < 2 ^ 53)) as [Hlt53|Hge53].
  - destruct m as [|p|p]; [lia| |lia].
    rewrite (proj2 (Z.leb_le E (1024 - 53))) by lia.
    eexists _, _. split; [done|].
    unfold F.leb, SFleb, F.one. rewrite compare_pos_finite.
    destruct (Z.compare_spec E (-52)); [lia|done|lia].
  - rewrite (proj2 (Z.leb_le (E + 1) (1024 - 53))) by lia.
    eexists _, _. split; [done|].
    unfold F.leb, SFleb, F.one. rewrite compare_pos_finite.
    destruct (Z.compare_spec (E + 1) (-52)); [|done|lia].
    by change (Z.to_pos (2 ^ (53 - 1))) with 4503599627370496%positive.
Qed.

Lemma report_entry acc : forall scores l s,
  report acc = Done scores -> (l, s) ∈ scores ->
  exists m, (l, m) ∈ acc /\ label_scores m = Done s.
Proof.
  induction acc as [|[l0 m0] acc IH]; intros scores l s.
  - intros [= <-] Hin. by apply elem_of_nil in Hin.
  - rewrite report_cons.
    destruct (label_scores m0) as [s0| |] eqn:Hs0; [|done..].
    destruct (report acc) as [rest| |] eqn:Hrest; [|done..].
    intros [= <-] [[= -> ->]|Hin]%elem_of_cons.
    + exists m0. split; [by left|done].
    + destruct (IH rest l s eq_refl Hin) as (m & Hm & Hs).
      exists m. split; [by right|done].
Qed.

Lemma acc_get_unique l m (acc : AccMetrics) :
  NoDup acc.*1 -> (l, m) ∈ acc -> acc_get l acc = m.
Proof.
  induction acc as [|[l0 m0] acc IH]; intros Hnd Hin.
  - by apply elem_of_nil in Hin.
  - cbn [fmap list_fmap fst] in Hnd. apply NoDup_cons in Hnd as [Hl0 Hnd].
    cbn [acc_get]. apply elem_of_cons in Hin as [[= -> ->]|Hin].
    + by rewrite decide_True.
    + rewrite decide_False; [by apply IH|].
      intros ->. apply Hl0. apply list_elem_of_fmap. by exists (l0, m).
Qed.

Lemma label_scores_done m s :
  label_scores m = Done s ->
  true_positive m <> 0
  /\ precision s = F.div64 (exact_int (true_positive m))
                     (exact_int (true_positive m + false_positive m))
  /\ recall s = F.div64 (exact_int (true_positive m))
                  (exact_int (true_positive m + false_negative m)).
Proof.
  intros Hs. split.
  { intros Hz. by rewrite (label_scores_no_true_positive m Hz) in Hs. }
  revert Hs. unfold label_scores.
  destruct (int_truediv_outcome (true_positive m)
              (true_positive m + false_positive m)) as [[_ ->]|[_ ->]]; [done|].
  destruct (int_truediv_outcome (true_positive m)
              (true_positive m + false_negative m)) as [[_ ->]|[_ ->]]; [done|].
  cbn [mbind outcome_bind].
  match goal with
  | |- context [float_truediv ?x ?y] => destruct (float_truediv x y); [|done..]
  end.
  by intros [= <-].
Qed.

(** X21.  Every precision and every recall of the report is a number
    above 0 and not above 1 (the data frames having fewer than 2^53
    rows): a label whose precision or recall would be 0 is never reported,
    the program stops with [ZeroDivisionError] instead. *)
Theorem reported_precision_recall_in_unit (fuel : nat) (t : F.float)
  (ground_truth detection_results : list Detection)
  (scores : list (cell * Scores)) (l : cell) (s : Scores) :
  len ground_truth < 2 ^ 53 -> len detection_results < 2 ^ 53 ->
  main fuel t ground_truth detection_results = Done scores ->
  (l, s) ∈ scores ->
  F.ltb F.zero (precision s) = true /\ F.leb (precision s) F.one = true
  /\ F.ltb F.zero (recall s) = true /\ F.leb (recall s) F.one = true.
Proof.
  intros Hgt Hdet (acc & Hacc & Hrep)%main_done Hin.
  destruct (report_entry _ _ _ _ Hrep Hin) as (m & Hm & Hs).
  destruct (accumulate_acc_inv _ _ _ _ _ Hacc) as [Hlabels Hinv].
  assert (acc_get l acc = m) as Hget.
  { apply acc_get_unique; [|done]. rewrite Hlabels. apply labels_of_ground_truth. }
  destruct (Hinv l) as (Htt & Htp & Hb1 & Hb2 & H0 & H1 & H2).
  rewrite Hget in *.
  destruct (label_scores_done _ _ Hs) as (Hnz & -> & ->).
  assert (total_true m <= len ground_truth) as Hle1.
  { rewrite Htt. unfold rows_in, len. apply inj_le, length_filter. }
  assert (total_pred m <= len detection_results) as Hle2.
  { rewrite Htp. unfold rows_in, len. apply inj_le, length_filter. }
  destruct (div64_exact_int_unit (true_positive m)
              (true_positive m + false_positive m)) as (r1 & E1 & -> & Hp);
    [lia..|].
  destruct (div64_exact_int_unit (true_positive m)
              (true_positive m + false_negative m)) as (r2 & E2 & -> & Hr);
    [lia..|].
  done.
Qed.

Lemma reported_precision_recall_in_unit_witness :
  let s := {| precision := F.one; recall := F.one; f1_score := F.one |} in
  F.ltb F.zero (precision s) = true /\ F.leb (precision s) F.one = true
  /\ F.ltb F.zero (recall s) = true /\ F.leb (recall s) F.one = true.
Proof.
  intros s.
  apply (reported_precision_recall_in_unit 2 F.half [cat_truth] [cat_pred]
           [(Text "cat", s)] (Text "cat") s).
  - reflexivity.
  - reflexivity.
  - reflexivity.
  - by left.
Defined.

(** * Raising the threshold *)

(** The pass looks at the same entry whatever the threshold; a pass that
    matches under the higher threshold matches under the lower one. *)
Lemma loop_pass_lower_threshold t1 t2 sta stb r c stb' :
  same_arrays sta stb -> F.leb t1 t2 = true ->
  loop_pass t2 stb = Done (Matched r c stb') ->
  exists sta', loop_pass t1 sta = Done (Matched r c sta') /\ same_arrays sta' stb'.
Proof.
  intros (HX & Hr & Hc) Ht. unfold loop_pass. rewrite HX.
  destruct (np_argmax (mjoin (pairwise_iou stb))) as [k| |]; [|done..].
  cbn [mbind outcome_bind].
  destruct (entry (pairwise_iou stb) _ _) as [v| |]; [|done..].
  cbn [mbind outcome_bind].
  destruct (F.ltb (F.widen v) t2) eqn:Hlt2; [done|].
  intros [= <- <- <-].
  destruct (F.ltb (F.widen v) t1) eqn:Hlt1.
  { by rewrite (ltb_leb_trans _ _ _ Hlt1 Ht) in Hlt2. }
  eexists. split; [done|]. unfold same_arrays, mark. simpl.
  by rewrite HX, Hr, Hc.
Qed.

Lemma match_loop_grows t fuel : forall st st',
  match_loop fuel t st = Done st' ->
  used_rows st ⊆ used_rows st' /\ used_cols st ⊆ used_cols st'.
Proof.
  induction fuel as [|fuel IH]; intros st st'; [done|]. cbn [match_loop].
  destruct (loop_pass t st) as [[|r c st1]| |] eqn:Hpass; cbn [mbind outcome_bind];
    [|intros Hloop|done..].
  - by intros [= <-].
  - destruct (IH _ _ Hloop) as [Hr Hc].
    assert (st1 = mark r c st) as ->.
    { revert Hpass. unfold loop_pass.
      destruct (np_argmax _); [|done..]. cbn [mbind outcome_bind].
      destruct (entry _ _ _); [|done..]. cbn [mbind outcome_bind].
      destruct (F.ltb _ _); [done|]. by intros [= <- <- <-]. }
    simpl in Hr, Hc. set_solver.
Qed.

Lemma match_loop_lower_threshold t1 t2 fuel2 : forall fuel1 sta stb st1 st2,
  same_arrays sta stb -> F.leb t1 t2 = true ->
  match_loop fuel2 t2 stb = Done st2 ->
  match_loop fuel1 t1 sta = Done st1 ->
  used_rows st2 ⊆ used_rows st1 /\ used_cols st2 ⊆ used_cols st1.
Proof.
  induction fuel2 as [|fuel2 IH]; intros fuel1 sta stb st1 st2 Hsame Ht; [done|].
  cbn [match_loop].
  destruct (loop_pass t2 stb) as [[|r c stb']| |] eqn:Hpass;
    cbn [mbind outcome_bind]; [| |done..].
  - intros [= <-] Hloop1. destruct Hsame as (_ & <- & <-).
    by apply match_loop_grows in Hloop1.
  - intros Hloop2 Hloop1.
    destruct (loop_pass_lower_threshold _ _ _ _ _ _ _ Hsame Ht Hpass)
      as (sta' & Hpass1 & Hsame').
    destruct fuel1 as [|fuel1]; [done|]. cbn [match_loop] in Hloop1.
    rewrite Hpass1 in Hloop1. cbn [mbind outcome_bind] in Hloop1. eauto.
Qed.

Lemma process_group_lower_threshold fuel1 fuel2 t1 t2 true_df pred_df m1 m2 g1 g2 :
  F.leb t1 t2 = true ->
  process_group fuel1 t1 true_df pred_df m1 = Done g1 ->
  process_group fuel2 t2 true_df pred_df m2 = Done g2 ->
  matched_rows g2 ⊆ matched_rows g1 /\ matched_cols g2 ⊆ matched_cols g1.
Proof.
  intros Ht. unfold process_group.
  destruct (bool_decide (0 < len true_df) && bool_decide (len pred_df = 0)).
  - by intros [= <-] [= <-].
  - destruct (match_loop fuel1 t1 _) as [st1| |] eqn:Hloop1; [|done..].
    destruct (match_loop fuel2 t2 _) as [st2| |] eqn:Hloop2; [|done..].
    intros [= <-] [= <-]. cbn [matched_rows matched_cols].
    eapply match_loop_lower_threshold;
      [|exact Ht|exact Hloop2|exact Hloop1]; done.
Qed.

Lemma fold_accumulate_lower_threshold fuel1 fuel2 t1 t2 gt det ks :
  F.leb t1 t2 = true ->
  forall acc1 acc2 acc1' acc2',
    (forall l, true_positive (acc_get l acc2) <= true_positive (acc_get l acc1)) ->
    fold_left (accumulate_group fuel1 t1 gt det) ks (Done acc1) = Done acc1' ->
    fold_left (accumulate_group fuel2 t2 gt det) ks (Done acc2) = Done acc2' ->
    forall l, true_positive (acc_get l acc2') <= true_positive (acc_get l acc1').
Proof.
  intros Ht. induction ks as [|k ks IH]; intros acc1 acc2 acc1' acc2' Hle.
  - by intros [= <-] [= <-].
  - cbn [fold_left]. intros Hf1 Hf2.
    destruct (accumulate_group fuel1 t1 gt det (Done acc1) k) as [a1| |] eqn:Hs1.
    2-3: rewrite fold_accumulate_not_done in Hf1 by done; done.
    destruct (accumulate_group fuel2 t2 gt det (Done acc2) k) as [a2| |] eqn:Hs2.
    2-3: rewrite fold_accumulate_not_done in Hf2 by done; done.
    apply (IH a1 a2 acc1' acc2'); [|done..].
    unfold accumulate_group in Hs1, Hs2. cbn [mbind outcome_bind] in Hs1, Hs2.
    destruct (process_group fuel1 _ _ _ _) as [g1| |] eqn:Hg1; [|done..].
    destruct (process_group fuel2 _ _ _ _) as [g2| |] eqn:Hg2; [|done..].
    injection Hs1 as <-. injection Hs2 as <-.
    destruct (process_group_lower_threshold _ _ _ _ _ _ _ _ _ _ Ht Hg1 Hg2)
      as [Hrows _].
    destruct (process_group_done _ _ _ _ _ _ Hg1) as (n1 & _ & Hn1 & _ & Hm1).
    destruct (process_group_done _ _ _ _ _ _ Hg2) as (n2 & _ & Hn2 & _ & Hm2).
    pose proof (subseteq_size _ _ Hrows) as Hsize.
    intros l. destruct (decide (k.2 = l)) as [<-|Hne].
    + rewrite !acc_get_set_eq, Hm1, Hm2. simpl. specialize (Hle k.2). lia.
    + rewrite !acc_get_set_ne by done. apply Hle.
Qed.

(** X22.  Raising the threshold never adds a match: of two runs on the
    same data, the one with the higher threshold has, for every label, at
    most as many true positives, at least as many false negatives and at
    least as many false positives. *)
Theorem higher_threshold_fewer_true_positives (fuel1 fuel2 : nat)
  (t1 t2 : F.float) (ground_truth detection_results : list Detection)
  (acc1 acc2 : AccMetrics) (l : cell) :
  F.leb t1 t2 = true ->
  accumulate fuel1 t1 ground_truth detection_results = Done acc1 ->
  accumulate fuel2 t2 ground_truth detection_results = Done acc2 ->
  true_positive (acc_get l acc2) <= true_positive (acc_get l acc1)
  /\ false_negative (acc_get l acc1) <= false_negative (acc_get l acc2)
  /\ false_positive (acc_get l acc1) <= false_positive (acc_get l acc2).
Proof.
  intros Ht Hacc1 Hacc2.
  assert (true_positive (acc_get l acc2) <= true_positive (acc_get l acc1)) as Htp.
  { by apply (fold_accumulate_lower_threshold fuel1 fuel2 t1 t2 ground_truth
                detection_results (groupby_keys ground_truth) Ht [] [] acc1 acc2). }
  destruct (accumulate_acc_inv _ _ _ _ _ Hacc1) as [_ Hinv1].
  destruct (accumulate_acc_inv _ _ _ _ _ Hacc2) as [_ Hinv2].
  destruct (Hinv1 l) as (Htt1 & Htp1 & Ha1 & Hb1 & _).
  destruct (Hinv2 l) as (Htt2 & Htp2 & Ha2 & Hb2 & _).
  lia.
Qed.

(** Scenario A with the thresholds 0.5 and 2. *)
Lemma higher_threshold_fewer_true_positives_witness :
  let acc1 := [(Text "cat",
                {| total_true := 1; total_pred := 1; true_positive := 1;
                   false_negative := 0; false_positive := 0 |})] in
  let acc2 := [(Text "cat",
                {| total_true := 1; total_pred := 1; true_positive := 0;
                   false_negative := 1; false_positive := 1 |})] in
  true_positive (acc_get (Text "cat") acc2) <= true_positive (acc_get (Text "cat") acc1)
  /\ false_negative (acc_get (Text "cat") acc1) <= false_negative (acc_get (Text "cat") acc2)
  /\ false_positive (acc_get (Text "cat") acc1) <= false_positive (acc_get (Text "cat") acc2).
Proof.
  intros acc1 acc2.
  apply (higher_threshold_fewer_true_positives 2 1 F.half (F.of_int 2)
           [cat_truth] [cat_pred] acc1 acc2 (Text "cat")).
  - reflexivity.
  - vm_compute. reflexivity.
  - vm_compute. reflexivity.
Defined.

(** * The confidence scores *)

Lemma groupby_keys_drop_score (df : list Detection) :
  groupby_keys (map drop_score df) = groupby_keys df.
Proof.
  unfold groupby_keys. do 2 f_equal. rewrite map_map. by apply map_ext.
Qed.

Lemma rows_of_drop_score (k : key) (df : list Detection) :
  rows_of k (map drop_score df) = map drop_score (rows_of k df).
Proof.
  unfold rows_of. induction df as [|d df IH]; [done|]. cbn [map].
  rewrite (filter_cons _ (drop_score d)), (filter_cons _ d).
  change (key_of (drop_score d)) with (key_of d).
  destruct (decide (key_of d = k /\ present k)); cbn [map]; by rewrite IH.
Qed.

Lemma process_group_drop_score fuel t true_df pred_df m :
  process_group fuel t (map drop_score true_df) (map drop_score pred_df) m
  = process_group fuel t true_df pred_df m.
Proof.
  unfold process_group, len. rewrite !length_map, !map_map.
  by rewrite (map_ext (fun d => box (drop_score d)) box) by done.
Qed.

Lemma fold_accumulate_drop_score fuel t gt det ks : forall o,
  fold_left (accumulate_group fuel t (map drop_score gt) (map drop_score det)) ks o
  = fold_left (accumulate_group fuel t gt det) ks o.
Proof.
  induction ks as [|k ks IH]; intros o; [done|]. cbn [fold_left].
  rewrite IH. f_equal. unfold accumulate_group.
  destruct o as [a| |]; [|done..]. cbn [mbind outcome_bind].
  by rewrite !rows_of_drop_score, process_group_drop_score.
Qed.

Lemma main_drop_score fuel t gt det :
  main fuel t (map drop_score gt) (map drop_score det) = main fuel t gt det.
Proof.
  unfold main, accumulate.
  by rewrite groupby_keys_drop_score, fold_accumulate_drop_score.
Qed.

(** X23.  The confidence scores have no part in the result: two runs on
    data that differ in the score column only (same rows, in the same
    order, with the same images, boxes and labels) end alike.  The
    predictions are matched by IoU alone, never ranked by score. *)
Theorem scores_are_ignored (fuel : nat) (t : F.float)
  (ground_truth ground_truth' detection_results detection_results'
     : list Detection) :
  map drop_score ground_truth = map drop_score ground_truth' ->
  map drop_score detection_results = map drop_score detection_results' ->
  main fuel t ground_truth detection_results
  = main fuel t ground_truth' detection_results'.
Proof.
  intros Hgt Hdet.
  rewrite <- (main_drop_score fuel t ground_truth detection_results).
  rewrite <- (main_drop_score fuel t ground_truth' detection_results').
  by rewrite Hgt, Hdet.
Qed.

Lemma scores_are_ignored_witness :
  main 2 F.half [cat_truth] [cat_pred]
  = main 2 F.half [cat_truth] [row "a" 12 12 48 48 "cat" score_08].
Proof.
  apply (scores_are_ignored 2 F.half [cat_truth] [cat_truth] [cat_pred]
           [row "a" 12 12 48 48 "cat" score_08]).
  - reflexivity.
  - reflexivity.
Defined.

(** * One label at a time *)

Lemma increasing_filter (P : key -> Prop) `{!forall k, Decision (P k)}
  (ks : list key) : increasing ks -> increasing (filter P ks).
Proof.
  induction ks as [|k ks IH]; [done|]. intros [Hk Hks].
  rewrite filter_cons. destruct (decide (P k)); [|auto].
  split; [|auto]. apply Forall_forall. intros k' [_ Hin]%list_elem_of_filter.
  by eapply Forall_forall in Hk.
Qed.

(** A set of keys has one increasing list. *)
Lemma increasing_unique (ks1 : list key) : forall ks2,
  increasing ks1 -> increasing ks2 -> (forall k, k ∈ ks1 <-> k ∈ ks2) ->
  ks1 = ks2.
Proof.
  induction ks1 as [|k1 ks1 IH]; intros [|k2 ks2] H1 H2 Heq.
  - done.
  - exfalso. eapply elem_of_nil, Heq. by left.
  - exfalso. eapply elem_of_nil, Heq. by left.
  - destruct H1 as [Hk1 H1], H2 as [Hk2 H2].
    assert (forall k, k ∈ ks1 -> key_lt k1 k) as Hlt1
      by (by apply Forall_forall).
    assert (forall k, k ∈ ks2 -> key_lt k2 k) as Hlt2
      by (by apply Forall_forall).
    assert (k1 = k2) as ->.
    { destruct (decide (k1 = k2)) as [|Hne]; [done|]. exfalso.
      assert (k1 ∈ ks2) as Hin1.
      { assert (k1 ∈ k2 :: ks2) as [?|?]%elem_of_cons by (apply Heq; by left);
          done. }
      assert (k2 ∈ ks1) as Hin2.
      { assert (k2 ∈ k1 :: ks1) as [?|?]%elem_of_cons by (apply Heq; by left);
          done. }
      apply (key_lt_irrefl k1).
      eapply key_lt_trans; [by apply Hlt1|by apply Hlt2]. }
    f_equal. apply IH; [done..|]. intros k. split; intros Hin.
    + assert (k ∈ k2 :: ks2) as [->|?]%elem_of_cons by (apply Heq; by right);
        [|done].
      by apply Hlt1, key_lt_irrefl in Hin.
    + assert (k ∈ k2 :: ks1) as [->|?]%elem_of_cons by (apply Heq; by right);
        [|done].
      by apply Hlt2, key_lt_irrefl in Hin.
Qed.

Lemma groupby_keys_filter_label (l : cell) (df : list Detection) :
  groupby_keys (filter (fun d => label d = l) df)
  = filter (fun k => k.2 = l) (groupby_keys df).
Proof.
  apply increasing_unique.
  - apply groupby_keys_increasing.
  - apply increasing_filter, groupby_keys_increasing.
  - intros k.
    rewrite list_elem_of_filter, !elem_of_groupby_keys_iff. split.
    + intros (Hp & d & [Hl Hd]%list_elem_of_filter & <-). split; [done|eauto].
    + intros [Hl (Hp & d & Hd & <-)]. split; [done|]. exists d. split; [|done].
      by apply list_elem_of_filter.
Qed.

Lemma fold_accumulate_label fuel t gt det (l : cell) (ks : list key) :
  forall acc acc' accl,
    acc_get l accl = acc_get l acc ->
    fold_left (accumulate_group fuel t gt det) ks (Done acc) = Done acc' ->
    exists accl',
      fold_left (accumulate_group fuel t (filter (fun d => label d = l) gt)
                   (filter (fun d => label d = l) det))
        (filter (fun k => k.2 = l) ks) (Done accl) = Done accl'
      /\ acc_get l accl' = acc_get l acc'.
Proof.
  induction ks as [|k ks IH]; intros acc acc' accl Hget.
  - intros [= <-]. by exists accl.
  - cbn [fold_left]. intros Hfold.
    destruct (accumulate_group fuel t gt det (Done acc) k) as [a1| |] eqn:Hstep.
    2-3: rewrite fold_accumulate_not_done in Hfold by done; done.
    unfold accumulate_group in Hstep. cbn [mbind outcome_bind] in Hstep.
    destruct (process_group _ _ _ _ _) as [g| |] eqn:Hg; [|done..].
    injection Hstep as <-.
    rewrite filter_cons. destruct (decide (k.2 = l)) as [<-|Hl].
    + cbn [fold_left]. unfold accumulate_group at 2. cbn [mbind outcome_bind].
      rewrite !rows_of_filter by (by intros d <-).
      rewrite Hget, Hg. cbn [mbind outcome_bind].
      apply (IH (acc_set k.2 (group_metrics g) acc) acc'); [|done].
      by rewrite !acc_get_set_eq.
    + apply (IH (acc_set k.2 (group_metrics g) acc) acc'); [|done].
      by rewrite acc_get_set_ne.
Qed.

(** X24.  The labels are evaluated independently of each other: the
    counters of a label at the end of a run on two data frames are those
    of the run on the same data frames cut down to the rows whose label
    cell is that label (same type, same value; the columns keep their
    types). *)
Theorem labels_are_independent (fuel : nat) (t : F.float)
  (ground_truth detection_results : list Detection) (acc : AccMetrics)
  (l : cell) :
  accumulate fuel t ground_truth detection_results = Done acc ->
  exists acc_l,
    accumulate fuel t (filter (fun d => label d = l) ground_truth)
      (filter (fun d => label d = l) detection_results) = Done acc_l
    /\ acc_get l acc_l = acc_get l acc.
Proof.
  intros Hacc. unfold accumulate. rewrite groupby_keys_filter_label.
  by apply (fold_accumulate_label fuel t ground_truth detection_results l
              (groupby_keys ground_truth) [] acc []).
Qed.

(** The label 1 of an integer column in the ground truth, the labels "1"
    and "cat" of a column of texts in the predictions: no prediction has
    the label 1, in the run on all rows and in the run on the rows of
    label 1. *)
Lemma labels_are_independent_witness :
  let gt := [numbered 1 10 10 50 50 F.one] in
  let det := [texted "1" 10 10 50 50 score_09; texted "cat" 0 0 5 5 score_08] in
  exists acc_l,
    accumulate 2 F.half (filter (fun d => label d = Int 1) gt)
      (filter (fun d => label d = Int 1) det) = Done acc_l
    /\ acc_get (Int 1) acc_l
       = acc_get (Int 1)
           [(Int 1,
             {| total_true := 1; total_pred := 0; true_positive := 0;
                false_negative := 1; false_positive := 0 |})].
Proof.
  intros gt det.
  apply (labels_are_independent 2 F.half gt det).
  reflexivity.
Defined.

(** * The matching is greedy *)

Section Greedy.
Local Open Scope nat_scope.
Variables M N : nat.
Hypothesis HM : 0 < M.
Hypothesis HN : 0 < N.

Lemma pass_takes_largest t X st r c st' k :
  ordinary t -> match_inv M N st k ->
  (forall i j, i ∉ used_rows st -> j ∉ used_cols st ->
     at2 (pairwise_iou st) i j = at2 X i j) ->
  (forall i j x, at2 X i j = Some x -> F.is_nan x = false) ->
  loop_pass t st = Done (Matched r c st') ->
  exists v, at2 X r c = Some v
    /\ forall i j x, i ∉ used_rows st -> j ∉ used_cols st ->
         at2 X i j = Some x -> F.leb x v = true.
Proof.
  intros Ht Hinv Hframe HX Hpass.
  destruct (pass_match_inv M N HM HN t st r c st' k Ht Hinv Hpass)
    as (_ & Hr & Hc & _).
  destruct Hinv as ((Hrect & _ & _) & _).
  destruct (loop_pass_spec M N HM HN t st Hrect)
    as (r' & c' & v & _ & _ & Hv & (_ & Hmax & _) & Heq).
  rewrite Hpass in Heq. destruct (F.ltb (F.widen v) t); [done|].
  assert (r' = r /\ c' = c) as [-> ->] by (by injection Heq).
  rewrite Hframe in Hv by done. exists v. split; [done|].
  intros i j x Hi Hj Hx.
  assert (at2 (pairwise_iou st) i j = Some x) as Hx' by (by rewrite Hframe).
  destruct (at2_lt _ _ _ _ _ _ Hrect Hx') as [_ Hj'].
  apply (Hmax (HX _ _ _ Hv) (i * N + j)).
  by rewrite (at2_join M N).
Qed.

Lemma run_greedy t X st tr st' : forall k,
  ordinary t -> match_inv M N st k ->
  (forall i j, i ∉ used_rows st -> j ∉ used_cols st ->
     at2 (pairwise_iou st) i j = at2 X i j) ->
  (forall i j x, at2 X i j = Some x -> F.is_nan x = false) ->
  run t st tr st' ->
  greedy_from X (used_rows st) (used_cols st) tr.
Proof.
  intros k Ht Hinv Hframe HX Hrun. revert k Hinv Hframe.
  induction Hrun as [st|st r c st1 tr st2 Hpass _ IH]; intros k Hinv Hframe;
    [done|].
  cbn [greedy_from fst snd]. split.
  - by eapply pass_takes_largest.
  - destruct (pass_match_inv M N HM HN t st r c st1 k Ht Hinv Hpass)
      as (-> & Hr & Hc & Hinv1).
    apply (IH (S k) Hinv1). simpl. intros i j Hi Hj.
    rewrite at2_set_col_ne, at2_set_row_ne by set_solver.
    apply Hframe; set_solver.
Qed.
End Greedy.

(** X25.  The matching is greedy.  For a threshold that is neither a NaN
    nor minus infinity the loop, run on the array of [compute_iou] for
    [M >= 1] boxes against [N >= 1], ends after the passes that matched
    the pairs of a list [tr] of at most [min M N] pairs, in this order, and
    the pass that broke; [used_rows] and [used_cols] are the rows and the
    columns of [tr], one true positive was counted for each pair, and each
    pair was, when it was taken, a pair of largest IoU among all pairs of a
    ground-truth box and a prediction that were both still unmatched. *)
Theorem matches_are_greedy (boxes1 boxes2 : list Box) (t : F.float)
  (m : Metrics) :
  ordinary t -> boxes1 <> [] -> boxes2 <> [] ->
  exists (tr : list (nat * nat)) (st' : MatchState),
    (length tr <= min (length boxes1) (length boxes2))%nat
    /\ run t (start (compute_iou boxes1 boxes2) m) tr st'
    /\ match_loop (S (length tr)) t (start (compute_iou boxes1 boxes2) m)
       = Done st'
    /\ used_rows st' = list_to_set tr.*1
    /\ used_cols st' = list_to_set tr.*2
    /\ true_positive (metrics st') = true_positive m + Z.of_nat (length tr)
    /\ greedy_from (compute_iou boxes1 boxes2) ∅ ∅ tr.
Proof.
  intros Ht H1 H2.
  assert (0 < length boxes1)%nat as HM by (destruct boxes1; [done|simpl; lia]).
  assert (0 < length boxes2)%nat as HN by (destruct boxes2; [done|simpl; lia]).
  pose proof (compute_iou_rect boxes1 boxes2) as HX.
  destruct (match_loop_ordinary _ _ HM HN t _ m Ht HX)
    as (tr & st' & Hlen & Hrun & Hloop & _).
  pose proof (match_inv_start _ _ _ m HX) as Hinv.
  destruct (run_shape_inv _ _ HM HN t _ _ _ (proj1 Hinv) Hrun) as [_ Hm].
  destruct (run_match_inv _ _ HM HN t _ _ _ 0%nat Ht Hinv Hrun)
    as (_ & _ & _ & Hur & Huc & _).
  exists tr, st'. rewrite Hm, Hur, Huc. simpl.
  split_and!; [lia|done|done|set_solver|set_solver|done|].
  apply (run_greedy _ _ HM HN t (compute_iou boxes1 boxes2)
           (start (compute_iou boxes1 boxes2) m) tr st' 0%nat Ht Hinv);
    [done| |done].
  intros i j x Hx. rewrite compute_iou_lookup in Hx.
  destruct (boxes1 !! i) as [a|]; [|done]. destruct (boxes2 !! j) as [b|]; [|done].
  injection Hx as <-. pose proof (iou_pair_in_unit a b) as Hu.
  by destruct (iou_pair a b) as [[]| | |[]].
Qed.

(** Two boxes against three: the IoU array is
    [[0.8333, 1.0, 0.0], [0.0, 0.0, 0.1428]]. *)
Lemma matches_are_greedy_witness :
  let boxes1 := [mkbox 0 0 10 10; mkbox 20 20 30 30] in
  let boxes2 := [mkbox 0 0 10 12; mkbox 0 0 10 10; mkbox 25 25 35 35] in
  exists (tr : list (nat * nat)) (st' : MatchState),
    (length tr <= min (length boxes1) (length boxes2))%nat
    /\ run F.zero (start (compute_iou boxes1 boxes2) no_metrics) tr st'
    /\ match_loop (S (length tr)) F.zero
         (start (compute_iou boxes1 boxes2) no_metrics) = Done st'
    /\ used_rows st' = list_to_set tr.*1
    /\ used_cols st' = list_to_set tr.*2
    /\ true_positive (metrics st')
       = true_positive no_metrics + Z.of_nat (length tr)
    /\ greedy_from (compute_iou boxes1 boxes2) ∅ ∅ tr.
Proof.
  intros boxes1 boxes2.
  apply (matches_are_greedy boxes1 boxes2 F.zero no_metrics).
  - reflexivity.
  - discriminate.
  - discriminate.
Defined.

(** On that array the pair (0, 1) is taken first, although (0, 0) comes
    first in the array, then the pair (1, 2). *)
Example greedy_order_example :
  run F.zero
    (start (compute_iou [mkbox 0 0 10 10; mkbox 20 20 30 30]
              [mkbox 0 0 10 12; mkbox 0 0 10 10; mkbox 25 25 35 35]) no_metrics)
    [(0%nat, 1%nat); (1%nat, 2%nat)]
    (mark 1 2 (mark 0 1
       (start (compute_iou [mkbox 0 0 10 10; mkbox 20 20 30 30]
                 [mkbox 0 0 10 12; mkbox 0 0 10 10; mkbox 25 25 35 35])
          no_metrics))).
Proof.
  eapply run_cons; [vm_compute; reflexivity|].
  eapply run_cons; [vm_compute; reflexivity|].
  apply run_nil.
Qed.

(** * The exceptions of a run, the threshold left out or given *)

(** ** With a threshold, the functions are those studied above *)

Lemma loop_pass_cli_some t st : loop_pass_cli (Some t) st = loop_pass t st.
Proof. reflexivity. Qed.

Lemma match_loop_cli_some t fuel : forall st,
  match_loop_cli fuel (Some t) st = match_loop fuel t st.
Proof.
  induction fuel as [|fuel IH]; intros st; [done|]. cbn [match_loop_cli match_loop].
  rewrite loop_pass_cli_some.
  destruct (loop_pass t st) as [[|r c st']| |]; cbn [mbind outcome_bind]; auto.
Qed.

Lemma process_group_cli_some fuel t true_df pred_df m :
  process_group_cli fuel (Some t) true_df pred_df m
  = process_group fuel t true_df pred_df m.
Proof. unfold process_group_cli, process_group. by rewrite match_loop_cli_some. Qed.

Lemma accumulate_cli_some fuel t gt det :
  accumulate_cli fuel (Some t) gt det = accumulate fuel t gt det.
Proof.
  unfold accumulate_cli, accumulate. apply fold_left_ext_in. intros k o _.
  unfold accumulate_group_cli, accumulate_group.
  destruct o as [a| |]; [|done..]. cbn [mbind outcome_bind].
  by rewrite process_group_cli_some.
Qed.

Lemma main_cli_some fuel t gt det :
  main_cli fuel (Some t) gt det = main fuel t gt det.
Proof. unfold main_cli, main. by rewrite accumulate_cli_some. Qed.

(** ** Without a threshold *)

Lemma loop_pass_cli_none (M N : nat) st :
  (0 < M)%nat -> (0 < N)%nat -> rect M N (pairwise_iou st) ->
  loop_pass_cli None st = Raise TypeError.
Proof.
  intros HM HN HX.
  destruct (loop_pass_spec M N HM HN F.zero st HX) as (r & c & v & _ & _ & _ & _ & Heq).
  revert Heq. unfold loop_pass, loop_pass_cli.
  destruct (np_argmax _) as [k| |]; cbn [mbind outcome_bind]; [|done..].
  by destruct (entry _ _ _) as [x| |].
Qed.

Lemma process_group_cli_empty_truth fuel t pred_df m :
  process_group_cli (S fuel) t [] pred_df m = Raise ValueError.
Proof. reflexivity. Qed.

Lemma process_group_cli_no_predictions fuel t true_df m :
  true_df <> [] -> exists g, process_group_cli fuel t true_df [] m = Done g.
Proof.
  intros Hne. unfold process_group_cli.
  rewrite (bool_decide_eq_true_2 (0 < len true_df)) by (by apply len_pos).
  cbn. eauto.
Qed.

Lemma process_group_cli_none fuel true_df pred_df m :
  true_df <> [] -> pred_df <> [] ->
  process_group_cli (S fuel) None true_df pred_df m = Raise TypeError.
Proof.
  intros Hne Hpred. unfold process_group_cli.
  assert (0 < length true_df)%nat as HM by (destruct true_df; [done|simpl; lia]).
  assert (0 < length pred_df)%nat as HN by (destruct pred_df; [done|simpl; lia]).
  rewrite andb_false_intro2
    by (apply bool_decide_eq_false; unfold len; lia).
  pose proof (compute_iou_rect (map box true_df) (map box pred_df)) as HX.
  rewrite !length_map in HX. cbn [match_loop_cli].
  by rewrite (loop_pass_cli_none _ _ _ HM HN).
Qed.

(** X9.  The body of the [for] loop raises in two cases only.  On a group
    without ground-truth rows [np.argmax] meets an array without entries
    and raises [ValueError] (the test on line 67 lets such a group
    through), whatever the threshold.  On a group with ground-truth rows
    and with predictions the comparison with the threshold raises
    [TypeError] when the option [-t] was left out.  With a threshold given,
    a group with ground truth never raises; without predictions it never
    raises either way. *)
Theorem body_raises_value_or_type_error (fuel : nat) (t : option F.float)
  (true_df pred_df : list Detection) (m : Metrics) (e : exn) :
  process_group_cli (S fuel) t true_df pred_df m = Raise e
  <-> (e = ValueError /\ true_df = [])
      \/ (e = TypeError /\ t = None /\ true_df <> [] /\ pred_df <> []).
Proof.
  split.
  - intros Hraise. destruct true_df as [|d true_df].
    { rewrite process_group_cli_empty_truth in Hraise. left. by injection Hraise as <-. }
    destruct t as [t|].
    { rewrite process_group_cli_some in Hraise.
      by apply process_group_no_raise in Hraise. }
    destruct pred_df as [|p pred_df].
    { destruct (process_group_cli_no_predictions (S fuel) None (d :: true_df) m)
        as [g Hg]; [done|]. by rewrite Hg in Hraise. }
    rewrite process_group_cli_none in Hraise by done.
    injection Hraise as <-. right. done.
  - intros [[-> ->]|(-> & -> & Ht & Hp)].
    + apply process_group_cli_empty_truth.
    + by apply process_group_cli_none.
Qed.

(** Scenario A without the option [-t]. *)
Example no_threshold_example :
  process_group_cli 1 None [cat_truth] [cat_pred] no_metrics = Raise TypeError
  /\ main_cli 1 None [cat_truth] [cat_pred] = Raise TypeError
  /\ main_cli 1 None [dog_truth] [dog_pred_elsewhere] = Raise ZeroDivisionError.
Proof. split_and!; reflexivity. Qed.

(** ** The whole run *)

Lemma fold_cli_not_done fuel t gt det ks (o : outcome AccMetrics) :
  (forall acc, o <> Done acc) ->
  fold_left (accumulate_group_cli fuel t gt det) ks o = o.
Proof.
  revert o. induction ks as [|k ks IH]; intros o Ho; [done|]. simpl.
  assert (accumulate_group_cli fuel t gt det o k = o) as ->; [|by apply IH].
  destruct o as [acc| |]; [by destruct (Ho acc)|done..].
Qed.

Lemma group_with_predictions_iff gt det :
  group_with_predictions gt det
  <-> exists k, k ∈ groupby_keys gt /\ rows_of k det <> [].
Proof.
  split.
  - intros (d & p & Hd & Hp & Hkey & Hpres). exists (key_of d). split.
    + apply elem_of_groupby_keys_iff. eauto.
    + intros Hnil. assert (p ∈ rows_of (key_of d) det) as Hin
        by (by apply list_elem_of_filter).
      rewrite Hnil in Hin. by apply elem_of_nil in Hin.
  - intros (k & Hk & Hne).
    apply elem_of_groupby_keys_iff in Hk as (Hpres & d & Hd & <-).
    destruct (rows_of (key_of d) det) as [|p ps] eqn:Hrows; [done|].
    assert (p ∈ rows_of (key_of d) det) as Hin by (rewrite Hrows; by left).
    apply list_elem_of_filter in Hin as [[Hkey _] Hp].
    exists d, p. done.
Qed.

Lemma fold_cli_none_raise fuel gt det ks : forall acc e,
  (forall k, k ∈ ks -> rows_of k gt <> []) ->
  fold_left (accumulate_group_cli (S fuel) None gt det) ks (Done acc) = Raise e ->
  e = TypeError /\ exists k, k ∈ ks /\ rows_of k det <> [].
Proof.
  induction ks as [|k ks IH]; intros acc e Hks; [done|]. cbn [fold_left].
  unfold accumulate_group_cli at 2. cbn [mbind outcome_bind].
  destruct (rows_of k det) as [|p ps] eqn:Hdet.
  - destruct (process_group_cli_no_predictions (S fuel) None (rows_of k gt)
                (acc_get k.2 acc)) as [g ->]; [apply Hks; by left|].
    cbn [mbind outcome_bind]. intros Hfold.
    destruct (IH _ _ (fun k' Hk' => Hks k' (proj2 (elem_of_cons _ _ _) (or_intror Hk')))
                Hfold) as (-> & k' & Hk' & Hne).
    split; [done|]. exists k'. split; [by right|done].
  - rewrite process_group_cli_none by (by (apply Hks; left) || done).
    cbn [mbind outcome_bind]. rewrite fold_cli_not_done by done.
    intros [= <-]. split; [done|]. exists k. split; [by left|by rewrite Hdet].
Qed.

Lemma fold_cli_none_type_error fuel gt det ks k :
  k ∈ ks -> (forall k', k' ∈ ks -> rows_of k' gt <> []) -> rows_of k det <> [] ->
  forall acc,
    fold_left (accumulate_group_cli (S fuel) None gt det) ks (Done acc)
    = Raise TypeError.
Proof.
  intros Hk Hks Hdet. induction ks as [|k0 ks IH]; intros acc.
  - by apply elem_of_nil in Hk.
  - cbn [fold_left]. unfold accumulate_group_cli at 2. cbn [mbind outcome_bind].
    destruct (rows_of k0 det) as [|p ps] eqn:Hdet0.
    + destruct (process_group_cli_no_predictions (S fuel) None (rows_of k0 gt)
                  (acc_get k0.2 acc)) as [g ->]; [apply Hks; by left|].
      cbn [mbind outcome_bind].
      apply elem_of_cons in Hk as [->|Hk]; [by rewrite Hdet0 in Hdet|].
      apply IH; [done|]. intros k' Hk'. apply Hks. by right.
    + rewrite process_group_cli_none by (by (apply Hks; left) || done).
      cbn [mbind outcome_bind]. by apply fold_cli_not_done.
Qed.

(** X15.  The exceptions of a run of the loops of [main].  With the
    option [-t] left out, the run stops with [TypeError] at the first
    comparison with the threshold, exactly when some group of the ground
    truth has predictions.  In every other case the only exception is the
    [ZeroDivisionError] of the final loop, raised when all groups are
    done: the groups come from the ground truth, so none is without
    ground-truth rows and [np.argmax] never meets an empty array. *)
Theorem run_raises_type_or_zero_division (fuel : nat) (t : option F.float)
  (ground_truth detection_results : list Detection) (e : exn) :
  main_cli (S fuel) t ground_truth detection_results = Raise e
  <-> (e = TypeError /\ t = None
       /\ group_with_predictions ground_truth detection_results)
      \/ (e = ZeroDivisionError
          /\ exists acc,
               accumulate_cli (S fuel) t ground_truth detection_results = Done acc
               /\ report acc = Raise ZeroDivisionError).
Proof.
  split.
  - destruct t as [t|].
    + rewrite main_cli_some, accumulate_cli_some.
      intros (-> & Hacc)%main_raise. by right.
    + unfold main_cli.
      destruct (accumulate_cli (S fuel) None ground_truth detection_results)
        as [acc|e'|] eqn:Hacc; cbn [mbind outcome_bind]; [| |done].
      * intros Hrep. pose proof (report_raises _ _ Hrep) as ->. right. eauto.
      * intros [= <-]. left.
        apply fold_cli_none_raise in Hacc as [-> Hk];
          [|intros k; apply rows_of_nonempty].
        split; [done|]. split; [done|]. by apply group_with_predictions_iff.
  - intros [(-> & -> & (k & Hk & Hdet)%group_with_predictions_iff)
           |(-> & acc & Hacc & Hrep)].
    + unfold main_cli, accumulate_cli.
      rewrite (fold_cli_none_type_error fuel ground_truth detection_results
                 (groupby_keys ground_truth) k); [done..| |done].
      intros k'. apply rows_of_nonempty.
    + unfold main_cli. by rewrite Hacc.
Qed.
